(** * Taipei-Torrent file store ([torrent/files.go])

    A shallow embedding of the [fileStore] type: the flat byte address space
    laid over a list of files, its binary-search lookup, the raw and the
    cache-aware accessors, commit, construction and teardown.

    The collaborators of the store (the file system, the file handles and the
    torrent cache) are Go interfaces.  They are modelled as type classes over
    an abstract [World]: every method is a function of the world that returns
    its Go results and the next world.  Every method call the store makes is
    also appended to a trace of events, so that statements of the form
    "closes exactly these handles" can be made about any collaborator. *)

From Equations Require Import Equations.
From Stdlib Require Import List ZArith Lia Bool Arith.
From Stdlib.Strings Require Import Byte.
From Stdlib.Strings Require String.
Import ListNotations.
Import String.StringSyntax.

Abbreviation string := String.string.

Local Open Scope string_scope.
Local Open Scope list_scope.

Local Open Scope Z_scope.

(** ** Machine integers

    [int64] (and [int], on the 64-bit targets the program is built for) is a
    [Z] reduced to the two's-complement range after every operation. *)

Definition min_int64 : Z := - 2 ^ 63.
Definition max_int64 : Z := 2 ^ 63 - 1.

Definition wrap64 (z : Z) : Z := (z + 2 ^ 63) mod 2 ^ 64 - 2 ^ 63.

Definition in_int64 (z : Z) : Prop := min_int64 <= z <= max_int64.

Definition add64 (a b : Z) : Z := wrap64 (a + b).
Definition sub64 (a b : Z) : Z := wrap64 (a - b).

(** [len(p)] of a slice, as an [int]. *)
Definition len {A : Type} (p : list A) : Z := Z.of_nat (length p).

(** ** Errors

    A Go [error] is either the value this package creates with [errors.New]
    or a value handed back by a collaborator. *)

Inductive error : Type :=
| errors_New (text : string)
| collaborator_error (text : string).

Definition ErrNonZeroTrailing : error :=
  errors_New "Unexpected non-zero data at end of store.".

(** ** The metainfo dictionary

    [InfoDict] and [FileDict] are declared in another file of the package;
    the fields below are the ones [NewFileStore] reads, in the order of the
    positional literal [FileDict{info.Length, []string{info.Name}, info.Md5sum}]. *)

Record FileDict : Type := mkFileDict {
  fd_Length : Z;
  fd_Path : list string;
  fd_Md5sum : string
}.

Record InfoDict : Type := mkInfoDict {
  Files : list FileDict;
  Length : Z;
  Name : string;
  Md5sum : string
}.

(** A [chunk] is what the cache hands back: a flat offset [i] and a byte
    slice [data] (type declared with the cache, fields as used here). *)
Record chunk : Type := mkChunk {
  i : Z;
  data : list byte
}.

(** ** Offset lookup: [find]

    The loop [for low < high-1] halves the window; its measure is
    [high - low].  Indices are [nat]: they range over [0 .. len(offsets)].
    On [nat], [low <? high - 1] has the truth value of Go's [low < high-1]
    also for [high = 0] (both are false).  [probe] always lies strictly
    between [low] and [high], so [offsets[probe]] is in range. *)

Definition inspect {A : Type} (a : A) : {b : A | a = b} := exist _ a eq_refl.

Equations? find_loop (offsets : list Z) (offset : Z) (low high : nat) : nat
  by wf (high - low)%nat lt :=
find_loop offsets offset low high with inspect (Nat.ltb low (high - 1)) => {
  | exist _ true _ with Z.ltb offset (nth ((low + high) / 2) offsets 0) => {
      | true := find_loop offsets offset low ((low + high) / 2)%nat
      | false := find_loop offsets offset ((low + high) / 2)%nat high }
  | exist _ false _ := low }.
Proof.
  all: match goal with
       | H : Nat.ltb _ _ = true |- _ => apply Nat.ltb_lt in H
       end.
  all: change (fst (Nat.divmod (low + high) 1 0 1)) with ((low + high) / 2)%nat.
  all: pose proof (Nat.div_mod_eq (low + high) 2) as Hd;
       pose proof (Nat.mod_upper_bound (low + high) 2 ltac:(lia)) as Hm;
       lia.
Qed.

Definition find (offsets : list Z) (offset : Z) : nat :=
  find_loop offsets offset 0 (length offsets).

(** ** Collaborator interfaces

    Each Go interface becomes a class of operations on an abstract world.
    A method returns its Go results together with the next world.

    Byte slices are passed by value.  [file_ReadAt f buf off] receives the
    current contents of the destination slice and returns the bytes the
    handle stores into it (from its start), the count [n] and the error;
    the handle may use the whole slice as scratch space, whatever [n] is. *)

Class FileOps (World File : Type) : Type := {
  file_ReadAt : File -> list byte -> Z -> World -> (list byte * Z * option error) * World;
  file_WriteAt : File -> list byte -> Z -> World -> (Z * option error) * World;
  file_Close : File -> World -> option error * World
}.

Class FileSystemOps (World FileSystem File : Type) : Type := {
  fs_Open : FileSystem -> list string -> Z -> World -> (File * option error) * World
}.

(** [TorrentCache] is declared with the cache; these are the four methods
    the store calls.  A [nil] slice of chunks and an empty one are both [[]]:
    the store only ranges over the result. *)
Class CacheOps (World Cache : Type) : Type := {
  cache_ReadAt : Cache -> list byte -> Z -> World -> (list byte * list chunk) * World;
  cache_WriteAt : Cache -> list byte -> Z -> World -> list chunk * World;
  cache_MarkCommitted : Cache -> Z -> World -> World;
  cache_Close : Cache -> World -> option error * World
}.

(** Run-time panics the store can raise. *)
Inductive panic_value : Type :=
| slice_bounds_out_of_range
| index_out_of_range
| log_Panicln (text : string) (err : error).

Inductive Res (A : Type) : Type :=
| Ok (a : A)
| Panic (v : panic_value).
Arguments Ok {A} a.
Arguments Panic {A} v.

Section FileStore.

Context {World File FileSystem Cache : Type}.
Context {FO : FileOps World File}.
Context {FSO : FileSystemOps World FileSystem File}.
Context {CO : CacheOps World Cache}.

(** Lines written with the [log] package: the arguments that vary. *)
Inductive LogLine : Type :=
| log_read_error (off : Z) (count : Z) (err : error)
| log_commit_error (err : error).

(** Calls made on collaborators, and lines written to the log. *)
Inductive Event : Type :=
| EvOpen (fs : FileSystem) (path : list string) (size : Z)
| EvFileReadAt (f : File) (count : nat) (off : Z)
| EvFileWriteAt (f : File) (p : list byte) (off : Z)
| EvFileClose (f : File)
| EvCacheReadAt (c : Cache) (count : nat) (off : Z)
| EvCacheWriteAt (c : Cache) (p : list byte) (off : Z)
| EvCacheMarkCommitted (c : Cache) (pieceNum : Z)
| EvCacheClose (c : Cache)
| EvLog (line : LogLine).

Record St : Type := mkSt {
  world : World;
  trace : list Event
}.

(** State and panic monad. *)
Definition M (A : Type) : Type := St -> Res A * St.

Definition ret {A : Type} (a : A) : M A := fun st => (Ok a, st).

Definition bind {A B : Type} (m : M A) (k : A -> M B) : M B :=
  fun st =>
    match m st with
    | (Ok a, st') => k a st'
    | (Panic v, st') => (Panic v, st')
    end.

Definition panic {A : Type} (v : panic_value) : M A := fun st => (Panic v, st).

Definition emit (e : Event) : M unit :=
  fun st => (Ok tt, mkSt (world st) (trace st ++ [e])).

(** A collaborator call: logged in the trace, then run on the world. *)
Definition call {A : Type} (e : Event) (op : World -> A * World) : M A :=
  fun st =>
    let (a, w) := op (world st) in
    (Ok a, mkSt w (trace st ++ [e])).

Notation "x <- c1 ;; c2" := (bind c1 (fun x => c2))
  (at level 100, c1 at next level, right associativity).
Notation "' pat <- c1 ;; c2" := (bind c1 (fun x => match x with pat => c2 end))
  (at level 100, pat pattern, c1 at next level, right associativity).
Notation "c1 ;;; c2" := (bind c1 (fun _ => c2))
  (at level 100, right associativity).

(** ** The store *)

Record fileEntry : Type := mkFileEntry {
  fe_length : Z;
  fe_file : File
}.

Record fileStore : Type := mkFileStore {
  fileSystem : FileSystem;
  offsets : list Z;
  files : list fileEntry;
  cache : option Cache
}.

Definition SetCache (f : fileStore) (c : option Cache) : fileStore :=
  mkFileStore (fileSystem f) (offsets f) (files f) c.

(** *** Construction *)

(** [for i2 := 0; i2 < i; i2++ { fs.files[i2].file.Close() }], and the loop
    of [Close]: every result of [Close] is dropped. *)
Fixpoint close_files (fes : list fileEntry) : M unit :=
  match fes with
  | [] => ret tt
  | fe :: rest =>
      _ <- call (EvFileClose (fe_file fe)) (file_Close (fe_file fe)) ;;
      close_files rest
  end.

(** The body of [for i, _ := range info.Files].  [fs.files] and [fs.offsets]
    are allocated with [numFiles] zero entries and filled from index 0
    upwards; [files_acc] and [offsets_acc] are the filled prefixes, of length
    [i].  On a failed open the named results are returned as they stand:
    no store, the running [totalSize], the error. *)
Fixpoint NewFileStore_loop (fsys : FileSystem) (srcs : list FileDict)
    (offsets_acc : list Z) (files_acc : list fileEntry) (totalSize : Z)
    : M (option fileStore * Z * option error) :=
  match srcs with
  | [] => ret (Some (mkFileStore fsys offsets_acc files_acc None), totalSize, None)
  | src :: rest =>
      '(file, err) <- call (EvOpen fsys (fd_Path src) (fd_Length src))
                           (fs_Open fsys (fd_Path src) (fd_Length src)) ;;
      match err with
      | Some e =>
          _ <- close_files files_acc ;;
          ret (None, totalSize, Some e)
      | None =>
          NewFileStore_loop fsys rest
            (offsets_acc ++ [totalSize])
            (files_acc ++ [mkFileEntry (fd_Length src) file])
            (add64 totalSize (fd_Length src))
      end
  end.

Definition NewFileStore (info : InfoDict) (fsys : FileSystem)
    : M (option fileStore * Z * option error) :=
  let info :=
    match Files info with
    | [] => mkInfoDict [mkFileDict (Length info) [Name info] (Md5sum info)]
                       0 String.EmptyString String.EmptyString
    | _ :: _ => info
    end in
  NewFileStore_loop fsys (Files info) [] [] 0.

(** *** Raw access *)

(** The contents of a slice after a handle has stored [out] at its start. *)
Definition overwrite (dst out : list byte) : list byte :=
  firstn (length dst) out ++ skipn (length out) dst.

(** The loop of [RawReadAt].  [rest] is [f.offsets[index:]], so that
    [index < len(f.offsets)] holds exactly when [rest] is not empty.  [done]
    holds the bytes of the caller's buffer that lie before the current [p]
    (the loop re-slices [p = p[nThisTime:]]); the buffer as the caller sees
    it is [done ++ p].  The result is the buffer, [n] and [err]. *)
Fixpoint RawReadAt_loop (fes : list fileEntry) (rest : list Z) (index : nat)
    (done p : list byte) (off n : Z) : M (list byte * Z * option error) :=
  match p, rest with
  | [], _ | _, [] =>
      (* for i, _ := range p { p[i] = 0 } *)
      ret (done ++ repeat x00 (length p), n, None)
  | _ :: _, start :: rest' =>
      let chunk := len p in
      match nth_error fes index with
      | None => panic index_out_of_range
      | Some entry =>
          let itemOffset := sub64 off start in
          if itemOffset <? fe_length entry then
            let space := sub64 (fe_length entry) itemOffset in
            let chunk := if space <? chunk then space else chunk in
            if chunk <? 0 then panic slice_bounds_out_of_range
            else
              let c := Z.to_nat chunk in
              '(out, nThisTime, err) <-
                 call (EvFileReadAt (fe_file entry) c itemOffset)
                      (file_ReadAt (fe_file entry) (firstn c p) itemOffset) ;;
              let p := overwrite (firstn c p) out ++ skipn c p in
              let n := add64 n nThisTime in
              match err with
              | Some e => ret (done ++ p, n, Some e)
              | None =>
                  if (nThisTime <? 0) || (len p <? nThisTime)
                  then panic slice_bounds_out_of_range
                  else
                    let k := Z.to_nat nThisTime in
                    RawReadAt_loop fes rest' (S index)
                      (done ++ firstn k p) (skipn k p) (add64 off nThisTime) n
              end
          else RawReadAt_loop fes rest' (S index) done p off n
      end
  end.

Definition RawReadAt (f : fileStore) (p : list byte) (off : Z)
    : M (list byte * Z * option error) :=
  let index := find (offsets f) off in
  RawReadAt_loop (files f) (skipn index (offsets f)) index [] p off 0.

(** Index of the first non-zero byte of [p], if there is one. *)
Fixpoint first_nonzero (p : list byte) : option nat :=
  match p with
  | [] => None
  | b :: p' =>
      if Byte.eqb b x00 then option_map S (first_nonzero p') else Some 0%nat
  end.

(** The loop of [RawWriteAt] and the check of the bytes left over. *)
Fixpoint RawWriteAt_loop (fes : list fileEntry) (rest : list Z) (index : nat)
    (p : list byte) (off n : Z) : M (Z * option error) :=
  match p, rest with
  | [], _ | _, [] =>
      match first_nonzero p with
      | Some i => ret (add64 n (Z.of_nat i), Some ErrNonZeroTrailing)
      | None => ret (add64 n (len p), None)
      end
  | _ :: _, start :: rest' =>
      let chunk := len p in
      match nth_error fes index with
      | None => panic index_out_of_range
      | Some entry =>
          let itemOffset := sub64 off start in
          if itemOffset <? fe_length entry then
            let space := sub64 (fe_length entry) itemOffset in
            let chunk := if space <? chunk then space else chunk in
            if chunk <? 0 then panic slice_bounds_out_of_range
            else
              let c := Z.to_nat chunk in
              '(nThisTime, err) <-
                 call (EvFileWriteAt (fe_file entry) (firstn c p) itemOffset)
                      (file_WriteAt (fe_file entry) (firstn c p) itemOffset) ;;
              let n := add64 n nThisTime in
              match err with
              | Some e => ret (n, Some e)
              | None =>
                  if (nThisTime <? 0) || (len p <? nThisTime)
                  then panic slice_bounds_out_of_range
                  else
                    RawWriteAt_loop fes rest' (S index)
                      (skipn (Z.to_nat nThisTime) p) (add64 off nThisTime) n
              end
          else RawWriteAt_loop fes rest' (S index) p off n
      end
  end.

Definition RawWriteAt (f : fileStore) (p : list byte) (off : Z)
    : M (Z * option error) :=
  let index := find (offsets f) off in
  RawWriteAt_loop (files f) (skipn index (offsets f)) index p off 0.

(** *** Cache-aware access, commit, teardown *)

(** What [ReadAt] leaves behind: the caller's buffer as the direct callee
    left it, the final contents of each unfulfilled range (the slices the
    cache handed out, in order; empty without a cache), [n] and [err]. *)
Record ReadResult : Type := mkReadResult {
  rr_buffer : list byte;
  rr_ranges : list (list byte);
  rr_n : Z;
  rr_err : option error
}.

(** [for _, unf := range unfullfilled], with [retErr] as the accumulator. *)
Fixpoint ReadAt_loop (f : fileStore) (unfullfilled : list chunk)
    (retErr : option error) : M (list (list byte) * option error) :=
  match unfullfilled with
  | [] => ret ([], retErr)
  | unf :: rest =>
      '(buf, _, err) <- RawReadAt f (data unf) (i unf) ;;
      retErr' <- match err with
                 | Some e =>
                     _ <- emit (EvLog (log_read_error (i unf) (len (data unf)) e)) ;;
                     ret (Some e)
                 | None => ret retErr
                 end ;;
      '(bufs, r) <- ReadAt_loop f rest retErr' ;;
      ret (buf :: bufs, r)
  end.

Definition ReadAt (f : fileStore) (p : list byte) (off : Z) : M ReadResult :=
  match cache f with
  | None =>
      '(buf, n, err) <- RawReadAt f p off ;;
      ret (mkReadResult buf [] n err)
  | Some c =>
      '(p', unfullfilled) <- call (EvCacheReadAt c (length p) off)
                                  (cache_ReadAt c p off) ;;
      '(bufs, retErr) <- ReadAt_loop f unfullfilled None ;;
      ret (mkReadResult p' bufs (len p) retErr)
  end.

(** [for _, nc := range needRawWrite { f.RawWriteAt(nc.data, nc.i) }] *)
Fixpoint WriteAt_loop (f : fileStore) (needRawWrite : list chunk) : M unit :=
  match needRawWrite with
  | [] => ret tt
  | nc :: rest =>
      _ <- RawWriteAt f (data nc) (i nc) ;;
      WriteAt_loop f rest
  end.

Definition WriteAt (f : fileStore) (p : list byte) (off : Z)
    : M (Z * option error) :=
  match cache f with
  | Some c =>
      needRawWrite <- call (EvCacheWriteAt c p off) (cache_WriteAt c p off) ;;
      _ <- WriteAt_loop f needRawWrite ;;
      ret (len p, None)
  | None => RawWriteAt f p off
  end.

Definition Commit (f : fileStore) (pieceNum : Z) (piece : list byte) (off : Z)
    : M unit :=
  match cache f with
  | Some c =>
      '(_, err) <- RawWriteAt f piece off ;;
      _ <- match err with
           | Some e =>
               _ <- emit (EvLog (log_commit_error e)) ;;
               panic (log_Panicln "Error committing to storage:" e)
           | None => ret tt
           end ;;
      call (EvCacheMarkCommitted c pieceNum)
           (fun w => (tt, cache_MarkCommitted c pieceNum w))
  | None => ret tt
  end.

(** [Close] returns the store as it is afterwards (its [cache] field is
    cleared) and the named result [err], which is never assigned. *)
Definition Close (f : fileStore) : M (fileStore * option error) :=
  _ <- close_files (files f) ;;
  match cache f with
  | Some c =>
      _ <- call (EvCacheClose c) (cache_Close c) ;;
      ret (SetCache f None, None)
  | None => ret (f, None)
  end.

(** ** Vocabulary of the specification *)

(** Start offsets as the specification describes them: each is the sum of
    the lengths before it. *)
Fixpoint running_offsets (start : Z) (lengths : list Z) : list Z :=
  match lengths with
  | [] => []
  | l :: ls => start :: running_offsets (start + l) ls
  end.

Definition sumZ (l : list Z) : Z := fold_right Z.add 0 l.

Definition lengths_of (f : fileStore) : list Z := map fe_length (files f).

(** The total size: the sum of all entry lengths. *)
Definition totalSize_of (f : fileStore) : Z := sumZ (lengths_of f).

(** The invariant of a constructed store: at least one entry, lengths that
    are not negative and whose sum is an [int64], offsets that are the
    running sums. *)
Definition store_ok (f : fileStore) : Prop :=
  files f <> [] /\
  Forall (fun l => 0 <= l) (lengths_of f) /\
  totalSize_of f <= max_int64 /\
  offsets f = running_offsets 0 (lengths_of f).

(** Sorted (not strictly: an empty file shares its start with the next). *)
Definition sorted (l : list Z) : Prop :=
  forall a b : nat, (a <= b < length l)%nat -> nth a l 0 <= nth b l 0.

(** Entries that cover [[0, total)] with no gap and no overlap: the first
    starts at 0 and each ends where the next starts, the last at [total]. *)
Definition tiles (offs lens : list Z) (total : Z) : Prop :=
  length offs = length lens /\
  nth 0 (offs ++ [total]) 0 = 0 /\
  forall k : nat, (k < length lens)%nat ->
    nth k offs 0 + nth k lens 0 = nth (S k) (offs ++ [total]) 0.

(** What [io.ReaderAt] and [io.WriterAt] promise about the count:
    [0 <= n <= len(p)]. *)
Definition ReaderAt_count_ok : Prop :=
  forall (h : File) (buf : list byte) (off : Z) (w : World),
    0 <= snd (fst (fst (file_ReadAt h buf off w))) <= len buf.

Definition WriterAt_count_ok : Prop :=
  forall (h : File) (buf : list byte) (off : Z) (w : World),
    0 <= fst (fst (file_WriteAt h buf off w)) <= len buf.

(** A flat offset handed to the store by a caller or by the cache. *)
Definition flat_offset (off : Z) : Prop := 0 <= off <= max_int64.

Definition is_EvFileReadAt (e : Event) : bool :=
  match e with EvFileReadAt _ _ _ => true | _ => false end.

Definition is_EvFileWriteAt (e : Event) : bool :=
  match e with EvFileWriteAt _ _ _ => true | _ => false end.

Definition is_EvCacheWriteAt (e : Event) : bool :=
  match e with EvCacheWriteAt _ _ _ => true | _ => false end.

Definition is_EvCacheMarkCommitted (e : Event) : bool :=
  match e with EvCacheMarkCommitted _ _ => true | _ => false end.

Definition is_call (e : Event) : bool :=
  match e with EvLog _ => false | _ => true end.

(** The collaborator calls of a trace, log lines left out. *)
Definition calls (t : list Event) : list Event := filter is_call t.

(** "A raw read is performed for every unfulfilled range": the raw reads of
    all ranges, one after the other, whatever each of them returns. *)
Fixpoint raw_read_each (f : fileStore) (ranges : list chunk)
    : M (list (list byte * Z * option error)) :=
  match ranges with
  | [] => ret []
  | r :: rest =>
      x <- RawReadAt f (data r) (i r) ;;
      xs <- raw_read_each f rest ;;
      ret (x :: xs)
  end.

(** "The last error observed", or none. *)
Definition last_error (errs : list (option error)) : option error :=
  last (filter (fun e => match e with Some _ => true | None => false end) errs) None.

(** The opens of a construction that succeed one after the other, with the
    handles they return and the world they leave. *)
Fixpoint opens_succeed (fsys : FileSystem) (srcs : list FileDict) (w : World)
    : option (list File * World) :=
  match srcs with
  | [] => Some ([], w)
  | src :: rest =>
      match fs_Open fsys (fd_Path src) (fd_Length src) w with
      | ((h, None), w') =>
          match opens_succeed fsys rest w' with
          | Some (hs, w'') => Some (h :: hs, w'')
          | None => None
          end
      | ((_, Some _), _) => None
      end
  end.

(** The files a construction opens: the declared ones, or the single
    synthetic one when none is declared. *)
Definition declared_files (info : InfoDict) : list FileDict :=
  match Files info with
  | [] => [mkFileDict (Length info) [Name info] (Md5sum info)]
  | _ :: _ => Files info
  end.

Definition open_event (fsys : FileSystem) (src : FileDict) : Event :=
  EvOpen fsys (fd_Path src) (fd_Length src).

(** The entries of a store whose files have the lengths [ls] and the
    handles [hs]. *)
Fixpoint entries_of (ls : list Z) (hs : list File) : list fileEntry :=
  match ls, hs with
  | l :: ls', h :: hs' => mkFileEntry l h :: entries_of ls' hs'
  | _, _ => []
  end.

(** The world after closing the handles [hs] in order. *)
Fixpoint closes (hs : list File) (w : World) : World :=
  match hs with
  | [] => w
  | h :: rest => closes rest (snd (file_Close h w))
  end.

(** *** Vocabulary for further properties *)

(** What [io.ReaderAt] and [io.WriterAt] promise about short counts: a
    count below [len(p)] comes with an error. *)
Definition ReaderAt_short_is_error : Prop :=
  forall (h : File) (buf : list byte) (off : Z) (w : World),
    snd (fst (file_ReadAt h buf off w)) = None ->
    snd (fst (fst (file_ReadAt h buf off w))) = len buf.

Definition WriterAt_short_is_error : Prop :=
  forall (h : File) (buf : list byte) (off : Z) (w : World),
    snd (fst (file_WriteAt h buf off w)) = None ->
    fst (fst (file_WriteAt h buf off w)) = len buf.

(** A call on the handle [h] for [count] bytes at local offset [off] that
    stays inside the declared length of an entry holding that handle. *)
Definition call_in_bounds (fes : list fileEntry) (h : File) (count off : Z)
    : Prop :=
  exists en : fileEntry,
    In en fes /\ fe_file en = h /\
    0 <= off /\ 0 < count /\ off + count <= fe_length en.

Definition read_in_bounds (fes : list fileEntry) (e : Event) : Prop :=
  match e with
  | EvFileReadAt h count off => call_in_bounds fes h (Z.of_nat count) off
  | _ => False
  end.

Definition write_in_bounds (fes : list fileEntry) (e : Event) : Prop :=
  match e with
  | EvFileWriteAt h p off => call_in_bounds fes h (len p) off
  | _ => False
  end.

Definition is_EvLog (e : Event) : bool :=
  match e with EvLog _ => true | _ => false end.

Definition is_read_or_log (e : Event) : bool :=
  is_EvFileReadAt e || is_EvLog e.

(** The lines [ReadAt] logs for the ranges [unf] whose raw reads returned
    [results]: one per range that returned an error. *)
Fixpoint read_error_logs (unf : list chunk)
    (results : list (list byte * Z * option error)) : list Event :=
  match unf, results with
  | u :: unf', (_, _, Some e) :: results' =>
      EvLog (log_read_error (i u) (len (data u)) e)
        :: read_error_logs unf' results'
  | _ :: unf', (_, _, None) :: results' => read_error_logs unf' results'
  | _, _ => []
  end.

End FileStore.

(** ** An in-memory file system and a pass-through cache

    Concrete collaborators on which the store can be run.  A file is a
    fixed-size byte array on a disk; a read or write that runs past its end
    is short and reports an error, as a truncated file does.  Opening an
    empty path fails.  The cache keeps nothing: it hands every request back
    in ranges of at most two bytes and records committed pieces. *)

Module MemFS.

Record MemWorld : Type := mkMemWorld {
  disk : list (list byte);
  committed : list Z
}.

Definition ErrBadHandle : error := collaborator_error "bad file handle".
Definition ErrNegativeOffset : error := collaborator_error "negative offset".
Definition ErrEOF : error := collaborator_error "EOF".
Definition ErrShortWrite : error := collaborator_error "short write".
Definition ErrNotExist : error := collaborator_error "file does not exist".

Definition mem_ReadAt (h : nat) (buf : list byte) (off : Z) (w : MemWorld)
    : (list byte * Z * option error) * MemWorld :=
  match nth_error (disk w) h with
  | None => (([], 0, Some ErrBadHandle), w)
  | Some content =>
      if off <? 0 then (([], 0, Some ErrNegativeOffset), w)
      else
        let got := firstn (length buf) (skipn (Z.to_nat off) content) in
        ((got, len got,
          if Nat.ltb (length got) (length buf) then Some ErrEOF else None), w)
  end.

Fixpoint set_nth {A : Type} (k : nat) (x : A) (l : list A) : list A :=
  match l, k with
  | [], _ => []
  | _ :: l', O => x :: l'
  | y :: l', S k' => y :: set_nth k' x l'
  end.

Definition mem_WriteAt (h : nat) (buf : list byte) (off : Z) (w : MemWorld)
    : (Z * option error) * MemWorld :=
  match nth_error (disk w) h with
  | None => ((0, Some ErrBadHandle), w)
  | Some content =>
      if off <? 0 then ((0, Some ErrNegativeOffset), w)
      else
        let o := Z.to_nat off in
        let k := Nat.min (length buf) (length content - o) in
        let content' := firstn o content ++ firstn k buf ++ skipn (o + k) content in
        ((Z.of_nat k,
          if Nat.ltb k (length buf) then Some ErrShortWrite else None),
         mkMemWorld (set_nth h content' (disk w)) (committed w))
  end.

Definition mem_Close (h : nat) (w : MemWorld) : option error * MemWorld :=
  (None, w).

Definition mem_Open (fsys : unit) (path : list string) (size : Z) (w : MemWorld)
    : (nat * option error) * MemWorld :=
  match path with
  | [] => ((0%nat, Some ErrNotExist), w)
  | _ :: _ =>
      ((length (disk w), None),
       mkMemWorld (disk w ++ [repeat x00 (Z.to_nat size)]) (committed w))
  end.

(** Cut a request into ranges of at most two bytes. *)
Fixpoint ranges_of (off : Z) (p : list byte) : list chunk :=
  match p with
  | [] => []
  | [b] => [mkChunk off [b]]
  | b1 :: b2 :: p' => mkChunk off [b1; b2] :: ranges_of (off + 2) p'
  end.

Definition mem_cache_ReadAt (c : unit) (p : list byte) (off : Z) (w : MemWorld)
    : (list byte * list chunk) * MemWorld :=
  ((p, ranges_of off p), w).

Definition mem_cache_WriteAt (c : unit) (p : list byte) (off : Z) (w : MemWorld)
    : list chunk * MemWorld :=
  (ranges_of off p, w).

Definition mem_cache_MarkCommitted (c : unit) (pieceNum : Z) (w : MemWorld)
    : MemWorld :=
  mkMemWorld (disk w) (committed w ++ [pieceNum]).

Definition mem_cache_Close (c : unit) (w : MemWorld) : option error * MemWorld :=
  (None, w).

#[export] Instance mem_FileOps : FileOps MemWorld nat :=
  {| file_ReadAt := mem_ReadAt;
     file_WriteAt := mem_WriteAt;
     file_Close := mem_Close |}.

#[export] Instance mem_FileSystemOps : FileSystemOps MemWorld unit nat :=
  {| fs_Open := mem_Open |}.

#[export] Instance mem_CacheOps : CacheOps MemWorld unit :=
  {| cache_ReadAt := mem_cache_ReadAt;
     cache_WriteAt := mem_cache_WriteAt;
     cache_MarkCommitted := mem_cache_MarkCommitted;
     cache_Close := mem_cache_Close |}.

Definition MemStore : Type := @fileStore nat unit unit.
Definition MemSt : Type := @St MemWorld nat unit unit.

(** Two files, [A] of length 4 and [B] of length 6, laid out as a store. *)
Definition fileA : list byte := [xa0; xa1; xa2; xa3].
Definition fileB : list byte := [xb0; xb1; xb2; xb3; xb4; xb5].

Definition world46 : MemWorld := mkMemWorld [fileA; fileB] [].

Definition store46 : MemStore :=
  mkFileStore tt [0; 4] [mkFileEntry 4 0%nat; mkFileEntry 6 1%nat] None.

Definition st46 : MemSt := mkSt world46 [].

(** The same declared layout over a disk where [B] holds only one byte. *)
Definition world_short : MemWorld := mkMemWorld [fileA; [xb0]] [].
Definition st_short : MemSt := mkSt world_short [].

(** The store with the pass-through cache attached. *)
Definition store46c : MemStore := SetCache store46 (Some tt).

(** An empty disk, and three metainfo dictionaries: the two files above, a
    single-file torrent, and a list whose third file cannot be opened. *)
Definition empty_st : MemSt := mkSt (mkMemWorld [] []) [].

Definition info46 : InfoDict :=
  mkInfoDict [mkFileDict 4 ["a"] ""; mkFileDict 6 ["b"] ""] 0 "two" "".

Definition info_single : InfoDict := mkInfoDict [] 5 "single" "".

Definition info_bad : InfoDict :=
  mkInfoDict [mkFileDict 4 ["a"] ""; mkFileDict 6 ["b"] "";
              mkFileDict 3 [] ""; mkFileDict 1 ["c"] ""] 0 "bad" "".

End MemFS.

(** ** Handles that do not keep the count contract

    A file whose [ReadAt] claims one byte more than it was asked for and
    whose [WriteAt] claims a negative count, both without an error. *)

Module LyingFS.

Definition lying_ReadAt (h : unit) (buf : list byte) (off : Z) (w : unit)
    : (list byte * Z * option error) * unit :=
  (([], len buf + 1, None), tt).

Definition lying_WriteAt (h : unit) (buf : list byte) (off : Z) (w : unit)
    : (Z * option error) * unit :=
  ((-1, None), tt).

#[export] Instance lying_FileOps : FileOps unit unit :=
  {| file_ReadAt := lying_ReadAt;
     file_WriteAt := lying_WriteAt;
     file_Close := fun _ w => (None, w) |}.

#[export] Instance lying_FileSystemOps : FileSystemOps unit unit unit :=
  {| fs_Open := fun _ _ _ w => ((tt, None), w) |}.

#[export] Instance lying_CacheOps : CacheOps unit unit :=
  {| cache_ReadAt := fun _ p _ w => ((p, []), w);
     cache_WriteAt := fun _ _ _ w => ([], w);
     cache_MarkCommitted := fun _ _ w => w;
     cache_Close := fun _ w => (None, w) |}.

Definition LyingStore : Type := @fileStore unit unit unit.
Definition LyingSt : Type := @St unit unit unit unit.

(** One file of length 4. *)
Definition store4 : LyingStore := mkFileStore tt [0] [mkFileEntry 4 tt] None.
Definition st4 : LyingSt := mkSt tt [].

(** Two declared files whose lengths, the largest [int64] and 1, add up to
    more than an [int64] holds; every open of this file system succeeds. *)
Definition info_overflow : InfoDict :=
  mkInfoDict [mkFileDict 9223372036854775807 ["a"] "";
              mkFileDict 1 ["b"] ""] 0 "overflow" "".

Definition store_overflow : LyingStore :=
  mkFileStore tt [0; 9223372036854775807]
    [mkFileEntry 9223372036854775807 tt; mkFileEntry 1 tt] None.

End LyingFS.

(** * Properties *)

(** ** Arithmetic and lists *)

Lemma wrap64_id (z : Z) : in_int64 z -> wrap64 z = z.
Proof.
  unfold in_int64, min_int64, max_int64, wrap64. intros H.
  rewrite Z.mod_small; lia.
Qed.

Lemma max_int64_value : max_int64 = 9223372036854775807.
Proof. reflexivity. Qed.

Lemma min_int64_value : min_int64 = -9223372036854775808.
Proof. reflexivity. Qed.

Lemma add64_id (a b : Z) : in_int64 (a + b) -> add64 a b = a + b.
Proof. apply wrap64_id. Qed.

Lemma sub64_id (a b : Z) : in_int64 (a - b) -> sub64 a b = a - b.
Proof. apply wrap64_id. Qed.

Lemma sumZ_cons (x : Z) (l : list Z) : sumZ (x :: l) = x + sumZ l.
Proof. reflexivity. Qed.

Lemma sumZ_app (l1 l2 : list Z) : sumZ (l1 ++ l2) = sumZ l1 + sumZ l2.
Proof. induction l1 as [|x l1 IH]; simpl; lia. Qed.

Lemma sumZ_nonneg (l : list Z) : Forall (fun x => 0 <= x) l -> 0 <= sumZ l.
Proof. induction 1; simpl; lia. Qed.

Lemma Forall_firstn {A : Type} (P : A -> Prop) (k : nat) (l : list A) :
  Forall P l -> Forall P (firstn k l).
Proof.
  intros H. rewrite <- (firstn_skipn k l) in H.
  apply Forall_app in H. tauto.
Qed.

Lemma Forall_skipn {A : Type} (P : A -> Prop) (k : nat) (l : list A) :
  Forall P l -> Forall P (skipn k l).
Proof.
  intros H. rewrite <- (firstn_skipn k l) in H.
  apply Forall_app in H. tauto.
Qed.

Lemma sumZ_firstn_le (l : list Z) (k : nat) :
  Forall (fun x => 0 <= x) l -> 0 <= sumZ (firstn k l) <= sumZ l.
Proof.
  intros H. rewrite <- (firstn_skipn k l) at 3. rewrite sumZ_app.
  pose proof (sumZ_nonneg (firstn k l) (Forall_firstn _ k l H)).
  pose proof (sumZ_nonneg (skipn k l) (Forall_skipn _ k l H)).
  lia.
Qed.

Lemma running_offsets_length (s : Z) (ls : list Z) :
  length (running_offsets s ls) = length ls.
Proof. revert s; induction ls as [|l ls IH]; intros s; simpl; congruence. Qed.

Lemma running_offsets_nth (ls : list Z) (s : Z) (k : nat) :
  (k < length ls)%nat ->
  nth k (running_offsets s ls) 0 = s + sumZ (firstn k ls).
Proof.
  revert s k; induction ls as [|l ls IH]; intros s k Hk; simpl in Hk; [lia|].
  destruct k as [|k]; simpl; [lia|].
  rewrite IH by lia. lia.
Qed.

Lemma running_offsets_app (l1 l2 : list Z) (s : Z) :
  running_offsets s (l1 ++ l2) =
  running_offsets s l1 ++ running_offsets (s + sumZ l1) l2.
Proof.
  revert s; induction l1 as [|x l1 IH]; intros s; simpl.
  - f_equal. lia.
  - rewrite IH. do 3 f_equal. lia.
Qed.

Lemma firstn_succ_sum (ls : list Z) (k : nat) :
  (k < length ls)%nat ->
  sumZ (firstn (S k) ls) = sumZ (firstn k ls) + nth k ls 0.
Proof.
  revert k; induction ls as [|l ls IH]; intros k Hk; simpl in Hk; [lia|].
  destruct k as [|k]; [simpl; lia|].
  change (firstn (S (S k)) (l :: ls)) with (l :: firstn (S k) ls).
  change (firstn (S k) (l :: ls)) with (l :: firstn k ls).
  change (nth (S k) (l :: ls) 0) with (nth k ls 0).
  rewrite !sumZ_cons, IH by lia. lia.
Qed.

Lemma sumZ_firstn_mono (ls : list Z) (a b : nat) :
  Forall (fun x => 0 <= x) ls -> (a <= b)%nat ->
  sumZ (firstn a ls) <= sumZ (firstn b ls).
Proof.
  intros Hnn Hab.
  replace a with (Nat.min a b) by lia.
  rewrite <- firstn_firstn.
  apply sumZ_firstn_le. apply Forall_firstn. exact Hnn.
Qed.

Lemma running_offsets_sorted (ls : list Z) :
  Forall (fun x => 0 <= x) ls -> sorted (running_offsets 0 ls).
Proof.
  intros Hnn a b. rewrite running_offsets_length. intros Hab.
  rewrite !running_offsets_nth by lia.
  pose proof (sumZ_firstn_mono ls a b Hnn ltac:(lia)). lia.
Qed.

(** ** [find] *)

Lemma half_between (low high : nat) :
  (low < high - 1)%nat -> (low < (low + high) / 2 < high)%nat.
Proof.
  intros H.
  pose proof (Nat.div_mod_eq (low + high) 2) as Hd.
  pose proof (Nat.mod_upper_bound (low + high) 2 ltac:(lia)) as Hm.
  lia.
Qed.

(** The invariant of the binary search: the entry at [low] starts at or
    before [offset], and every entry from [high] on starts after it. *)
Lemma find_loop_spec (offs : list Z) (offset : Z) (low high : nat) :
  sorted offs ->
  (low < high <= length offs)%nat ->
  nth low offs 0 <= offset ->
  ((high < length offs)%nat -> offset < nth high offs 0) ->
  let r := find_loop offs offset low high in
  (low <= r < high)%nat /\
  nth r offs 0 <= offset /\
  (forall j : nat, (r < j < length offs)%nat -> offset < nth j offs 0).
Proof.
  funelim (find_loop offs offset low high).
  all: intros Hs Hb Hlo Hhi.
  - pose proof (proj1 (Nat.ltb_ge _ _) e) as He. split; [lia|].
    split; [exact Hlo|].
    intros j Hj. assert (high = S low) by lia. subst high.
    destruct (Nat.eq_dec j (S low)) as [->|Hne]; [apply Hhi; lia|].
    pose proof (Hhi ltac:(lia)) as H1.
    pose proof (Hs (S low) j ltac:(lia)) as H2.
    lia.
  - pose proof (proj1 (Nat.ltb_lt _ _) e) as He. apply Z.ltb_lt in Heq.
    pose proof (half_between low high He) as Hp.
    match goal with
    | IH : sorted _ -> _ |- _ =>
        destruct (IH Hs ltac:(lia) Hlo (fun _ => Heq)) as (A & B & C)
    end.
    split; [lia|]. split; assumption.
  - pose proof (proj1 (Nat.ltb_lt _ _) e) as He. apply Z.ltb_ge in Heq.
    pose proof (half_between low high He) as Hp.
    match goal with
    | IH : sorted _ -> _ |- _ =>
        destruct (IH Hs ltac:(lia) Heq Hhi) as (A & B & C)
    end.
    split; [lia|]. split; assumption.
Qed.

Lemma find_spec (offs : list Z) (off : Z) :
  offs <> [] -> sorted offs -> nth 0 offs 0 <= off ->
  (find offs off < length offs)%nat /\
  nth (find offs off) offs 0 <= off /\
  (forall j : nat, (find offs off < j < length offs)%nat ->
                   off < nth j offs 0).
Proof.
  intros Hne Hs H0. unfold find.
  assert (0 < length offs)%nat
    by (destruct offs; [congruence | simpl; lia]).
  destruct (find_loop_spec offs off 0 (length offs) Hs ltac:(lia) H0
              ltac:(lia)) as (A & B & C).
  split; [lia|]. split; assumption.
Qed.

(** A result that satisfies the contract of [find] is the only one. *)
Lemma last_at_or_before_unique (offs : list Z) (off : Z) (a b : nat) :
  (a < length offs)%nat -> (b < length offs)%nat ->
  nth a offs 0 <= off -> nth b offs 0 <= off ->
  (forall j : nat, (a < j < length offs)%nat -> off < nth j offs 0) ->
  (forall j : nat, (b < j < length offs)%nat -> off < nth j offs 0) ->
  a = b.
Proof.
  intros Ha Hb Hla Hlb Hua Hub.
  destruct (Nat.lt_trichotomy a b) as [Hlt | [Heq | Hgt]]; [|exact Heq|].
  - specialize (Hua b ltac:(lia)). lia.
  - specialize (Hub a ltac:(lia)). lia.
Qed.

Lemma find_past_end (lengths : list Z) (off : Z) :
  lengths <> [] ->
  Forall (fun l => 0 <= l) lengths ->
  sumZ lengths <= off ->
  find (running_offsets 0 lengths) off = (length lengths - 1)%nat.
Proof.
  intros Hne Hnn Hoff.
  set (offs := running_offsets 0 lengths).
  assert (Hlen : length offs = length lengths) by apply running_offsets_length.
  assert (0 < length lengths)%nat
    by (destruct lengths; [congruence | simpl; lia]).
  assert (Hall : forall k, (k < length lengths)%nat -> nth k offs 0 <= off).
  { intros k Hk. unfold offs. rewrite running_offsets_nth by lia.
    pose proof (sumZ_firstn_le lengths k Hnn). lia. }
  destruct (find_spec offs off) as (A & B & C).
  - intro E. rewrite E in Hlen. simpl in Hlen. lia.
  - apply running_offsets_sorted; exact Hnn.
  - apply Hall. lia.
  - apply (last_at_or_before_unique offs off); try lia; try assumption.
    apply Hall. lia.
Qed.

(** C3: on a non-empty sorted offset table that starts at 0, and for a flat
    offset that is not negative, [find] returns the index of the last entry
    whose start offset is at or before the offset.  In particular offset 0
    on a single-entry table gives index 0, and an offset at or past the
    total size gives the index of the last entry. *)
Theorem find_returns_last_entry_at_or_before (offs : list Z) (off : Z) :
  offs <> [] ->
  sorted offs ->
  nth 0 offs 0 = 0 ->
  0 <= off ->
  ((find offs off < length offs)%nat /\
   nth (find offs off) offs 0 <= off /\
   (forall j : nat, (find offs off < j < length offs)%nat ->
                    off < nth j offs 0)) /\
  (length offs = 1%nat -> off = 0 -> find offs off = 0%nat) /\
  (forall lengths : list Z,
     Forall (fun l => 0 <= l) lengths ->
     offs = running_offsets 0 lengths ->
     sumZ lengths <= off ->
     find offs off = (length offs - 1)%nat).
Proof.
  intros Hne Hs H0 Hoff.
  assert (Hspec := find_spec offs off Hne Hs ltac:(lia)).
  split; [exact Hspec|]. split.
  - intros Hlen _. lia.
  - intros lengths Hnn -> Htot.
    rewrite running_offsets_length.
    apply find_past_end; try assumption.
    intro E. subst lengths. apply Hne. reflexivity.
Qed.

Lemma sorted_0_4_9 : sorted [0; 4; 9].
Proof.
  intros a b Hab. simpl in Hab.
  destruct a as [|[|[|a]]]; destruct b as [|[|[|b]]]; simpl; lia.
Qed.

Lemma find_returns_last_entry_at_or_before_witness :
  find [0; 4; 9] 5 = 1%nat /\
  nth (find [0; 4; 9] 5) [0; 4; 9] 0 <= 5 /\
  find [0; 4; 9] 13 = 2%nat.
Proof.
  destruct (find_returns_last_entry_at_or_before [0; 4; 9] 5)
    as ((A & B & _) & _ & _);
    [discriminate | exact sorted_0_4_9 | reflexivity | lia |].
  split; [reflexivity|]. split; [exact B|]. reflexivity.
Defined.

(** ** The store over arbitrary collaborators *)

Section Properties.

Context {World File FileSystem Cache : Type}.
Context {FO : FileOps World File}.
Context {FSO : FileSystemOps World FileSystem File}.
Context {CO : CacheOps World Cache}.

Local Abbreviation store := (@fileStore File FileSystem Cache).
Local Abbreviation entry := (@fileEntry File).
Local Abbreviation state := (@St World File FileSystem Cache).
Local Abbreviation event := (@Event File FileSystem Cache).

(** *** Construction and teardown *)

Lemma close_files_run (fes : list entry) (st : state) :
  close_files fes st =
  (Ok tt, mkSt (closes (map fe_file fes) (world st))
               (trace st ++ map EvFileClose (map fe_file fes))).
Proof.
  revert st; induction fes as [|fe fes IH]; intros st; simpl.
  - unfold ret. rewrite app_nil_r. destruct st; reflexivity.
  - unfold bind, call.
    destruct (file_Close (fe_file fe) (world st)) as [r w] eqn:E.
    rewrite IH. simpl. rewrite <- app_assoc. reflexivity.
Qed.

Lemma NewFileStore_unfold (info : InfoDict) (fsys : FileSystem) (st : state) :
  NewFileStore info fsys st =
  NewFileStore_loop fsys (declared_files info) [] [] 0 st.
Proof.
  unfold NewFileStore, declared_files.
  destruct (Files info) eqn:E; simpl; rewrite ?E; reflexivity.
Qed.

Lemma entries_of_lengths (ls : list Z) (hs : list File) :
  length hs = length ls -> map fe_length (entries_of ls hs) = ls.
Proof.
  revert hs; induction ls as [|l ls IH]; intros [|h hs] H;
    simpl in *; try reflexivity; try discriminate.
  f_equal. apply IH. congruence.
Qed.

Lemma entries_of_files (ls : list Z) (hs : list File) :
  length hs = length ls -> map fe_file (entries_of ls hs) = hs.
Proof.
  revert hs; induction ls as [|l ls IH]; intros [|h hs] H;
    simpl in *; try reflexivity; try discriminate.
  f_equal. apply IH. congruence.
Qed.

Lemma opens_succeed_length (fsys : FileSystem) (srcs : list FileDict)
    (w w' : World) (hs : list File) :
  opens_succeed fsys srcs w = Some (hs, w') -> length hs = length srcs.
Proof.
  revert w hs; induction srcs as [|src srcs IH]; intros w hs H; simpl in H.
  - injection H as <- _. reflexivity.
  - destruct (fs_Open fsys (fd_Path src) (fd_Length src) w) as [[h [e|]] w1];
      [discriminate|].
    destruct (opens_succeed fsys srcs w1) as [[hs1 w2]|] eqn:E; [|discriminate].
    injection H as <- <-. simpl. f_equal. eapply IH. exact E.
Qed.

(** A run of the loop that returns a store: every open succeeded, and the
    store holds the declared lengths and the running sums. *)
Lemma NewFileStore_loop_returns_store (fsys : FileSystem) (srcs : list FileDict) :
  forall (offs_acc : list Z) (files_acc : list entry) (total : Z) (st st' : state)
         (f : store) (ts : Z) (err : option error),
    NewFileStore_loop fsys srcs offs_acc files_acc total st
      = (Ok (Some f, ts, err), st') ->
    Forall (fun l => 0 <= l) (map fd_Length srcs) ->
    0 <= total ->
    total + sumZ (map fd_Length srcs) <= max_int64 ->
    err = None /\
    ts = total + sumZ (map fd_Length srcs) /\
    (exists hs : list File,
       opens_succeed fsys srcs (world st) = Some (hs, world st') /\
       f = mkFileStore fsys
             (offs_acc ++ running_offsets total (map fd_Length srcs))
             (files_acc ++ entries_of (map fd_Length srcs) hs) None) /\
    trace st' = trace st ++ map (open_event fsys) srcs.
Proof.
  induction srcs as [|src srcs IH];
    intros offs_acc files_acc total st st' f ts err Hrun Hnn Ht Hmax.
  - simpl in Hrun. unfold ret in Hrun. injection Hrun as <- <- <- <-.
    simpl. split; [reflexivity|]. split; [lia|]. split.
    + exists []. split; [reflexivity|]. simpl. rewrite !app_nil_r. reflexivity.
    + rewrite app_nil_r. reflexivity.
  - simpl in Hrun. unfold bind at 1, call in Hrun.
    simpl map in Hnn, Hmax. rewrite sumZ_cons in Hmax.
    inversion Hnn as [|? ? Hl Hnn']; subst.
    pose proof (sumZ_nonneg _ Hnn') as Hs.
    simpl. unfold open_event at 1.
    destruct (fs_Open fsys (fd_Path src) (fd_Length src) (world st))
      as [[h [e|]] w1] eqn:Eopen.
    + exfalso. unfold bind in Hrun. rewrite close_files_run in Hrun.
      unfold ret in Hrun. discriminate.
    + rewrite add64_id in Hrun
        by (unfold in_int64; rewrite min_int64_value; lia).
      apply IH in Hrun; try assumption; try lia.
      destruct Hrun as (He & Hts & (hs & Hop & Hf) & Htr). simpl in *.
      split; [exact He|]. split; [lia|]. split.
      * exists (h :: hs). rewrite Hop. split; [reflexivity|].
        rewrite Hf. rewrite <- !app_assoc. reflexivity.
      * rewrite Htr, <- app_assoc. reflexivity.
Qed.

Lemma running_offsets_tiles (ls : list Z) :
  tiles (running_offsets 0 ls) ls (sumZ ls).
Proof.
  unfold tiles. split; [apply running_offsets_length|]. split.
  - destruct ls; reflexivity.
  - intros k Hk.
    rewrite running_offsets_nth by lia.
    destruct (Nat.eq_dec (S k) (length ls)) as [E|NE].
    + rewrite app_nth2 by (rewrite running_offsets_length; lia).
      rewrite running_offsets_length, E, Nat.sub_diag. simpl.
      rewrite <- (firstn_all ls) at 3. rewrite <- E.
      rewrite firstn_succ_sum by lia. lia.
    + rewrite app_nth1 by (rewrite running_offsets_length; lia).
      rewrite running_offsets_nth by lia.
      rewrite firstn_succ_sum by lia. lia.
Qed.

(** When every open succeeds the loop returns a store: construction fails
    only through a failed open. *)
Lemma NewFileStore_loop_succeeds (fsys : FileSystem) (srcs : list FileDict) :
  forall (offs_acc : list Z) (files_acc : list entry) (total : Z) (st : state)
         (hs : list File) (w' : World),
    opens_succeed fsys srcs (world st) = Some (hs, w') ->
    exists (f : store) (ts : Z),
      NewFileStore_loop fsys srcs offs_acc files_acc total st =
      (Ok (Some f, ts, None),
       mkSt w' (trace st ++ map (open_event fsys) srcs)).
Proof.
  induction srcs as [|src srcs IH];
    intros offs_acc files_acc total st hs w' Hop; simpl in Hop.
  - injection Hop as _ <-. do 2 eexists. simpl. unfold ret.
    rewrite app_nil_r. destruct st; reflexivity.
  - destruct (fs_Open fsys (fd_Path src) (fd_Length src) (world st))
      as [[h [e|]] w1] eqn:Eopen; [discriminate|].
    destruct (opens_succeed fsys srcs w1) as [[hs1 w2]|] eqn:Erest;
      [|discriminate].
    injection Hop as _ <-.
    simpl. unfold bind at 1, call. rewrite Eopen.
    edestruct (IH (offs_acc ++ [total])
                 (files_acc ++ [mkFileEntry (fd_Length src) h])
                 (add64 total (fd_Length src))
                 (mkSt w1 (trace st ++ [EvOpen fsys (fd_Path src) (fd_Length src)])))
      as (f & ts & Hrun); [exact Erest|].
    exists f, ts. rewrite Hrun. simpl. rewrite <- app_assoc. reflexivity.
Qed.

(** C6: after a successful construction, an empty declared list gives one
    synthetic entry with the overall length, opened under the overall name;
    in every case the entries have the declared lengths in declaration
    order, each start offset is the running sum of the lengths before it,
    the offset table is sorted and covers [[0, totalSize)] without gap or
    overlap, and the returned total is the sum of the entry lengths.
    Declared lengths are not negative and their sum is an [int64]. *)
Theorem NewFileStore_offsets_are_running_sums
    (info : InfoDict) (fsys : FileSystem) (st st' : state)
    (f : store) (total : Z) (err : option error) :
  NewFileStore info fsys st = (Ok (Some f, total, err), st') ->
  Forall (fun l => 0 <= l) (map fd_Length (declared_files info)) ->
  sumZ (map fd_Length (declared_files info)) <= max_int64 ->
  (Files info = [] ->
     exists h : File,
       files f = [mkFileEntry (Length info) h] /\
       offsets f = [0] /\
       total = Length info /\
       trace st' = trace st ++ [EvOpen fsys [Name info] (Length info)]) /\
  lengths_of f = map fd_Length (declared_files info) /\
  offsets f = running_offsets 0 (lengths_of f) /\
  (forall k : nat, (k < length (files f))%nat ->
     nth k (offsets f) 0 = sumZ (firstn k (lengths_of f))) /\
  sorted (offsets f) /\
  tiles (offsets f) (lengths_of f) total /\
  total = totalSize_of f /\
  err = None /\
  store_ok f.
Proof.
  intros Hrun Hnn Hmax.
  rewrite NewFileStore_unfold in Hrun.
  apply NewFileStore_loop_returns_store in Hrun; try assumption; try lia.
  destruct Hrun as (He & Hts & (hs & Hop & Hf) & Htr).
  assert (Hsynthetic : Files info = [] ->
     exists h : File,
       files f = [mkFileEntry (Length info) h] /\
       offsets f = [0] /\
       total = Length info /\
       trace st' = trace st ++ [EvOpen fsys [Name info] (Length info)]).
  { intros Hempty.
    assert (Hd : declared_files info =
                 [mkFileDict (Length info) [Name info] (Md5sum info)])
      by (unfold declared_files; rewrite Hempty; reflexivity).
    rewrite Hd in Hop, Hf, Htr, Hts. simpl in Hop, Hf, Htr, Hts.
    destruct (fs_Open fsys [Name info] (Length info) (world st))
      as [[h [e|]] w1]; [discriminate|].
    injection Hop as <- _. exists h. rewrite Hf. simpl.
    repeat split; try reflexivity; try lia. exact Htr. }
  pose proof (opens_succeed_length _ _ _ _ _ Hop) as Hlen.
  set (ls := map fd_Length (declared_files info)) in *.
  assert (Hll : length hs = length ls)
    by (unfold ls; rewrite length_map; exact Hlen).
  assert (Hlens : lengths_of f = ls).
  { rewrite Hf. unfold lengths_of. simpl. apply entries_of_lengths. exact Hll. }
  assert (Hoffs : offsets f = running_offsets 0 ls) by (rewrite Hf; reflexivity).
  assert (Hfl : length (files f) = length ls).
  { rewrite <- Hlens. unfold lengths_of. rewrite length_map. reflexivity. }
  split; [exact Hsynthetic|].
  rewrite Hlens, Hoffs. simpl in Hts.
  split; [reflexivity|]. split; [reflexivity|]. split.
  { intros k Hk. rewrite running_offsets_nth by lia. lia. }
  split; [apply running_offsets_sorted; exact Hnn|].
  split; [rewrite Hts; apply running_offsets_tiles|].
  split; [unfold totalSize_of; rewrite Hlens; exact Hts|].
  split; [exact He|].
  unfold store_ok, totalSize_of. rewrite Hlens, Hoffs.
  repeat split; try assumption.
  intro E. rewrite E in Hfl. simpl in Hfl.
  unfold ls, declared_files in Hfl.
  destruct (Files info); simpl in Hfl; discriminate.
Qed.

Lemma close_files_trace_app (fes : list entry) (st : state) :
  trace (snd (close_files fes st)) =
  trace st ++ map EvFileClose (map fe_file fes).
Proof. rewrite close_files_run. reflexivity. Qed.

(** A construction whose first opens succeed and whose next open fails. *)
Lemma NewFileStore_loop_open_fails (fsys : FileSystem) (pre : list FileDict) :
  forall (d : FileDict) (post : list FileDict)
         (offs_acc : list Z) (files_acc : list entry) (total : Z) (st : state)
         (hs : list File) (w1 w2 : World) (h : File) (e : error),
    opens_succeed fsys pre (world st) = Some (hs, w1) ->
    fs_Open fsys (fd_Path d) (fd_Length d) w1 = ((h, Some e), w2) ->
    exists ts : Z,
      NewFileStore_loop fsys (pre ++ d :: post) offs_acc files_acc total st =
      (Ok (None, ts, Some e),
       mkSt (closes (map fe_file files_acc ++ hs) w2)
            (trace st ++ map (open_event fsys) (pre ++ [d])
                      ++ map EvFileClose (map fe_file files_acc ++ hs))).
Proof.
  induction pre as [|src pre IH];
    intros d post offs_acc files_acc total st hs w1 w2 h e Hop Hfail.
  - simpl in Hop. injection Hop as <- <-.
    exists total. simpl. unfold bind at 1, call. rewrite Hfail.
    unfold bind. rewrite close_files_run. unfold ret. simpl.
    rewrite !app_nil_r, <- app_assoc. reflexivity.
  - simpl in Hop.
    destruct (fs_Open fsys (fd_Path src) (fd_Length src) (world st))
      as [[h0 [e0|]] w0] eqn:Eopen; [discriminate|].
    destruct (opens_succeed fsys pre w0) as [[hs0 w0']|] eqn:Erest;
      [|discriminate].
    injection Hop as <- <-.
    simpl. unfold bind at 1, call. rewrite Eopen.
    edestruct (IH d post (offs_acc ++ [total])
                 (files_acc ++ [mkFileEntry (fd_Length src) h0])
                 (add64 total (fd_Length src))
                 (mkSt w0 (trace st ++ [EvOpen fsys (fd_Path src) (fd_Length src)])))
      as (ts & Hts); [exact Erest | exact Hfail |].
    exists ts. rewrite Hts. simpl.
    rewrite !map_app. simpl. rewrite <- !app_assoc. reflexivity.
Qed.

(** C5: when the first K opens succeed and the K-th (counted from 0) fails,
    [NewFileStore] closes exactly the K handles those opens returned, in
    order and once each, returns the error of the failed open and returns
    no store. *)
Theorem NewFileStore_open_failure_closes_opened
    (info : InfoDict) (fsys : FileSystem) (st : state)
    (pre post : list FileDict) (d : FileDict)
    (hs : list File) (w1 w2 : World) (h : File) (e : error) :
  Files info = pre ++ d :: post ->
  opens_succeed fsys pre (world st) = Some (hs, w1) ->
  fs_Open fsys (fd_Path d) (fd_Length d) w1 = ((h, Some e), w2) ->
  length hs = length pre /\
  exists ts : Z,
    NewFileStore info fsys st =
    (Ok (None, ts, Some e),
     mkSt (closes hs w2)
          (trace st ++ map (open_event fsys) (pre ++ [d])
                    ++ map EvFileClose hs)).
Proof.
  intros Hfiles Hop Hfail.
  split; [eapply opens_succeed_length; exact Hop|].
  rewrite NewFileStore_unfold.
  assert (Hd : declared_files info = pre ++ d :: post).
  { unfold declared_files. rewrite Hfiles. destruct pre; reflexivity. }
  rewrite Hd.
  destruct (NewFileStore_loop_open_fails fsys pre d post [] [] 0 st
              hs w1 w2 h e Hop Hfail) as (ts & Hts).
  exists ts. exact Hts.
Qed.

(** C10: [Close] closes the handle of every entry, once each and in order,
    then closes an attached cache and clears the cache field; whatever the
    close calls return, the error it reports is [nil]. *)
Theorem Close_closes_everything_and_reports_nil (f : store) (st : state) :
  Close f st =
  (Ok (SetCache f None, None),
   match cache f with
   | Some c =>
       mkSt (snd (cache_Close c (closes (map fe_file (files f)) (world st))))
            (trace st ++ map EvFileClose (map fe_file (files f))
                      ++ [EvCacheClose c])
   | None =>
       mkSt (closes (map fe_file (files f)) (world st))
            (trace st ++ map EvFileClose (map fe_file (files f)))
   end).
Proof.
  unfold Close, bind. rewrite close_files_run.
  destruct f as [fsys offs fes [c|]]; simpl.
  - unfold call, ret. simpl.
    destruct (cache_Close c (closes (map fe_file fes) (world st))) as [r w].
    simpl. rewrite <- app_assoc. reflexivity.
  - reflexivity.
Qed.

(** *** Raw writes *)

Lemma skipn_cons_inv {A : Type} (l : list A) (k : nat) (x d : A) (r : list A) :
  skipn k l = x :: r ->
  (k < length l)%nat /\ nth k l d = x /\ skipn (S k) l = r.
Proof.
  revert k; induction l as [|y l IH]; intros k H.
  - destruct k; discriminate.
  - destruct k as [|k]; simpl in H.
    + injection H as -> ->. simpl. repeat split. lia.
    + apply IH in H. simpl. destruct H as (H1 & H2 & H3).
      repeat split; try assumption. lia.
Qed.

Lemma overwrite_length (dst out : list byte) :
  length (overwrite dst out) = length dst.
Proof.
  unfold overwrite. rewrite length_app, length_firstn, length_skipn. lia.
Qed.

(** Whatever the handles do, a raw write calls nothing but [WriteAt] on
    file handles. *)
Lemma RawWriteAt_loop_trace (fes : list entry) (rest : list Z) :
  forall (index : nat) (p : list byte) (off n : Z) (st : state),
  exists evs : list event,
    trace (snd (RawWriteAt_loop fes rest index p off n st)) = trace st ++ evs /\
    forallb is_EvFileWriteAt evs = true.
Proof.
  induction rest as [|start rest IH]; intros index p off n st.
  - exists []. rewrite app_nil_r. split; [|reflexivity].
    destruct p; cbn [RawWriteAt_loop];
      match goal with |- context [first_nonzero ?q] =>
        destruct (first_nonzero q) end; reflexivity.
  - destruct p as [|b p].
    + exists []. rewrite app_nil_r. split; reflexivity.
    + cbn [RawWriteAt_loop].
      destruct (nth_error fes index) as [en|];
        [|exists []; rewrite app_nil_r; split; reflexivity].
      destruct (sub64 off start <? fe_length en); [|apply IH].
      match goal with |- context [if ?c <? 0 then _ else _] =>
        destruct (c <? 0) end;
        [exists []; rewrite app_nil_r; split; reflexivity|].
      unfold bind at 1, call.
      match goal with |- context [file_WriteAt ?h ?b ?o ?w] =>
        destruct (file_WriteAt h b o w) as [[k [e|]] w1] end.
      * eexists [_]. split; reflexivity.
      * match goal with |- context [if ?c then _ else _] => destruct c end.
        -- eexists [_]. split; reflexivity.
        -- match goal with |- context [RawWriteAt_loop fes rest ?i ?q ?o ?m ?s] =>
             destruct (IH i q o m s) as (evs & Ht & Hall) end.
           eexists (_ :: evs). rewrite Ht. simpl trace.
           rewrite <- app_assoc. split; [reflexivity|]. exact Hall.
Qed.

Lemma RawWriteAt_trace (f : store) (p : list byte) (off : Z) (st : state) :
  exists evs : list event,
    trace (snd (RawWriteAt f p off st)) = trace st ++ evs /\
    forallb is_EvFileWriteAt evs = true.
Proof. apply RawWriteAt_loop_trace. Qed.

(** The entry at an index of a well-formed layout: where it starts and
    where it ends. *)
Lemma entry_bounds (fes : list entry) (index : nat) :
  Forall (fun l => 0 <= l) (map fe_length fes) ->
  (index < length fes)%nat ->
  exists en : entry,
    nth_error fes index = Some en /\
    0 <= fe_length en /\
    nth index (running_offsets 0 (map fe_length fes)) 0
      = sumZ (firstn index (map fe_length fes)) /\
    0 <= sumZ (firstn index (map fe_length fes)) /\
    sumZ (firstn index (map fe_length fes)) + fe_length en
      = sumZ (firstn (S index) (map fe_length fes)) /\
    sumZ (firstn (S index) (map fe_length fes)) <= sumZ (map fe_length fes).
Proof.
  intros Hnn Hi.
  destruct (nth_error fes index) as [en|] eqn:E;
    [|apply nth_error_None in E; lia].
  exists en. split; [reflexivity|].
  assert (Hl : nth index (map fe_length fes) 0 = fe_length en).
  { apply nth_error_nth. apply map_nth_error. exact E. }
  assert (Hil : (index < length (map fe_length fes))%nat)
    by (rewrite length_map; exact Hi).
  split.
  { rewrite <- Hl. rewrite Forall_forall in Hnn. apply Hnn.
    apply nth_In. exact Hil. }
  split; [rewrite running_offsets_nth by exact Hil; lia|].
  split; [apply sumZ_firstn_le; exact Hnn|].
  split; [rewrite firstn_succ_sum by exact Hil; lia|].
  apply sumZ_firstn_le; exact Hnn.
Qed.

(** With handles that keep the count inside [0 .. len(p)], a raw write on a
    well-formed layout never panics: it returns. *)
Lemma RawWriteAt_loop_returns (fes : list entry) :
  WriterAt_count_ok ->
  Forall (fun l => 0 <= l) (map fe_length fes) ->
  sumZ (map fe_length fes) <= max_int64 ->
  forall (rest : list Z) (index : nat) (p : list byte) (off n : Z) (st : state),
    rest = skipn index (running_offsets 0 (map fe_length fes)) ->
    flat_offset off ->
    exists (r : Z * option error) (st' : state),
      RawWriteAt_loop fes rest index p off n st = (Ok r, st').
Proof.
  intros Hcount Hnn Hmax.
  induction rest as [|start rest IH]; intros index p off n st Hrest Hoff.
  - destruct p; cbn [RawWriteAt_loop];
      match goal with |- context [first_nonzero ?q] =>
        destruct (first_nonzero q) end; eexists; eexists; reflexivity.
  - destruct p as [|b p]; [eexists; eexists; reflexivity|].
    symmetry in Hrest.
    apply (skipn_cons_inv _ _ _ 0) in Hrest.
    destruct Hrest as (Hidx & Hstart & Hrest').
    rewrite running_offsets_length, length_map in Hidx.
    destruct (entry_bounds fes index Hnn Hidx)
      as (en & Hen & Hlen & Hnth & Hs0 & Hend & Hle).
    rewrite Hnth in Hstart.
    cbn [RawWriteAt_loop]. rewrite Hen.
    unfold flat_offset in Hoff. pose proof max_int64_value as Hmv.
    assert (Hio : sub64 off start = off - start).
    { apply sub64_id. unfold in_int64. rewrite min_int64_value. lia. }
    rewrite Hio.
    destruct (off - start <? fe_length en) eqn:Hlt;
      [|apply IH; [symmetry; exact Hrest' | exact Hoff]].
    apply Z.ltb_lt in Hlt.
    assert (Hsp : sub64 (fe_length en) (off - start) = fe_length en - (off - start)).
    { apply sub64_id. unfold in_int64. rewrite min_int64_value. lia. }
    rewrite Hsp.
    set (space := fe_length en - (off - start)).
    set (chunk := if space <? len (b :: p) then space else len (b :: p)).
    assert (Hchunk : 0 < chunk <= space /\ chunk <= len (b :: p)).
    { unfold chunk, len. simpl length.
      destruct (space <? Z.of_nat (S (length p))) eqn:Hc;
        [apply Z.ltb_lt in Hc | apply Z.ltb_ge in Hc]; unfold space in *; lia. }
    destruct (chunk <? 0) eqn:Hneg; [apply Z.ltb_lt in Hneg; lia|].
    unfold bind at 1, call.
    pose proof (Hcount (fe_file en) (firstn (Z.to_nat chunk) (b :: p))
                  (off - start) (world st)) as Hk.
    destruct (file_WriteAt (fe_file en) (firstn (Z.to_nat chunk) (b :: p))
                (off - start) (world st)) as [[k [e|]] w1];
      [eexists; eexists; reflexivity|].
    simpl in Hk.
    assert (Hfl : len (firstn (Z.to_nat chunk) (b :: p)) <= chunk).
    { unfold len. rewrite length_firstn. lia. }
    assert (Hb : (k <? 0) || (len (b :: p) <? k) = false).
    { apply orb_false_iff. split; [apply Z.ltb_ge | apply Z.ltb_ge]; lia. }
    rewrite Hb.
    apply IH; [symmetry; exact Hrest'|].
    unfold flat_offset. rewrite add64_id;
      [|unfold in_int64; rewrite min_int64_value]; unfold space in *; lia.
Qed.

Lemma store_ok_lengths (f : store) :
  store_ok f -> length (offsets f) = length (files f).
Proof.
  intros (_ & _ & _ & Ho). rewrite Ho, running_offsets_length.
  unfold lengths_of. apply length_map.
Qed.

Lemma RawWriteAt_returns (f : store) (p : list byte) (off : Z) (st : state) :
  WriterAt_count_ok -> store_ok f -> flat_offset off ->
  exists (r : Z * option error) (st' : state),
    RawWriteAt f p off st = (Ok r, st').
Proof.
  intros Hcount (Hne & Hnn & Hmax & Ho) Hoff.
  unfold RawWriteAt. rewrite Ho. unfold lengths_of.
  apply RawWriteAt_loop_returns; try assumption. reflexivity.
Qed.

Lemma first_nonzero_all_zero (p : list byte) :
  Forall (fun b => b = x00) p -> first_nonzero p = None.
Proof.
  induction 1 as [|b p Hb _ IH]; simpl; [reflexivity|].
  subst b. simpl. rewrite IH. reflexivity.
Qed.

Lemma first_nonzero_at (p : list byte) :
  forall i : nat,
    (i < length p)%nat ->
    nth i p x00 <> x00 ->
    (forall j : nat, (j < i)%nat -> nth j p x00 = x00) ->
    first_nonzero p = Some i.
Proof.
  induction p as [|b p IH]; intros i Hi Hnz Hz; simpl in Hi; [lia|].
  simpl. destruct i as [|i].
  - simpl in Hnz. destruct (Byte.eqb b x00) eqn:E; [|reflexivity].
    apply Byte.byte_dec_bl in E. contradiction.
  - pose proof (Hz 0%nat ltac:(lia)) as H0. simpl in H0. subst b. simpl.
    rewrite (IH i); [reflexivity | lia | exact Hnz |].
    intros j Hj. apply (Hz (S j)). lia.
Qed.

Lemma skipn_to_last {A : Type} (l : list A) (d : A) :
  l <> [] -> skipn (length l - 1) l = [nth (length l - 1) l d].
Proof.
  induction l as [|x l IH]; intros Hne; [congruence|].
  destruct l as [|y l]; [reflexivity|].
  replace (length (x :: y :: l) - 1)%nat with (S (length (y :: l) - 1))
    by (simpl; lia).
  rewrite skipn_cons. cbn [nth]. apply IH. discriminate.
Qed.

(** Past the end of the store no handle is touched: the write is decided
    by the bytes of the buffer alone. *)
Lemma RawWriteAt_past_end_run (f : store) (p : list byte) (off : Z) (st : state) :
  store_ok f ->
  totalSize_of f <= off <= max_int64 ->
  RawWriteAt f p off st =
  (Ok match first_nonzero p with
      | Some i => (add64 0 (Z.of_nat i), Some ErrNonZeroTrailing)
      | None => (add64 0 (len p), None)
      end, st).
Proof.
  intros (Hne & Hnn & Hmax & Ho) Hoff.
  unfold RawWriteAt, totalSize_of in *. rewrite Ho.
  assert (Hlne : lengths_of f <> []).
  { unfold lengths_of. destruct (files f); [congruence | discriminate]. }
  rewrite find_past_end by (try assumption; lia).
  assert (Hflen : length (files f) = length (lengths_of f))
    by (unfold lengths_of; rewrite length_map; reflexivity).
  assert (Hpos : (0 < length (files f))%nat)
    by (destruct (files f); [congruence | simpl; lia]).
  rewrite <- (running_offsets_length 0 (lengths_of f)) at 1.
  rewrite (skipn_to_last _ 0)
    by (intro E; apply (f_equal (@length Z)) in E;
        rewrite running_offsets_length in E; simpl in E; lia).
  rewrite running_offsets_length.
  destruct p as [|b p]; [reflexivity|].
  destruct (entry_bounds (files f) (length (lengths_of f) - 1) Hnn ltac:(lia))
    as (en & Hen & Hlen & Hnth & Hs0 & Hend & Hle).
  fold (lengths_of f) in Hnth, Hs0, Hend, Hle.
  cbn [RawWriteAt_loop]. rewrite Hen, Hnth.
  replace (S (length (lengths_of f) - 1)) with (length (lengths_of f)) in Hend by lia.
  rewrite firstn_all in Hend.
  pose proof max_int64_value as Hmv.
  rewrite sub64_id by (unfold in_int64; rewrite min_int64_value; lia).
  destruct (off - sumZ (firstn (length (lengths_of f) - 1) (lengths_of f))
            <? fe_length en) eqn:Hlt; [apply Z.ltb_lt in Hlt; lia|].
  cbn [RawWriteAt_loop]. destruct (first_nonzero (b :: p)); reflexivity.
Qed.

(** C2: at a flat offset at or past the total size, a raw write of a buffer
    of zero bytes succeeds and accepts every byte; a buffer with a non-zero
    byte fails with the error "Unexpected non-zero data at end of store.",
    which no collaborator returns, and the count is the number of bytes
    before the first non-zero one.  No handle is written and the world is
    unchanged. *)
Theorem RawWriteAt_past_end_accepts_only_zeros
    (f : store) (p : list byte) (off : Z) (st : state) :
  store_ok f ->
  totalSize_of f <= off <= max_int64 ->
  len p <= max_int64 ->
  (Forall (fun b => b = x00) p ->
     RawWriteAt f p off st = (Ok (len p, None), st)) /\
  (forall i : nat,
     (i < length p)%nat ->
     nth i p x00 <> x00 ->
     (forall j : nat, (j < i)%nat -> nth j p x00 = x00) ->
     RawWriteAt f p off st = (Ok (Z.of_nat i, Some ErrNonZeroTrailing), st)) /\
  (forall text : string, ErrNonZeroTrailing <> collaborator_error text).
Proof.
  intros Hok Hoff Hlen.
  pose proof max_int64_value as Hmv.
  split; [|split].
  - intros Hz. rewrite RawWriteAt_past_end_run by assumption.
    rewrite first_nonzero_all_zero by exact Hz.
    rewrite add64_id; [reflexivity|].
    unfold in_int64, len in *. rewrite min_int64_value. lia.
  - intros i Hi Hnz Hbefore. rewrite RawWriteAt_past_end_run by assumption.
    rewrite (first_nonzero_at p i) by assumption.
    rewrite add64_id; [reflexivity|].
    unfold in_int64, len in *. rewrite min_int64_value. lia.
  - intros text. discriminate.
Qed.

(** *** Commit and the cache-aware write *)

Lemma file_writes_are_not_cache_calls (evs : list event) :
  forallb is_EvFileWriteAt evs = true ->
  filter is_EvCacheWriteAt evs = [] /\
  filter is_EvCacheMarkCommitted evs = [].
Proof.
  induction evs as [|e evs IH]; intros H; [split; reflexivity|].
  simpl in H. apply andb_true_iff in H. destruct H as (He & Hrest).
  destruct (IH Hrest) as (A & B).
  destruct e; simpl in He; try discriminate. simpl. split; assumption.
Qed.

(** C7: without a cache [Commit] does nothing.  With a cache it performs the
    raw write of the piece at the offset (which calls [WriteAt] on file
    handles and nothing else, so never the cache's own [WriteAt]); when
    that write reports no error it then calls [MarkCommitted] once with the
    piece number; when the write reports an error it panics with that error
    and [MarkCommitted] is not called. *)
Theorem Commit_raw_write_then_mark_committed
    (f : store) (pieceNum : Z) (piece : list byte) (off : Z) (st : state) :
  (cache f = None -> Commit f pieceNum piece off st = (Ok tt, st)) /\
  (forall c : Cache, cache f = Some c ->
     (exists evs : list event,
        trace (snd (RawWriteAt f piece off st)) = trace st ++ evs /\
        forallb is_EvFileWriteAt evs = true /\
        filter is_EvCacheWriteAt evs = [] /\
        filter is_EvCacheMarkCommitted evs = []) /\
     match RawWriteAt f piece off st with
     | (Ok (_, None), st1) =>
         Commit f pieceNum piece off st =
         (Ok tt, mkSt (cache_MarkCommitted c pieceNum (world st1))
                      (trace st1 ++ [EvCacheMarkCommitted c pieceNum]))
     | (Ok (_, Some e), st1) =>
         Commit f pieceNum piece off st =
         (Panic (log_Panicln "Error committing to storage:" e),
          mkSt (world st1) (trace st1 ++ [EvLog (log_commit_error e)]))
     | (Panic v, st1) =>
         Commit f pieceNum piece off st = (Panic v, st1)
     end).
Proof.
  split.
  - intros Hc. unfold Commit. rewrite Hc. reflexivity.
  - intros c Hc. split.
    { destruct (RawWriteAt_trace f piece off st) as (evs & Ht & Hall).
      exists evs. split; [exact Ht|]. split; [exact Hall|].
      apply file_writes_are_not_cache_calls. exact Hall. }
    destruct (RawWriteAt f piece off st) as [[[n [e|]]|v] st1] eqn:E;
      unfold Commit; rewrite Hc; unfold bind at 1; rewrite E; reflexivity.
Qed.

Lemma WriteAt_loop_returns (f : store) (chunks : list chunk) :
  WriterAt_count_ok -> store_ok f ->
  Forall (fun nc => flat_offset (i nc)) chunks ->
  forall st : state, exists st' : state, WriteAt_loop f chunks st = (Ok tt, st').
Proof.
  intros Hcount Hok. induction 1 as [|nc chunks Hnc _ IH]; intros st.
  - exists st. reflexivity.
  - simpl. unfold bind.
    destruct (RawWriteAt_returns f (data nc) (i nc) st Hcount Hok Hnc)
      as (r & st1 & Hr).
    rewrite Hr. apply IH.
Qed.

Lemma WriteAt_loop_result (f : store) (chunks : list chunk) :
  forall (st st' : state) (r : unit),
    WriteAt_loop f chunks st = (Ok r, st') -> r = tt.
Proof. intros st st' []. reflexivity. Qed.

Lemma WriteAt_with_cache (f : store) (c : Cache) (p : list byte) (off : Z)
    (st : state) :
  cache f = Some c ->
  WriteAt f p off st =
  match WriteAt_loop f (fst (cache_WriteAt c p off (world st)))
          (mkSt (snd (cache_WriteAt c p off (world st)))
                (trace st ++ [EvCacheWriteAt c p off])) with
  | (Ok _, st') => (Ok (len p, None), st')
  | (Panic v, st') => (Panic v, st')
  end.
Proof.
  intros Hc. unfold WriteAt. rewrite Hc. unfold bind at 1, call.
  destruct (cache_WriteAt c p off (world st)) as [chunks w1]. simpl.
  unfold bind. destruct (WriteAt_loop f chunks _) as [[u|v] s]; reflexivity.
Qed.

(** C8: with a cache attached, [WriteAt] hands the request to the cache,
    raw-writes every range the cache returns and reports the full buffer
    length and no error, whatever those raw writes return; without a cache
    it is [RawWriteAt], count and error unchanged. *)
Theorem WriteAt_swallows_fallback_write_errors
    (f : store) (p : list byte) (off : Z) (st : state) :
  (cache f = None -> WriteAt f p off st = RawWriteAt f p off st) /\
  (forall c : Cache, cache f = Some c ->
     (forall (r : Z * option error) (st' : state),
        WriteAt f p off st = (Ok r, st') -> r = (len p, None)) /\
     (WriterAt_count_ok -> store_ok f ->
      Forall (fun nc => flat_offset (i nc))
             (fst (cache_WriteAt c p off (world st))) ->
      exists st' : state,
        WriteAt_loop f (fst (cache_WriteAt c p off (world st)))
          (mkSt (snd (cache_WriteAt c p off (world st)))
                (trace st ++ [EvCacheWriteAt c p off])) = (Ok tt, st') /\
        WriteAt f p off st = (Ok (len p, None), st'))).
Proof.
  split.
  - intros Hc. unfold WriteAt. rewrite Hc. reflexivity.
  - intros c Hc. rewrite (WriteAt_with_cache f c p off st Hc). split.
    + intros r st' H.
      destruct (WriteAt_loop f _ _) as [[u|v] s]; [|discriminate].
      injection H as <- _. reflexivity.
    + intros Hcount Hok Hflat.
      destruct (WriteAt_loop_returns f _ Hcount Hok Hflat
                  (mkSt (snd (cache_WriteAt c p off (world st)))
                        (trace st ++ [EvCacheWriteAt c p off])))
        as (st' & Hrun).
      exists st'. split; [exact Hrun|]. rewrite Hrun. reflexivity.
Qed.

(** *** Raw reads *)

(** A raw read depends on the world only; what it adds to the trace are
    [ReadAt] calls on file handles. *)
Lemma RawReadAt_loop_frame (fes : list entry) (rest : list Z) :
  forall (index : nat) (done p : list byte) (off n : Z) (w : World),
  exists (r : Res (list byte * Z * option error)) (w' : World)
         (evs : list event),
    forallb is_EvFileReadAt evs = true /\
    forall t : list event,
      RawReadAt_loop fes rest index done p off n (mkSt w t)
      = (r, mkSt w' (t ++ evs)).
Proof.
  induction rest as [|start rest IH]; intros index done p off n w.
  - eexists; exists w, []. split; [reflexivity|]. intros t.
    rewrite app_nil_r. destruct p; reflexivity.
  - destruct p as [|b p].
    + eexists; exists w, []. split; [reflexivity|]. intros t.
      rewrite app_nil_r. reflexivity.
    + cbn [RawReadAt_loop].
      destruct (nth_error fes index) as [en|].
      2:{ eexists; exists w, []. split; [reflexivity|]. intros t.
          rewrite app_nil_r. reflexivity. }
      destruct (sub64 off start <? fe_length en); [|apply IH].
      match goal with |- context [if ?c <? 0 then _ else _] =>
        destruct (c <? 0) end.
      { eexists; exists w, []. split; [reflexivity|]. intros t.
        rewrite app_nil_r. reflexivity. }
      unfold bind at 1, call. cbn [world trace].
      match goal with |- context [file_ReadAt ?h ?q ?o ?x] =>
        destruct (file_ReadAt h q o x) as [[[out k] [e|]] w1] end.
      * eexists; exists w1; eexists [_]. split; cycle 1.
        { intros t. reflexivity. }
        reflexivity.
      * match goal with |- context [if ?c then _ else _] => destruct c end.
        -- eexists; exists w1; eexists [_]. split; cycle 1.
           { intros t. reflexivity. }
           reflexivity.
        -- match goal with
           | |- context [RawReadAt_loop fes rest ?i ?d ?q ?o ?m _] =>
               destruct (IH i d q o m w1) as (r & w' & evs & Hall & Hrun)
           end.
           exists r, w'. eexists (_ :: evs). split; cycle 1.
           { intros t. rewrite Hrun, <- app_assoc. reflexivity. }
           exact Hall.
Qed.

Lemma RawReadAt_frame (f : store) (p : list byte) (off : Z) (w : World) :
  exists (r : Res (list byte * Z * option error)) (w' : World)
         (evs : list event),
    forallb is_EvFileReadAt evs = true /\
    forall t : list event,
      RawReadAt f p off (mkSt w t) = (r, mkSt w' (t ++ evs)).
Proof. apply RawReadAt_loop_frame. Qed.

(** With handles that keep the count inside [0 .. len(p)], a raw read on a
    well-formed layout never panics: it returns, and the buffer it leaves
    has the length of the buffer it was given. *)
Lemma RawReadAt_loop_returns (fes : list entry) :
  ReaderAt_count_ok ->
  Forall (fun l => 0 <= l) (map fe_length fes) ->
  sumZ (map fe_length fes) <= max_int64 ->
  forall (rest : list Z) (index : nat) (done p : list byte) (off n : Z)
         (st : state),
    rest = skipn index (running_offsets 0 (map fe_length fes)) ->
    flat_offset off ->
    exists (buf : list byte) (n' : Z) (err : option error) (st' : state),
      RawReadAt_loop fes rest index done p off n st = (Ok (buf, n', err), st') /\
      length buf = (length done + length p)%nat.
Proof.
  intros Hcount Hnn Hmax.
  induction rest as [|start rest IH]; intros index done p off n st Hrest Hoff.
  - destruct p; cbn [RawReadAt_loop]; do 4 eexists;
      (split; [reflexivity|]); rewrite length_app, repeat_length; reflexivity.
  - destruct p as [|b p].
    { cbn [RawReadAt_loop]. do 4 eexists. split; [reflexivity|].
      rewrite length_app, repeat_length. reflexivity. }
    symmetry in Hrest.
    apply (skipn_cons_inv _ _ _ 0) in Hrest.
    destruct Hrest as (Hidx & Hstart & Hrest').
    rewrite running_offsets_length, length_map in Hidx.
    destruct (entry_bounds fes index Hnn Hidx)
      as (en & Hen & Hlen & Hnth & Hs0 & Hend & Hle).
    rewrite Hnth in Hstart.
    cbn [RawReadAt_loop]. rewrite Hen.
    unfold flat_offset in Hoff. pose proof max_int64_value as Hmv.
    assert (Hio : sub64 off start = off - start).
    { apply sub64_id. unfold in_int64. rewrite min_int64_value. lia. }
    rewrite Hio.
    destruct (off - start <? fe_length en) eqn:Hlt;
      [|apply IH; [symmetry; exact Hrest' | exact Hoff]].
    apply Z.ltb_lt in Hlt.
    assert (Hsp : sub64 (fe_length en) (off - start) = fe_length en - (off - start)).
    { apply sub64_id. unfold in_int64. rewrite min_int64_value. lia. }
    rewrite Hsp.
    set (space := fe_length en - (off - start)).
    set (chunk := if space <? len (b :: p) then space else len (b :: p)).
    assert (Hchunk : 0 < chunk <= space /\ chunk <= len (b :: p)).
    { unfold chunk, len. simpl length.
      destruct (space <? Z.of_nat (S (length p))) eqn:Hc;
        [apply Z.ltb_lt in Hc | apply Z.ltb_ge in Hc]; unfold space in *; lia. }
    destruct (chunk <? 0) eqn:Hneg; [apply Z.ltb_lt in Hneg; lia|].
    unfold bind at 1, call.
    pose proof (Hcount (fe_file en) (firstn (Z.to_nat chunk) (b :: p))
                  (off - start) (world st)) as Hk.
    destruct (file_ReadAt (fe_file en) (firstn (Z.to_nat chunk) (b :: p))
                (off - start) (world st)) as [[[out k] oe] w1].
    simpl in Hk.
    set (p1 := overwrite (firstn (Z.to_nat chunk) (b :: p)) out
               ++ skipn (Z.to_nat chunk) (b :: p)).
    assert (Hp1 : length p1 = length (b :: p)).
    { unfold p1. rewrite length_app, overwrite_length, <- length_app,
        firstn_skipn. reflexivity. }
    destruct oe as [e|].
    { do 4 eexists. split; [reflexivity|].
      rewrite length_app, Hp1. reflexivity. }
    assert (Hfl : len (firstn (Z.to_nat chunk) (b :: p)) <= chunk).
    { unfold len. rewrite length_firstn. lia. }
    assert (Hb : (k <? 0) || (len p1 <? k) = false).
    { apply orb_false_iff. unfold len. rewrite Hp1. fold (len (b :: p)).
      split; [apply Z.ltb_ge | apply Z.ltb_ge]; lia. }
    rewrite Hb.
    edestruct (IH (S index) (done ++ firstn (Z.to_nat k) p1)
                 (skipn (Z.to_nat k) p1) (add64 off k) (add64 n k)
                 (mkSt w1 (trace st ++
                    [EvFileReadAt (fe_file en) (Z.to_nat chunk) (off - start)])))
      as (buf & n' & err & st' & Hrun & Hbl).
    { symmetry; exact Hrest'. }
    { unfold flat_offset. rewrite add64_id;
        [|unfold in_int64; rewrite min_int64_value]; unfold space in *; lia. }
    exists buf, n', err, st'. split; [exact Hrun|].
    rewrite Hbl, length_app, <- Hp1, <- Nat.add_assoc, <- length_app,
      firstn_skipn. reflexivity.
Qed.

Lemma RawReadAt_returns (f : store) (p : list byte) (off : Z) (st : state) :
  ReaderAt_count_ok -> store_ok f -> flat_offset off ->
  exists (buf : list byte) (n : Z) (err : option error) (st' : state),
    RawReadAt f p off st = (Ok (buf, n, err), st') /\
    length buf = length p.
Proof.
  intros Hcount (Hne & Hnn & Hmax & Ho) Hoff.
  unfold RawReadAt. rewrite Ho. unfold lengths_of.
  apply (RawReadAt_loop_returns (files f) Hcount Hnn Hmax _ _ [] p off 0 st);
    [reflexivity | exact Hoff].
Qed.

(** *** The cache-aware read *)

Lemma calls_app (t1 t2 : list event) : calls (t1 ++ t2) = calls t1 ++ calls t2.
Proof. apply filter_app. Qed.

Lemma last_error_cons_some (r : option error) (e : error)
    (errs : list (option error)) :
  last_error (r :: Some e :: errs) = last_error (Some e :: errs).
Proof. unfold last_error. destruct r; reflexivity. Qed.

Lemma last_error_cons_none (r : option error) (errs : list (option error)) :
  last_error (r :: None :: errs) = last_error (r :: errs).
Proof. unfold last_error. destruct r; reflexivity. Qed.

Lemma last_error_none_first (errs : list (option error)) :
  last_error (None :: errs) = last_error errs.
Proof. reflexivity. Qed.

Lemma ReadAt_loop_cons (f : store) (u : chunk) (rest : list chunk)
    (retErr : option error) (st : state) :
  ReadAt_loop f (u :: rest) retErr st =
  match RawReadAt f (data u) (i u) st with
  | (Panic v, s) => (Panic v, s)
  | (Ok (buf, _, err), s) =>
      match
        match err with
        | Some e =>
            ReadAt_loop f rest (Some e)
              (mkSt (world s)
                    (trace s ++ [EvLog (log_read_error (i u) (len (data u)) e)]))
        | None => ReadAt_loop f rest retErr s
        end
      with
      | (Ok (bufs, r), s') => (Ok (buf :: bufs, r), s')
      | (Panic v, s') => (Panic v, s')
      end
  end.
Proof.
  cbn [ReadAt_loop]. unfold bind at 1.
  destruct (RawReadAt f (data u) (i u) st) as [[[[buf n] [e|]]|v] s];
    try reflexivity.
  - unfold bind, emit, ret.
    destruct (ReadAt_loop f rest (Some e) _) as [[[bufs r]|v] s']; reflexivity.
  - unfold bind, ret.
    destruct (ReadAt_loop f rest retErr s) as [[[bufs r]|v] s']; reflexivity.
Qed.

Lemma raw_read_each_cons (f : store) (u : chunk) (rest : list chunk)
    (st : state) :
  raw_read_each f (u :: rest) st =
  match RawReadAt f (data u) (i u) st with
  | (Panic v, s) => (Panic v, s)
  | (Ok x, s) =>
      match raw_read_each f rest s with
      | (Ok xs, s') => (Ok (x :: xs), s')
      | (Panic v, s') => (Panic v, s')
      end
  end.
Proof.
  cbn [raw_read_each]. unfold bind at 1.
  destruct (RawReadAt f (data u) (i u) st) as [[x|v] s]; [|reflexivity].
  unfold bind, ret.
  destruct (raw_read_each f rest s) as [[xs|v] s']; reflexivity.
Qed.

(** The loop of [ReadAt] performs the raw reads of all ranges: it goes
    through the same worlds and makes the same calls as [raw_read_each],
    and what it accumulates is the last error of the ranges read. *)
Lemma ReadAt_loop_follows_raw_reads (f : store) :
  ReaderAt_count_ok -> store_ok f ->
  forall (unf : list chunk),
    Forall (fun u => flat_offset (i u)) unf ->
    forall (retErr : option error) (w : World) (t1 t2 : list event),
      calls t1 = calls t2 ->
      exists (results : list (list byte * Z * option error)) (w' : World)
             (t1' t2' : list event),
        raw_read_each f unf (mkSt w t1) = (Ok results, mkSt w' t1') /\
        ReadAt_loop f unf retErr (mkSt w t2) =
          (Ok (map (fun r => fst (fst r)) results,
               last_error (retErr :: map snd results)),
           mkSt w' t2') /\
        calls t1' = calls t2' /\
        length results = length unf.
Proof.
  intros Hcount Hok unf Hflat.
  induction Hflat as [|u unf Hu _ IH]; intros retErr w t1 t2 Ht.
  - exists [], w, t1, t2. simpl. unfold ret, last_error.
    repeat split; try assumption. destruct retErr; reflexivity.
  - destruct (RawReadAt_frame f (data u) (i u) w)
      as (r & w1 & evs & Hall & Hrun).
    destruct (RawReadAt_returns f (data u) (i u) (mkSt w t1) Hcount Hok Hu)
      as (buf & n & err & st1 & Hret & _).
    rewrite Hrun in Hret. injection Hret as -> _.
    assert (Hcalls : calls (t1 ++ evs) = calls (t2 ++ evs))
      by (rewrite !calls_app, Ht; reflexivity).
    rewrite raw_read_each_cons, ReadAt_loop_cons, !Hrun. cbn [world trace].
    destruct err as [e|].
    + destruct (IH (Some e) w1 (t1 ++ evs) ((t2 ++ evs)
                  ++ [EvLog (log_read_error (i u) (len (data u)) e)]))
        as (results & w' & t1' & t2' & Hraw & Hloop & Hc & Hlen).
      { rewrite (calls_app (t2 ++ evs)). simpl. rewrite app_nil_r.
        exact Hcalls. }
      exists ((buf, n, Some e) :: results), w', t1', t2'.
      rewrite Hraw, Hloop. simpl map.
      rewrite last_error_cons_some.
      repeat split; try assumption. simpl. rewrite Hlen. reflexivity.
    + destruct (IH retErr w1 (t1 ++ evs) (t2 ++ evs) Hcalls)
        as (results & w' & t1' & t2' & Hraw & Hloop & Hc & Hlen).
      exists ((buf, n, None) :: results), w', t1', t2'.
      rewrite Hraw, Hloop. simpl map.
      rewrite last_error_cons_none.
      repeat split; try assumption. simpl. rewrite Hlen. reflexivity.
Qed.

(** C9: with a cache attached, [ReadAt] asks the cache, then performs a raw
    read for every range the cache reports as unfulfilled, whether or not an
    earlier one returned an error; it returns the full requested length
    and the last error among those raw reads, or none. *)
Theorem ReadAt_reads_every_unfulfilled_range
    (f : store) (c : Cache) (p : list byte) (off : Z) (st : state)
    (p' : list byte) (unf : list chunk) (w1 : World) :
  cache f = Some c ->
  ReaderAt_count_ok ->
  store_ok f ->
  cache_ReadAt c p off (world st) = ((p', unf), w1) ->
  Forall (fun u => flat_offset (i u)) unf ->
  exists (results : list (list byte * Z * option error)) (st2 st' : state),
    raw_read_each f unf
      (mkSt w1 (trace st ++ [EvCacheReadAt c (length p) off]))
      = (Ok results, st2) /\
    length results = length unf /\
    ReadAt f p off st =
      (Ok (mkReadResult p' (map (fun r => fst (fst r)) results) (len p)
             (last_error (map snd results))), st') /\
    world st' = world st2 /\
    calls (trace st') = calls (trace st2).
Proof.
  intros Hc Hcount Hok Hcache Hflat.
  destruct (ReadAt_loop_follows_raw_reads f Hcount Hok unf Hflat None w1
              (trace st ++ [EvCacheReadAt c (length p) off])
              (trace st ++ [EvCacheReadAt c (length p) off]) eq_refl)
    as (results & w' & t1' & t2' & Hraw & Hloop & Hcalls & Hlen).
  exists results, (mkSt w' t1'), (mkSt w' t2').
  split; [exact Hraw|]. split; [exact Hlen|]. split.
  - unfold ReadAt. rewrite Hc. unfold bind at 1, call. rewrite Hcache.
    unfold bind. rewrite Hloop. rewrite last_error_none_first. reflexivity.
  - split; [reflexivity | symmetry; exact Hcalls].
Qed.

(** *** Requests that span a file boundary *)

Lemma skipn_nth_cons {A : Type} (l : list A) (k : nat) (d : A) :
  (k < length l)%nat -> skipn k l = nth k l d :: skipn (S k) l.
Proof.
  revert k; induction l as [|x l IH]; intros k Hk; simpl in Hk; [lia|].
  destruct k as [|k]; [reflexivity|].
  rewrite !skipn_cons. cbn [nth]. apply IH. lia.
Qed.

(** An offset inside entry [k] is found at index [k]. *)
Lemma find_in_entry (lens : list Z) (k : nat) (off : Z) :
  Forall (fun l => 0 <= l) lens ->
  (k < length lens)%nat ->
  sumZ (firstn k lens) <= off < sumZ (firstn (S k) lens) ->
  find (running_offsets 0 lens) off = k.
Proof.
  intros Hnn Hk Hoff.
  set (offs := running_offsets 0 lens).
  assert (Hlen : length offs = length lens) by apply running_offsets_length.
  pose proof (sumZ_firstn_le lens 0 Hnn) as H0. simpl in H0.
  destruct (find_spec offs off) as (A & B & C).
  - intro E. rewrite E in Hlen. simpl in Hlen. lia.
  - apply running_offsets_sorted; exact Hnn.
  - unfold offs. rewrite running_offsets_nth by lia. simpl.
    pose proof (sumZ_firstn_le lens k Hnn). lia.
  - apply (last_at_or_before_unique offs off); try lia; try assumption.
    + unfold offs. rewrite running_offsets_nth by lia. lia.
    + intros j Hj. unfold offs. rewrite running_offsets_nth by lia.
      pose proof (sumZ_firstn_mono lens (S k) j Hnn ltac:(lia)). lia.
Qed.

Lemma RawReadAt_loop_buffer_done (fes : list entry) (rest : list Z)
    (index : nat) (done : list byte) (off n : Z) (st : state) :
  RawReadAt_loop fes rest index done [] off n st = (Ok (done, n, None), st).
Proof. destruct rest; simpl; rewrite app_nil_r; reflexivity. Qed.

Lemma RawWriteAt_loop_buffer_done (fes : list entry) (rest : list Z)
    (index : nat) (off n : Z) (st : state) :
  RawWriteAt_loop fes rest index [] off n st = (Ok (add64 n 0, None), st).
Proof. destruct rest; reflexivity. Qed.

(** One turn of the read loop on an entry that holds the offset, when the
    handle delivers the whole clamped chunk. *)
Lemma RawReadAt_loop_step (fes : list entry) (start : Z) (rest : list Z)
    (index : nat) (done p : list byte) (off n : Z) (st : state)
    (en : entry) (chunk : Z) (out : list byte) (w1 : World) :
  nth_error fes index = Some en ->
  p <> [] ->
  0 <= start <= off ->
  off - start < fe_length en ->
  fe_length en <= max_int64 ->
  chunk = Z.min (fe_length en - (off - start)) (len p) ->
  off + chunk <= max_int64 ->
  file_ReadAt (fe_file en) (firstn (Z.to_nat chunk) p) (off - start) (world st)
    = ((out, chunk, None), w1) ->
  RawReadAt_loop fes (start :: rest) index done p off n st =
  RawReadAt_loop fes rest (S index)
    (done ++ overwrite (firstn (Z.to_nat chunk) p) out)
    (skipn (Z.to_nat chunk) p) (off + chunk) (add64 n chunk)
    (mkSt w1 (trace st ++
                [EvFileReadAt (fe_file en) (Z.to_nat chunk) (off - start)])).
Proof.
  intros Hen Hp Hso Hlt Hlmax Hchunk Hmax Hcall.
  pose proof max_int64_value as Hmv.
  destruct p as [|x p]; [congruence|].
  assert (Hlp : 0 < len (x :: p)) by (unfold len; simpl length; lia).
  cbn [RawReadAt_loop]. rewrite Hen.
  rewrite (sub64_id off start)
    by (unfold in_int64; rewrite min_int64_value; lia).
  apply Z.ltb_lt in Hlt. rewrite Hlt. apply Z.ltb_lt in Hlt.
  rewrite sub64_id by (unfold in_int64; rewrite min_int64_value; lia).
  assert (Hc : (if fe_length en - (off - start) <? len (x :: p)
                then fe_length en - (off - start) else len (x :: p)) = chunk).
  { rewrite Hchunk.
    destruct (fe_length en - (off - start) <? len (x :: p)) eqn:E;
      [apply Z.ltb_lt in E | apply Z.ltb_ge in E]; lia. }
  rewrite Hc.
  assert (Hcpos : 0 < chunk <= len (x :: p)) by lia.
  destruct (chunk <? 0) eqn:Hneg; [apply Z.ltb_lt in Hneg; lia|].
  unfold bind, call. rewrite Hcall.
  set (p1 := overwrite (firstn (Z.to_nat chunk) (x :: p)) out
             ++ skipn (Z.to_nat chunk) (x :: p)).
  assert (Hfl : length (firstn (Z.to_nat chunk) (x :: p)) = Z.to_nat chunk).
  { rewrite length_firstn. unfold len in Hcpos. lia. }
  assert (Hp1 : length p1 = length (x :: p)).
  { unfold p1. rewrite length_app, overwrite_length, <- length_app,
      firstn_skipn. reflexivity. }
  assert (Hb : (chunk <? 0) || (len p1 <? chunk) = false).
  { apply orb_false_iff. unfold len. rewrite Hp1. fold (len (x :: p)).
    split; apply Z.ltb_ge; lia. }
  rewrite Hb.
  assert (Hol : length (overwrite (firstn (Z.to_nat chunk) (x :: p)) out)
                = Z.to_nat chunk) by (rewrite overwrite_length; exact Hfl).
  unfold p1.
  rewrite firstn_app, skipn_app, Hol, Nat.sub_diag. simpl (firstn 0 _).
  simpl (skipn 0 _). rewrite app_nil_r.
  rewrite (firstn_all2 (overwrite _ out)) by lia.
  rewrite (skipn_all2 (overwrite _ out)) by lia. simpl app.
  rewrite (add64_id off chunk)
    by (unfold in_int64; rewrite min_int64_value; lia).
  reflexivity.
Qed.

(** The same turn of the write loop. *)
Lemma RawWriteAt_loop_step (fes : list entry) (start : Z) (rest : list Z)
    (index : nat) (p : list byte) (off n : Z) (st : state)
    (en : entry) (chunk : Z) (w1 : World) :
  nth_error fes index = Some en ->
  p <> [] ->
  0 <= start <= off ->
  off - start < fe_length en ->
  fe_length en <= max_int64 ->
  chunk = Z.min (fe_length en - (off - start)) (len p) ->
  off + chunk <= max_int64 ->
  file_WriteAt (fe_file en) (firstn (Z.to_nat chunk) p) (off - start) (world st)
    = ((chunk, None), w1) ->
  RawWriteAt_loop fes (start :: rest) index p off n st =
  RawWriteAt_loop fes rest (S index)
    (skipn (Z.to_nat chunk) p) (off + chunk) (add64 n chunk)
    (mkSt w1 (trace st ++
                [EvFileWriteAt (fe_file en) (firstn (Z.to_nat chunk) p)
                               (off - start)])).
Proof.
  intros Hen Hp Hso Hlt Hlmax Hchunk Hmax Hcall.
  pose proof max_int64_value as Hmv.
  destruct p as [|x p]; [congruence|].
  assert (Hlp : 0 < len (x :: p)) by (unfold len; simpl length; lia).
  cbn [RawWriteAt_loop]. rewrite Hen.
  rewrite (sub64_id off start)
    by (unfold in_int64; rewrite min_int64_value; lia).
  apply Z.ltb_lt in Hlt. rewrite Hlt. apply Z.ltb_lt in Hlt.
  rewrite sub64_id by (unfold in_int64; rewrite min_int64_value; lia).
  assert (Hc : (if fe_length en - (off - start) <? len (x :: p)
                then fe_length en - (off - start) else len (x :: p)) = chunk).
  { rewrite Hchunk.
    destruct (fe_length en - (off - start) <? len (x :: p)) eqn:E;
      [apply Z.ltb_lt in E | apply Z.ltb_ge in E]; lia. }
  rewrite Hc.
  assert (Hcpos : 0 < chunk <= len (x :: p)) by lia.
  destruct (chunk <? 0) eqn:Hneg; [apply Z.ltb_lt in Hneg; lia|].
  unfold bind, call. rewrite Hcall.
  assert (Hb : (chunk <? 0) || (len (x :: p) <? chunk) = false).
  { apply orb_false_iff. split; apply Z.ltb_ge; lia. }
  rewrite Hb.
  rewrite (add64_id off chunk)
    by (unfold in_int64; rewrite min_int64_value; lia).
  reflexivity.
Qed.

(** C4: a raw read or write whose range starts inside entry [k] and ends
    inside entry [k+1] is split at the boundary.  The bytes up to the end of
    the first file go to its handle at local offset [off - start], the rest
    to the handle of the next file at local offset 0, in that order and in
    no other call; when both handles serve their part in full the result is
    the two parts one after the other and the count is the whole length. *)
Theorem raw_access_splits_at_file_boundary
    (f : store) (k : nat) (ea eb : entry) (p : list byte) (off : Z) (st : state) :
  store_ok f ->
  nth_error (files f) k = Some ea ->
  nth_error (files f) (S k) = Some eb ->
  nth k (offsets f) 0 <= off < nth (S k) (offsets f) 0 ->
  nth (S k) (offsets f) 0 < off + len p
    <= nth (S k) (offsets f) 0 + fe_length eb ->
  let a := nth k (offsets f) 0 in
  let b := nth (S k) (offsets f) 0 in
  let c1 := Z.to_nat (b - off) in
  (forall (out1 out2 : list byte) (w1 w2 : World),
     file_ReadAt (fe_file ea) (firstn c1 p) (off - a) (world st)
       = ((out1, b - off, None), w1) ->
     file_ReadAt (fe_file eb) (skipn c1 p) 0 w1
       = ((out2, len p - (b - off), None), w2) ->
     RawReadAt f p off st =
     (Ok (overwrite (firstn c1 p) out1 ++ overwrite (skipn c1 p) out2,
          len p, None),
      mkSt w2 (trace st ++ [EvFileReadAt (fe_file ea) c1 (off - a);
                            EvFileReadAt (fe_file eb) (length p - c1) 0]))) /\
  (forall (w1 w2 : World),
     file_WriteAt (fe_file ea) (firstn c1 p) (off - a) (world st)
       = ((b - off, None), w1) ->
     file_WriteAt (fe_file eb) (skipn c1 p) 0 w1
       = ((len p - (b - off), None), w2) ->
     RawWriteAt f p off st =
     (Ok (len p, None),
      mkSt w2 (trace st ++ [EvFileWriteAt (fe_file ea) (firstn c1 p) (off - a);
                            EvFileWriteAt (fe_file eb) (skipn c1 p) 0]))).
Proof.
  intros (Hne & Hnn & Hmax & Ho) Hea Heb Hin Hspan a b c1.
  pose proof max_int64_value as Hmv.
  assert (Hk : (S k < length (files f))%nat)
    by (apply nth_error_Some; rewrite Heb; discriminate).
  destruct (entry_bounds (files f) k Hnn ltac:(lia))
    as (ea' & Hea' & Hla & Hna & Hsa & Henda & _).
  destruct (entry_bounds (files f) (S k) Hnn Hk)
    as (eb' & Heb' & Hlb & Hnb & Hsb & Hendb & Hleb).
  rewrite Hea in Hea'. injection Hea' as <-.
  rewrite Heb in Heb'. injection Heb' as <-.
  fold (lengths_of f) in Hna, Hsa, Henda, Hnb, Hsb, Hendb, Hleb.
  unfold totalSize_of in Hmax.
  assert (Ha : a = sumZ (firstn k (lengths_of f)))
    by (unfold a; rewrite Ho; exact Hna).
  assert (Hb : b = sumZ (firstn (S k) (lengths_of f)))
    by (unfold b; rewrite Ho; exact Hnb).
  fold a b in Hin, Hspan.
  assert (Hll : length (lengths_of f) = length (files f))
    by (unfold lengths_of; apply length_map).
  assert (Hfind : find (offsets f) off = k).
  { rewrite Ho. apply find_in_entry; try assumption; lia. }
  assert (Hskip : skipn k (offsets f) = a :: b :: skipn (S (S k)) (offsets f)).
  { rewrite (skipn_nth_cons (offsets f) k 0)
      by (rewrite Ho, running_offsets_length; lia).
    rewrite (skipn_nth_cons (offsets f) (S k) 0)
      by (rewrite Ho, running_offsets_length; lia).
    reflexivity. }
  assert (Hlenp : 0 < b - off < len p) by lia.
  assert (Hc1 : (c1 < length p)%nat) by (unfold c1, len in *; lia).
  assert (Hc1z : Z.of_nat c1 = b - off) by (unfold c1; lia).
  assert (Hpne : p <> []) by (intro E; subst p; simpl in Hc1; lia).
  assert (Hrest : skipn c1 p <> []).
  { intro E. apply (f_equal (@length byte)) in E.
    rewrite length_skipn in E. simpl in E. lia. }
  assert (Hrl : len (skipn c1 p) = len p - (b - off))
    by (unfold len; rewrite length_skipn; lia).
  assert (Hc2 : Z.to_nat (len p - (b - off)) = (length p - c1)%nat)
    by (unfold len; lia).
  assert (Hfull : firstn (Z.to_nat (len p - (b - off))) (skipn c1 p)
                  = skipn c1 p).
  { apply firstn_all2. rewrite length_skipn. lia. }
  assert (Hnone : skipn (Z.to_nat (len p - (b - off))) (skipn c1 p) = []).
  { apply skipn_all2. rewrite length_skipn. lia. }
  assert (Hcount : add64 (add64 0 (b - off)) (len p - (b - off)) = len p).
  { rewrite (add64_id 0)
      by (unfold in_int64; rewrite min_int64_value; lia).
    rewrite add64_id
      by (unfold in_int64; rewrite min_int64_value; lia).
    lia. }
  split.
  - intros out1 out2 w1 w2 H1 H2.
    unfold RawReadAt. rewrite Hfind, Hskip.
    rewrite (RawReadAt_loop_step (files f) a _ k [] p off 0 st ea
               (b - off) out1 w1); try assumption; try lia.
    replace (off + (b - off)) with b by lia.
    rewrite (RawReadAt_loop_step (files f) b _ (S k) _ (skipn c1 p) b _ _ eb
               (len p - (b - off)) out2 w2); try assumption; try lia.
    + rewrite Hnone, RawReadAt_loop_buffer_done, Hfull, Hcount, Hc2.
      rewrite Z.sub_diag. cbn [trace app]. rewrite <- app_assoc. reflexivity.
    + rewrite Z.sub_diag, Hfull. exact H2.
  - intros w1 w2 H1 H2.
    unfold RawWriteAt. rewrite Hfind, Hskip.
    rewrite (RawWriteAt_loop_step (files f) a _ k p off 0 st ea
               (b - off) w1); try assumption; try lia.
    replace (off + (b - off)) with b by lia.
    rewrite (RawWriteAt_loop_step (files f) b _ (S k) (skipn c1 p) b _ _ eb
               (len p - (b - off)) w2); try assumption; try lia.
    + rewrite Hnone, RawWriteAt_loop_buffer_done, Hfull, Hcount.
      rewrite Z.sub_diag. cbn [trace app]. rewrite <- app_assoc.
      rewrite add64_id
        by (unfold in_int64; rewrite min_int64_value; lia).
      rewrite Z.add_0_r. reflexivity.
    + rewrite Z.sub_diag, Hfull. exact H2.
Qed.

(** *** Reads past the end *)

(** Past the end of the store no handle is read: the buffer is filled with
    zero bytes, no error is reported, and the count stays at 0, the zero
    bytes not being counted (in [RawWriteAt] they are). *)
Lemma RawReadAt_past_end_run (f : store) (p : list byte) (off : Z) (st : state) :
  store_ok f ->
  totalSize_of f <= off <= max_int64 ->
  RawReadAt f p off st = (Ok (repeat x00 (length p), 0, None), st).
Proof.
  intros (Hne & Hnn & Hmax & Ho) Hoff.
  unfold RawReadAt, totalSize_of in *. rewrite Ho.
  assert (Hlne : lengths_of f <> []).
  { unfold lengths_of. destruct (files f); [congruence | discriminate]. }
  rewrite find_past_end by (try assumption; lia).
  assert (Hflen : length (files f) = length (lengths_of f))
    by (unfold lengths_of; rewrite length_map; reflexivity).
  assert (Hpos : (0 < length (files f))%nat)
    by (destruct (files f); [congruence | simpl; lia]).
  rewrite <- (running_offsets_length 0 (lengths_of f)) at 1.
  rewrite (skipn_to_last _ 0)
    by (intro E; apply (f_equal (@length Z)) in E;
        rewrite running_offsets_length in E; simpl in E; lia).
  rewrite running_offsets_length.
  destruct p as [|b p]; [reflexivity|].
  destruct (entry_bounds (files f) (length (lengths_of f) - 1) Hnn ltac:(lia))
    as (en & Hen & Hlen & Hnth & Hs0 & Hend & Hle).
  fold (lengths_of f) in Hnth, Hs0, Hend, Hle.
  cbn [RawReadAt_loop]. rewrite Hen, Hnth.
  replace (S (length (lengths_of f) - 1)) with (length (lengths_of f)) in Hend by lia.
  rewrite firstn_all in Hend.
  pose proof max_int64_value as Hmv.
  rewrite sub64_id by (unfold in_int64; rewrite min_int64_value; lia).
  destruct (off - sumZ (firstn (length (lengths_of f) - 1) (lengths_of f))
            <? fe_length en) eqn:Hlt; [apply Z.ltb_lt in Hlt; lia|].
  reflexivity.
Qed.

End Properties.

(** ** The store over the in-memory collaborators *)

Import MemFS.

Lemma mem_ReaderAt_count_ok : @ReaderAt_count_ok MemWorld nat mem_FileOps.
Proof.
  intros h buf off w. simpl. unfold mem_ReadAt.
  destruct (nth_error (disk w) h) as [content|]; simpl;
    [|unfold len; lia].
  destruct (off <? 0); simpl; unfold len; [lia|].
  rewrite length_firstn. lia.
Qed.

Lemma mem_WriterAt_count_ok : @WriterAt_count_ok MemWorld nat mem_FileOps.
Proof.
  intros h buf off w. simpl. unfold mem_WriteAt.
  destruct (nth_error (disk w) h) as [content|]; simpl;
    [|unfold len; lia].
  destruct (off <? 0); simpl; unfold len; lia.
Qed.

Ltac flat_offsets :=
  repeat (apply Forall_cons;
          [unfold flat_offset; rewrite max_int64_value; cbn; lia|]);
  apply Forall_nil.

Lemma store46_ok : store_ok store46.
Proof.
  unfold store_ok, totalSize_of, lengths_of. simpl.
  rewrite max_int64_value.
  repeat split; try discriminate; try lia; try reflexivity.
  repeat constructor; lia.
Qed.

Lemma store46c_ok : store_ok store46c.
Proof. exact store46_ok. Qed.

(** C1: the count [RawReadAt] returns leaves out the bytes it fills with
    zero.  On the store of two files of lengths 4 and 6, a read of three
    bytes at offset 10 fills the buffer with zeros and reports no error, and
    returns the count 0, not 3; at offset 8 it delivers the two last bytes
    of the second file and one zero byte and returns 2.  [RawWriteAt] counts
    the zero bytes past the end: a write of three zero bytes at offset 10
    returns 3. *)
Theorem RawReadAt_count_leaves_out_zero_fill :
  RawReadAt store46 [x01; x01; x01] 10 st46
    = (Ok ([x00; x00; x00], 0, None), st46) /\
  RawReadAt store46 [x01; x01; x01] 8 st46
    = (Ok ([xb4; xb5; x00], 2, None),
       mkSt world46 [EvFileReadAt 1%nat 2 4]) /\
  RawWriteAt store46 [x00; x00; x00] 10 st46 = (Ok (3, None), st46).
Proof. repeat split; reflexivity. Qed.

Lemma RawWriteAt_past_end_accepts_only_zeros_witness :
  RawWriteAt store46 [x00; x00; x00] 10 st46 = (Ok (3, None), st46) /\
  RawWriteAt store46 [x00; x00; x03] 10 st46
    = (Ok (2, Some ErrNonZeroTrailing), st46).
Proof.
  assert (Hoff : totalSize_of store46 <= 10 <= max_int64)
    by (rewrite max_int64_value; cbn; lia).
  split.
  - destruct (RawWriteAt_past_end_accepts_only_zeros store46 [x00; x00; x00]
                10 st46 store46_ok Hoff) as (A & _ & _).
    + rewrite max_int64_value; cbn; lia.
    + apply A. repeat constructor.
  - destruct (RawWriteAt_past_end_accepts_only_zeros store46 [x00; x00; x03]
                10 st46 store46_ok Hoff) as (_ & B & _).
    + rewrite max_int64_value; cbn; lia.
    + apply (B 2%nat).
      * simpl; lia.
      * discriminate.
      * intros [|[|j]] Hj; try reflexivity. lia.
Defined.

Lemma raw_access_splits_at_file_boundary_witness :
  RawReadAt store46 [x01; x01; x01] 3 st46
    = (Ok ([xa3; xb0; xb1], 3, None),
       mkSt world46 [EvFileReadAt 0%nat 1 3; EvFileReadAt 1%nat 2 0]) /\
  RawWriteAt store46 [x01; x02; x03] 3 st46
    = (Ok (3, None),
       mkSt (mkMemWorld [[xa0; xa1; xa2; x01];
                         [x02; x03; xb2; xb3; xb4; xb5]] [])
            [EvFileWriteAt 0%nat [x01] 3; EvFileWriteAt 1%nat [x02; x03] 0]).
Proof.
  split.
  - destruct (raw_access_splits_at_file_boundary store46 0
                (mkFileEntry 4 0%nat) (mkFileEntry 6 1%nat)
                [x01; x01; x01] 3 st46 store46_ok eq_refl eq_refl)
      as (R & _).
    + cbn; lia.
    + cbn; lia.
    + apply (R [xa3] [xb0; xb1] world46 world46); reflexivity.
  - destruct (raw_access_splits_at_file_boundary store46 0
                (mkFileEntry 4 0%nat) (mkFileEntry 6 1%nat)
                [x01; x02; x03] 3 st46 store46_ok eq_refl eq_refl)
      as (_ & W).
    + cbn; lia.
    + cbn; lia.
    + apply (W (mkMemWorld [[xa0; xa1; xa2; x01]; fileB] [])); reflexivity.
Defined.

Lemma NewFileStore_open_failure_closes_opened_witness :
  exists ts : Z,
    NewFileStore info_bad tt empty_st =
    (Ok (None, ts, Some ErrNotExist),
     mkSt (mkMemWorld [repeat x00 4; repeat x00 6] [])
          [EvOpen tt ["a"] 4; EvOpen tt ["b"] 6; EvOpen tt [] 3;
           EvFileClose 0%nat; EvFileClose 1%nat]).
Proof.
  destruct (NewFileStore_open_failure_closes_opened info_bad tt empty_st
              [mkFileDict 4 ["a"] ""; mkFileDict 6 ["b"] ""]
              [mkFileDict 1 ["c"] ""] (mkFileDict 3 [] "")
              [0%nat; 1%nat]
              (mkMemWorld [repeat x00 4; repeat x00 6] [])
              (mkMemWorld [repeat x00 4; repeat x00 6] [])
              0%nat ErrNotExist)
    as (_ & ts & H); [reflexivity | reflexivity | reflexivity |].
  exists ts. exact H.
Defined.

Lemma NewFileStore_offsets_are_running_sums_witness :
  NewFileStore info46 tt empty_st
    = (Ok (Some store46, 10, None),
       mkSt (mkMemWorld [repeat x00 4; repeat x00 6] [])
            [EvOpen tt ["a"] 4; EvOpen tt ["b"] 6]) /\
  offsets store46 = running_offsets 0 (lengths_of store46) /\
  sorted (offsets store46) /\
  tiles (offsets store46) (lengths_of store46) 10 /\
  10 = totalSize_of store46 /\
  NewFileStore info_single tt empty_st
    = (Ok (Some (mkFileStore tt [0] [mkFileEntry 5 0%nat] None), 5, None),
       mkSt (mkMemWorld [repeat x00 5] []) [EvOpen tt ["single"] 5]).
Proof.
  split; [reflexivity|].
  destruct (NewFileStore_offsets_are_running_sums info46 tt empty_st
              (mkSt (mkMemWorld [repeat x00 4; repeat x00 6] [])
                    [EvOpen tt ["a"] 4; EvOpen tt ["b"] 6])
              store46 10 None)
    as (_ & _ & Ho & _ & Hs & Ht & Htot & _).
  - reflexivity.
  - cbn. repeat constructor; lia.
  - rewrite max_int64_value. cbn. lia.
  - repeat split; try assumption; try apply Ht; reflexivity.
Defined.

Lemma Commit_raw_write_then_mark_committed_witness :
  Commit store46c 7 [x01; x02; x03] 3 st46
    = (Ok tt,
       mkSt (mkMemWorld [[xa0; xa1; xa2; x01];
                         [x02; x03; xb2; xb3; xb4; xb5]] [7])
            [EvFileWriteAt 0%nat [x01] 3; EvFileWriteAt 1%nat [x02; x03] 0;
             EvCacheMarkCommitted tt 7]) /\
  Commit store46 7 [x01; x02; x03] 3 st46 = (Ok tt, st46).
Proof.
  split.
  - destruct (Commit_raw_write_then_mark_committed store46c 7
                [x01; x02; x03] 3 st46) as (_ & H).
    destruct (H tt eq_refl) as (_ & H2). exact H2.
  - destruct (Commit_raw_write_then_mark_committed store46 7
                [x01; x02; x03] 3 st46) as (H & _).
    apply H. reflexivity.
Defined.

Lemma WriteAt_swallows_fallback_write_errors_witness :
  RawWriteAt store46c [x01; x01] 4 st_short
    = (Ok (1, Some ErrShortWrite),
       mkSt (mkMemWorld [fileA; [x01]] [])
            [EvFileWriteAt 1%nat [x01; x01] 0]) /\
  (exists st' : MemSt,
     WriteAt store46c [x01; x01; x01; x01; x01] 2 st_short
       = (Ok (5, None), st')) /\
  WriteAt store46 [x00; x00; x03] 10 st46
    = RawWriteAt store46 [x00; x00; x03] 10 st46.
Proof.
  split; [reflexivity|]. split.
  - destruct (WriteAt_swallows_fallback_write_errors store46c
                [x01; x01; x01; x01; x01] 2 st_short) as (_ & H).
    destruct (H tt eq_refl) as (_ & H2).
    destruct H2 as (st' & _ & Hw).
    + exact mem_WriterAt_count_ok.
    + exact store46c_ok.
    + cbn. flat_offsets.
    + exists st'. exact Hw.
  - destruct (WriteAt_swallows_fallback_write_errors store46
                [x00; x00; x03] 10 st46) as (H & _).
    apply H. reflexivity.
Defined.

Lemma ReadAt_reads_every_unfulfilled_range_witness :
  exists st' : MemSt,
    ReadAt store46c [x01; x01; x01; x01; x01] 2 st_short
      = (Ok (mkReadResult [x01; x01; x01; x01; x01]
               [[xa2; xa3]; [xb0; x01]; [x01]] 5 (Some ErrEOF)), st').
Proof.
  destruct (ReadAt_reads_every_unfulfilled_range store46c tt
              [x01; x01; x01; x01; x01] 2 st_short
              [x01; x01; x01; x01; x01]
              [mkChunk 2 [x01; x01]; mkChunk 4 [x01; x01]; mkChunk 6 [x01]]
              world_short)
    as (results & st2 & st' & Hraw & _ & Hread & _).
  - reflexivity.
  - exact mem_ReaderAt_count_ok.
  - exact store46c_ok.
  - reflexivity.
  - flat_offsets.
  - vm_compute in Hraw. injection Hraw as <- _.
    exists st'. exact Hread.
Defined.

(** * Further properties *)

(** ** [find] outside the domain of its contract *)

Lemma find_loop_range (offs : list Z) (off : Z) (low high : nat) :
  (low <= find_loop offs off low high)%nat /\
  ((low < high)%nat -> (find_loop offs off low high < high)%nat).
Proof.
  funelim (find_loop offs off low high).
  - pose proof (proj1 (Nat.ltb_ge _ _) e) as He. split; lia.
  - pose proof (proj1 (Nat.ltb_lt _ _) e) as He.
    pose proof (half_between low high He) as Hp.
    match goal with
    | IH : (_ <= _)%nat /\ _ |- _ => destruct IH as (A & B)
    end.
    split; [exact A|]. intros _. specialize (B ltac:(lia)). lia.
  - pose proof (proj1 (Nat.ltb_lt _ _) e) as He.
    pose proof (half_between low high He) as Hp.
    match goal with
    | IH : (_ <= _)%nat /\ _ |- _ => destruct IH as (A & B)
    end.
    split; [lia|]. intros _. apply B. lia.
Qed.

(** X1: whatever the table holds (sorted or not) and whatever the offset,
    [find] returns an index that is not past the last entry; on an empty
    table it returns 0. *)
Theorem find_index_not_past_last_entry (offs : list Z) (off : Z) :
  (find offs off <= length offs - 1)%nat.
Proof.
  unfold find.
  destruct (find_loop_range offs off 0 (length offs)) as (_ & B).
  destruct offs as [|x offs].
  - simp find_loop. simpl. lia.
  - specialize (B ltac:(simpl; lia)). lia.
Qed.

Lemma find_loop_all_after (offs : list Z) (off : Z) (low high : nat) :
  (forall j : nat, (low < j < high)%nat -> off < nth j offs 0) ->
  find_loop offs off low high = low.
Proof.
  funelim (find_loop offs off low high); intros Hall.
  - reflexivity.
  - pose proof (proj1 (Nat.ltb_lt _ _) e) as He.
    pose proof (half_between low high He) as Hp.
    match goal with
    | IH : _ -> find_loop _ _ _ _ = _ |- _ => apply IH
    end.
    intros j Hj. apply Hall. lia.
  - pose proof (proj1 (Nat.ltb_lt _ _) e) as He.
    pose proof (half_between low high He) as Hp.
    apply Z.ltb_ge in Heq.
    pose proof (Hall _ Hp). lia.
Qed.

(** X2: on a sorted table, an offset below the first start (a negative flat
    offset on a table that starts at 0) is looked up as index 0. *)
Theorem find_below_first_start (offs : list Z) (off : Z) :
  sorted offs ->
  off < nth 0 offs 0 ->
  find offs off = 0%nat.
Proof.
  intros Hs Hlt. unfold find. apply find_loop_all_after.
  intros j Hj. pose proof (Hs 0%nat j ltac:(lia)). lia.
Qed.

(** ** Raw access over arbitrary collaborators *)

Section MoreProperties.

Context {World File FileSystem Cache : Type}.
Context {FO : FileOps World File}.
Context {FSO : FileSystemOps World FileSystem File}.
Context {CO : CacheOps World Cache}.

Local Abbreviation store := (@fileStore File FileSystem Cache).
Local Abbreviation entry := (@fileEntry File).
Local Abbreviation state := (@St World File FileSystem Cache).
Local Abbreviation event := (@Event File FileSystem Cache).

Lemma first_nonzero_lt (p : list byte) (k : nat) :
  first_nonzero p = Some k -> (k < length p)%nat.
Proof.
  revert k; induction p as [|b p IH]; intros k H; simpl in H; [discriminate|].
  destruct (Byte.eqb b x00).
  - destruct (first_nonzero p) as [j|]; [|discriminate].
    injection H as <-. specialize (IH j eq_refl). simpl. lia.
  - injection H as <-. simpl. lia.
Qed.

(** *** Counts *)

(** The loop of [RawWriteAt] keeps [n + len(p)] fixed while no error
    shows up, so that a run without error ends with the whole length. *)
Lemma RawWriteAt_loop_count (fes : list entry) :
  WriterAt_count_ok ->
  Forall (fun l => 0 <= l) (map fe_length fes) ->
  sumZ (map fe_length fes) <= max_int64 ->
  forall (rest : list Z) (index : nat) (p : list byte) (off n : Z) (st : state),
    rest = skipn index (running_offsets 0 (map fe_length fes)) ->
    flat_offset off ->
    0 <= n -> n + len p <= max_int64 ->
    exists (n' : Z) (err : option error) (st' : state),
      RawWriteAt_loop fes rest index p off n st = (Ok (n', err), st') /\
      n <= n' <= n + len p /\
      (err = None -> n' = n + len p).
Proof.
  intros Hcount Hnn Hmax. pose proof max_int64_value as Hmv.
  assert (Hexit : forall (rest : list Z) (index : nat) (p : list byte)
                         (off n : Z) (st : state),
             (p = [] \/ rest = []) -> 0 <= n -> n + len p <= max_int64 ->
             exists (n' : Z) (err : option error) (st' : state),
               RawWriteAt_loop fes rest index p off n st = (Ok (n', err), st') /\
               n <= n' <= n + len p /\ (err = None -> n' = n + len p)).
  { intros rest index p off n st Hor Hn Hnp.
    assert (Hrun : RawWriteAt_loop fes rest index p off n st =
                   match first_nonzero p with
                   | Some k => (Ok (add64 n (Z.of_nat k), Some ErrNonZeroTrailing), st)
                   | None => (Ok (add64 n (len p), None), st)
                   end).
    { destruct Hor as [-> | ->]; [destruct rest | destruct p];
        cbn [RawWriteAt_loop];
        match goal with |- context [first_nonzero ?q] =>
          destruct (first_nonzero q) end; reflexivity. }
    rewrite Hrun. unfold len in *.
    destruct (first_nonzero p) as [k|] eqn:Ek.
    - apply first_nonzero_lt in Ek.
      do 3 eexists. split; [reflexivity|].
      rewrite add64_id by (unfold in_int64; rewrite min_int64_value; lia).
      split; [lia | discriminate].
    - do 3 eexists. split; [reflexivity|].
      rewrite add64_id by (unfold in_int64; rewrite min_int64_value; lia).
      split; [lia | reflexivity]. }
  induction rest as [|start rest IH]; intros index p off n st Hrest Hoff Hn Hnp.
  - apply Hexit; auto.
  - destruct p as [|b p]; [apply Hexit; auto|].
    symmetry in Hrest.
    apply (skipn_cons_inv _ _ _ 0) in Hrest.
    destruct Hrest as (Hidx & Hstart & Hrest').
    rewrite running_offsets_length, length_map in Hidx.
    destruct (entry_bounds fes index Hnn Hidx)
      as (en & Hen & Hlen & Hnth & Hs0 & Hend & Hle).
    rewrite Hnth in Hstart.
    cbn [RawWriteAt_loop]. rewrite Hen.
    unfold flat_offset in Hoff.
    assert (Hio : sub64 off start = off - start).
    { apply sub64_id. unfold in_int64. rewrite min_int64_value. lia. }
    rewrite Hio.
    destruct (off - start <? fe_length en) eqn:Hlt;
      [|apply IH; [symmetry; exact Hrest' | exact Hoff | exact Hn | exact Hnp]].
    apply Z.ltb_lt in Hlt.
    assert (Hsp : sub64 (fe_length en) (off - start) = fe_length en - (off - start)).
    { apply sub64_id. unfold in_int64. rewrite min_int64_value. lia. }
    rewrite Hsp.
    set (space := fe_length en - (off - start)).
    set (chunk := if space <? len (b :: p) then space else len (b :: p)).
    assert (Hchunk : 0 < chunk <= space /\ chunk <= len (b :: p)).
    { unfold chunk, len. simpl length.
      destruct (space <? Z.of_nat (S (length p))) eqn:Hc;
        [apply Z.ltb_lt in Hc | apply Z.ltb_ge in Hc]; unfold space in *; lia. }
    destruct (chunk <? 0) eqn:Hneg; [apply Z.ltb_lt in Hneg; lia|].
    unfold bind at 1, call.
    pose proof (Hcount (fe_file en) (firstn (Z.to_nat chunk) (b :: p))
                  (off - start) (world st)) as Hk.
    destruct (file_WriteAt (fe_file en) (firstn (Z.to_nat chunk) (b :: p))
                (off - start) (world st)) as [[k oe] w1].
    simpl in Hk.
    assert (Hfl : len (firstn (Z.to_nat chunk) (b :: p)) <= chunk).
    { unfold len. rewrite length_firstn. lia. }
    assert (Hadd : add64 n k = n + k)
      by (apply add64_id; unfold in_int64; rewrite min_int64_value; lia).
    rewrite Hadd.
    destruct oe as [e|].
    { do 3 eexists. split; [reflexivity|]. split; [lia | discriminate]. }
    assert (Hb : (k <? 0) || (len (b :: p) <? k) = false).
    { apply orb_false_iff. split; [apply Z.ltb_ge | apply Z.ltb_ge]; lia. }
    rewrite Hb.
    assert (Hsk : len (skipn (Z.to_nat k) (b :: p)) = len (b :: p) - k).
    { unfold len in *. rewrite length_skipn. lia. }
    edestruct (IH (S index) (skipn (Z.to_nat k) (b :: p)) (add64 off k) (n + k)
                 (mkSt w1 (trace st ++
                    [EvFileWriteAt (fe_file en)
                       (firstn (Z.to_nat chunk) (b :: p)) (off - start)])))
      as (n' & err & st' & Hrun & Hbound & Hfull).
    { symmetry; exact Hrest'. }
    { unfold flat_offset. rewrite add64_id;
        [|unfold in_int64; rewrite min_int64_value]; unfold space in *; lia. }
    { lia. }
    { rewrite Hsk. lia. }
    exists n', err, st'. split; [exact Hrun|]. rewrite Hsk in *.
    split; [lia|]. intros He. specialize (Hfull He). lia.
Qed.

(** X3: on a well-formed store, for a flat offset that is not negative and
    handles that keep their count in [0 .. len(p)], [RawWriteAt] returns
    (it does not panic) a count between 0 and [len(p)], and when it reports
    no error the count is [len(p)]. *)
Theorem RawWriteAt_count_is_length_unless_error
    (f : store) (p : list byte) (off : Z) (st : state) :
  WriterAt_count_ok ->
  store_ok f ->
  flat_offset off ->
  len p <= max_int64 ->
  exists (n : Z) (err : option error) (st' : state),
    RawWriteAt f p off st = (Ok (n, err), st') /\
    0 <= n <= len p /\
    (err = None -> n = len p).
Proof.
  intros Hcount (Hne & Hnn & Hmax & Ho) Hoff Hlen.
  unfold RawWriteAt. rewrite Ho. unfold lengths_of.
  destruct (RawWriteAt_loop_count (files f) Hcount Hnn Hmax
              (skipn (find (running_offsets 0 (map fe_length (files f))) off)
                     (running_offsets 0 (map fe_length (files f))))
              _ p off 0 st eq_refl Hoff ltac:(lia) ltac:(lia))
    as (n & err & st' & Hrun & Hb & Hfull).
  exists n, err, st'. split; [exact Hrun|]. split; [lia|].
  intros He. rewrite (Hfull He). lia.
Qed.

Lemma firstn_app_exact {A : Type} (l1 l2 : list A) :
  firstn (length l1) (l1 ++ l2) = l1.
Proof.
  rewrite firstn_app, Nat.sub_diag, firstn_all. simpl. apply app_nil_r.
Qed.

Lemma skipn_app_exact {A : Type} (l1 l2 : list A) :
  skipn (length l1) (l1 ++ l2) = l2.
Proof.
  rewrite skipn_app, Nat.sub_diag, skipn_all. reflexivity.
Qed.

(** The loop of [RawReadAt]: the count grows by what the handles deliver,
    the bytes already delivered stay in place, and after a run without
    error everything past the delivered bytes is zero. *)
Lemma RawReadAt_loop_count (fes : list entry) :
  ReaderAt_count_ok ->
  Forall (fun l => 0 <= l) (map fe_length fes) ->
  sumZ (map fe_length fes) <= max_int64 ->
  forall (rest : list Z) (index : nat) (done p : list byte) (off n : Z)
         (st : state),
    rest = skipn index (running_offsets 0 (map fe_length fes)) ->
    flat_offset off ->
    0 <= n -> n + len p <= max_int64 ->
    exists (buf : list byte) (n' : Z) (err : option error) (st' : state),
      RawReadAt_loop fes rest index done p off n st = (Ok (buf, n', err), st') /\
      n <= n' <= n + len p /\
      length buf = (length done + length p)%nat /\
      firstn (length done) buf = done /\
      (err = None ->
       skipn (length done + Z.to_nat (n' - n)) buf
       = repeat x00 (Z.to_nat (n + len p - n'))).
Proof.
  intros Hcount Hnn Hmax. pose proof max_int64_value as Hmv.
  assert (Hexit : forall (rest : list Z) (index : nat) (done p : list byte)
                         (off n : Z) (st : state),
             (p = [] \/ rest = []) -> 0 <= n ->
             exists (buf : list byte) (n' : Z) (err : option error) (st' : state),
               RawReadAt_loop fes rest index done p off n st
                 = (Ok (buf, n', err), st') /\
               n <= n' <= n + len p /\
               length buf = (length done + length p)%nat /\
               firstn (length done) buf = done /\
               (err = None ->
                skipn (length done + Z.to_nat (n' - n)) buf
                = repeat x00 (Z.to_nat (n + len p - n')))).
  { intros rest index done p off n st Hor Hn.
    exists (done ++ repeat x00 (length p)), n, None, st.
    split; [destruct Hor as [-> | ->]; [destruct rest | destruct p]; reflexivity|].
    unfold len. split; [lia|].
    split; [rewrite length_app, repeat_length; reflexivity|].
    split; [apply firstn_app_exact|].
    intros _. rewrite Z.sub_diag. simpl Z.to_nat. rewrite Nat.add_0_r.
    rewrite skipn_app_exact. f_equal. lia. }
  induction rest as [|start rest IH];
    intros index done p off n st Hrest Hoff Hn Hnp.
  - apply Hexit; auto.
  - destruct p as [|b p]; [apply Hexit; auto|].
    symmetry in Hrest.
    apply (skipn_cons_inv _ _ _ 0) in Hrest.
    destruct Hrest as (Hidx & Hstart & Hrest').
    rewrite running_offsets_length, length_map in Hidx.
    destruct (entry_bounds fes index Hnn Hidx)
      as (en & Hen & Hlen & Hnth & Hs0 & Hend & Hle).
    rewrite Hnth in Hstart.
    cbn [RawReadAt_loop]. rewrite Hen.
    unfold flat_offset in Hoff.
    assert (Hio : sub64 off start = off - start).
    { apply sub64_id. unfold in_int64. rewrite min_int64_value. lia. }
    rewrite Hio.
    destruct (off - start <? fe_length en) eqn:Hlt;
      [|apply IH; [symmetry; exact Hrest' | exact Hoff | exact Hn | exact Hnp]].
    apply Z.ltb_lt in Hlt.
    assert (Hsp : sub64 (fe_length en) (off - start) = fe_length en - (off - start)).
    { apply sub64_id. unfold in_int64. rewrite min_int64_value. lia. }
    rewrite Hsp.
    set (space := fe_length en - (off - start)).
    set (chunk := if space <? len (b :: p) then space else len (b :: p)).
    assert (Hchunk : 0 < chunk <= space /\ chunk <= len (b :: p)).
    { unfold chunk, len. simpl length.
      destruct (space <? Z.of_nat (S (length p))) eqn:Hc;
        [apply Z.ltb_lt in Hc | apply Z.ltb_ge in Hc]; unfold space in *; lia. }
    destruct (chunk <? 0) eqn:Hneg; [apply Z.ltb_lt in Hneg; lia|].
    unfold bind at 1, call.
    pose proof (Hcount (fe_file en) (firstn (Z.to_nat chunk) (b :: p))
                  (off - start) (world st)) as Hk.
    destruct (file_ReadAt (fe_file en) (firstn (Z.to_nat chunk) (b :: p))
                (off - start) (world st)) as [[[out k] oe] w1].
    simpl in Hk.
    set (p1 := overwrite (firstn (Z.to_nat chunk) (b :: p)) out
               ++ skipn (Z.to_nat chunk) (b :: p)).
    assert (Hp1 : length p1 = length (b :: p)).
    { unfold p1. rewrite length_app, overwrite_length, <- length_app,
        firstn_skipn. reflexivity. }
    assert (Hfl : len (firstn (Z.to_nat chunk) (b :: p)) <= chunk).
    { unfold len. rewrite length_firstn. lia. }
    assert (Hadd : add64 n k = n + k)
      by (apply add64_id; unfold in_int64; rewrite min_int64_value; lia).
    rewrite Hadd.
    destruct oe as [e|].
    { exists (done ++ p1), (n + k), (Some e). eexists.
      split; [reflexivity|]. split; [lia|].
      split; [rewrite length_app, Hp1; reflexivity|].
      split; [apply firstn_app_exact | discriminate]. }
    assert (Hb : (k <? 0) || (len p1 <? k) = false).
    { apply orb_false_iff. unfold len. rewrite Hp1. fold (len (b :: p)).
      split; [apply Z.ltb_ge | apply Z.ltb_ge]; lia. }
    rewrite Hb.
    assert (Hkl : (Z.to_nat k <= length p1)%nat)
      by (rewrite Hp1; unfold len in *; lia).
    assert (Hfk : length (firstn (Z.to_nat k) p1) = Z.to_nat k)
      by (rewrite length_firstn; lia).
    assert (Hsk : len (skipn (Z.to_nat k) p1) = len (b :: p) - k).
    { unfold len in *. rewrite length_skipn, Hp1. lia. }
    edestruct (IH (S index) (done ++ firstn (Z.to_nat k) p1)
                 (skipn (Z.to_nat k) p1) (add64 off k) (n + k)
                 (mkSt w1 (trace st ++
                    [EvFileReadAt (fe_file en) (Z.to_nat chunk) (off - start)])))
      as (buf & n' & err & st' & Hrun & Hbound & Hbl & Hpre & Hzero).
    { symmetry; exact Hrest'. }
    { unfold flat_offset. rewrite add64_id;
        [|unfold in_int64; rewrite min_int64_value]; unfold space in *; lia. }
    { lia. }
    { rewrite Hsk. lia. }
    exists buf, n', err, st'. split; [exact Hrun|]. rewrite Hsk in *.
    rewrite length_app, Hfk in *.
    split; [lia|]. split.
    { rewrite Hbl. unfold len in Hsk. rewrite length_skipn in *. lia. }
    split.
    { assert (E : firstn (length done) buf
                  = firstn (length done)
                      (firstn (length done + Z.to_nat k) buf))
        by (rewrite firstn_firstn; f_equal; lia).
      rewrite E, Hpre. apply firstn_app_exact. }
    intros He. specialize (Hzero He).
    replace (length done + Z.to_nat (n' - n))%nat
      with (length done + Z.to_nat k + Z.to_nat (n' - (n + k)))%nat by lia.
    rewrite Hzero. f_equal. lia.
Qed.

(** X4: on a well-formed store, for a flat offset that is not negative and
    handles that keep their count in [0 .. len(p)], [RawReadAt] returns (it
    does not panic) a buffer of the length it was given and a count [n]
    between 0 and [len(p)]; when it reports no error, every byte of the
    buffer from index [n] on is zero. *)
Theorem RawReadAt_count_and_zero_tail
    (f : store) (p : list byte) (off : Z) (st : state) :
  ReaderAt_count_ok ->
  store_ok f ->
  flat_offset off ->
  len p <= max_int64 ->
  exists (buf : list byte) (n : Z) (err : option error) (st' : state),
    RawReadAt f p off st = (Ok (buf, n, err), st') /\
    length buf = length p /\
    0 <= n <= len p /\
    (err = None ->
     skipn (Z.to_nat n) buf = repeat x00 (length p - Z.to_nat n)).
Proof.
  intros Hcount (Hne & Hnn & Hmax & Ho) Hoff Hlen.
  unfold RawReadAt. rewrite Ho. unfold lengths_of.
  destruct (RawReadAt_loop_count (files f) Hcount Hnn Hmax
              (skipn (find (running_offsets 0 (map fe_length (files f))) off)
                     (running_offsets 0 (map fe_length (files f))))
              _ [] p off 0 st eq_refl Hoff ltac:(lia) ltac:(lia))
    as (buf & n & err & st' & Hrun & Hb & Hbl & _ & Hzero).
  exists buf, n, err, st'. split; [exact Hrun|].
  split; [exact Hbl|]. split; [lia|].
  intros He. specialize (Hzero He). simpl in Hzero.
  rewrite Z.sub_0_r in Hzero. rewrite Hzero. f_equal. unfold len. lia.
Qed.

(** *** Handle calls stay inside the declared files *)

Lemma find_start_at_or_before (f : store) (off : Z) :
  store_ok f -> 0 <= off ->
  (find (offsets f) off < length (files f))%nat /\
  sumZ (firstn (find (offsets f) off) (lengths_of f)) <= off.
Proof.
  intros (Hne & Hnn & Hmax & Ho) Hoff.
  assert (Hll : length (lengths_of f) = length (files f))
    by (unfold lengths_of; apply length_map).
  assert (Hpos : (0 < length (files f))%nat)
    by (destruct (files f); [congruence | simpl; lia]).
  destruct (find_spec (offsets f) off) as (A & B & _).
  - rewrite Ho. intro E. apply (f_equal (@length Z)) in E.
    rewrite running_offsets_length in E. simpl in E. lia.
  - rewrite Ho. apply running_offsets_sorted. exact Hnn.
  - rewrite Ho, running_offsets_nth by lia. simpl. lia.
  - rewrite Ho in A, B. rewrite running_offsets_length in A.
    rewrite running_offsets_nth in B by lia. rewrite Ho. split; lia.
Qed.

Lemma RawWriteAt_loop_in_bounds (fes : list entry) :
  WriterAt_count_ok ->
  WriterAt_short_is_error ->
  Forall (fun l => 0 <= l) (map fe_length fes) ->
  sumZ (map fe_length fes) <= max_int64 ->
  forall (rest : list Z) (index : nat) (p : list byte) (off n : Z) (st : state),
    rest = skipn index (running_offsets 0 (map fe_length fes)) ->
    flat_offset off ->
    sumZ (firstn index (map fe_length fes)) <= off ->
    exists evs : list event,
      trace (snd (RawWriteAt_loop fes rest index p off n st)) = trace st ++ evs /\
      Forall (write_in_bounds fes) evs.
Proof.
  intros Hcount Hshort Hnn Hmax. pose proof max_int64_value as Hmv.
  induction rest as [|start rest IH]; intros index p off n st Hrest Hoff Hinv.
  - exists []. rewrite app_nil_r. split; [|constructor].
    destruct p; cbn [RawWriteAt_loop];
      match goal with |- context [first_nonzero ?q] =>
        destruct (first_nonzero q) end; reflexivity.
  - destruct p as [|b p].
    { exists []. rewrite app_nil_r. split; [reflexivity | constructor]. }
    symmetry in Hrest.
    apply (skipn_cons_inv _ _ _ 0) in Hrest.
    destruct Hrest as (Hidx & Hstart & Hrest').
    rewrite running_offsets_length, length_map in Hidx.
    destruct (entry_bounds fes index Hnn Hidx)
      as (en & Hen & Hlen & Hnth & Hs0 & Hend & Hle).
    rewrite Hnth in Hstart.
    cbn [RawWriteAt_loop]. rewrite Hen.
    unfold flat_offset in Hoff.
    assert (Hio : sub64 off start = off - start).
    { apply sub64_id. unfold in_int64. rewrite min_int64_value. lia. }
    rewrite Hio.
    destruct (off - start <? fe_length en) eqn:Hlt.
    2:{ apply Z.ltb_ge in Hlt.
        apply IH; [symmetry; exact Hrest' | exact Hoff | lia]. }
    apply Z.ltb_lt in Hlt.
    assert (Hsp : sub64 (fe_length en) (off - start) = fe_length en - (off - start)).
    { apply sub64_id. unfold in_int64. rewrite min_int64_value. lia. }
    rewrite Hsp.
    set (space := fe_length en - (off - start)).
    set (chunk := if space <? len (b :: p) then space else len (b :: p)).
    assert (Hchunk : 0 < chunk <= space /\ chunk <= len (b :: p) /\
                     (chunk = space \/ chunk = len (b :: p))).
    { unfold chunk, len. simpl length.
      destruct (space <? Z.of_nat (S (length p))) eqn:Hc;
        [apply Z.ltb_lt in Hc | apply Z.ltb_ge in Hc]; unfold space in *; lia. }
    destruct (chunk <? 0) eqn:Hneg; [apply Z.ltb_lt in Hneg; lia|].
    unfold bind at 1, call.
    pose proof (Hcount (fe_file en) (firstn (Z.to_nat chunk) (b :: p))
                  (off - start) (world st)) as Hk.
    pose proof (Hshort (fe_file en) (firstn (Z.to_nat chunk) (b :: p))
                  (off - start) (world st)) as Hfull.
    destruct (file_WriteAt (fe_file en) (firstn (Z.to_nat chunk) (b :: p))
                (off - start) (world st)) as [[k oe] w1].
    simpl in Hk, Hfull.
    assert (Hfl : len (firstn (Z.to_nat chunk) (b :: p)) = chunk).
    { unfold len in *. rewrite length_firstn. lia. }
    assert (Hev : write_in_bounds fes
                    (EvFileWriteAt (fe_file en)
                       (firstn (Z.to_nat chunk) (b :: p)) (off - start)
                     : event)).
    { exists en. split; [eapply nth_error_In; exact Hen|].
      split; [reflexivity|]. rewrite Hfl. unfold space in *. lia. }
    destruct oe as [e|].
    { eexists [_]. split; [reflexivity|]. constructor; [exact Hev | constructor]. }
    specialize (Hfull eq_refl). rewrite Hfl in Hfull. subst k.
    assert (Hb : (chunk <? 0) || (len (b :: p) <? chunk) = false).
    { apply orb_false_iff. split; [apply Z.ltb_ge | apply Z.ltb_ge]; lia. }
    rewrite Hb.
    destruct Hchunk as (Hc1 & Hc2 & [Hcs | Hcl]).
    + edestruct (IH (S index) (skipn (Z.to_nat chunk) (b :: p))
                   (add64 off chunk) (add64 n chunk)
                   (mkSt w1 (trace st ++
                      [EvFileWriteAt (fe_file en)
                         (firstn (Z.to_nat chunk) (b :: p)) (off - start)])))
        as (evs & Ht & Hall).
      { symmetry; exact Hrest'. }
      { unfold flat_offset. rewrite add64_id;
          [|unfold in_int64; rewrite min_int64_value]; unfold space in *; lia. }
      { rewrite add64_id;
          [|unfold in_int64; rewrite min_int64_value]; unfold space in *; lia. }
      eexists (_ :: evs). rewrite Ht. cbn [trace].
      rewrite <- app_assoc. split; [reflexivity|].
      constructor; [exact Hev | exact Hall].
    + assert (Hnil : skipn (Z.to_nat chunk) (b :: p) = []).
      { apply skipn_all2. unfold len in Hcl. lia. }
      rewrite Hnil, RawWriteAt_loop_buffer_done. cbn [snd trace].
      eexists [_]. split; [reflexivity|].
      constructor; [exact Hev | constructor].
Qed.

(** X5: on a well-formed store, for a flat offset that is not negative and
    handles that follow [io.WriterAt] (count in [0 .. len(p)], short count
    only with an error), every call [RawWriteAt] makes is a [WriteAt] on the
    handle of an entry, of at least one byte, at a local offset that is not
    negative, and it ends at or before the declared length of that entry. *)
Theorem RawWriteAt_calls_stay_in_declared_files
    (f : store) (p : list byte) (off : Z) (st : state) :
  WriterAt_count_ok ->
  WriterAt_short_is_error ->
  store_ok f ->
  flat_offset off ->
  exists evs : list event,
    trace (snd (RawWriteAt f p off st)) = trace st ++ evs /\
    Forall (write_in_bounds (files f)) evs.
Proof.
  intros Hcount Hshort Hok Hoff.
  destruct (find_start_at_or_before f off Hok ltac:(unfold flat_offset in Hoff; lia))
    as (_ & Hinv).
  destruct Hok as (Hne & Hnn & Hmax & Ho).
  unfold RawWriteAt. rewrite Ho in *. unfold lengths_of in *.
  apply RawWriteAt_loop_in_bounds; try assumption. reflexivity.
Qed.

Lemma RawReadAt_loop_in_bounds (fes : list entry) :
  ReaderAt_count_ok ->
  ReaderAt_short_is_error ->
  Forall (fun l => 0 <= l) (map fe_length fes) ->
  sumZ (map fe_length fes) <= max_int64 ->
  forall (rest : list Z) (index : nat) (done p : list byte) (off n : Z)
         (st : state),
    rest = skipn index (running_offsets 0 (map fe_length fes)) ->
    flat_offset off ->
    sumZ (firstn index (map fe_length fes)) <= off ->
    exists evs : list event,
      trace (snd (RawReadAt_loop fes rest index done p off n st))
        = trace st ++ evs /\
      Forall (read_in_bounds fes) evs.
Proof.
  intros Hcount Hshort Hnn Hmax. pose proof max_int64_value as Hmv.
  induction rest as [|start rest IH];
    intros index done p off n st Hrest Hoff Hinv.
  - exists []. rewrite app_nil_r. split; [|constructor].
    destruct p; reflexivity.
  - destruct p as [|b p].
    { exists []. rewrite app_nil_r. split; [reflexivity | constructor]. }
    symmetry in Hrest.
    apply (skipn_cons_inv _ _ _ 0) in Hrest.
    destruct Hrest as (Hidx & Hstart & Hrest').
    rewrite running_offsets_length, length_map in Hidx.
    destruct (entry_bounds fes index Hnn Hidx)
      as (en & Hen & Hlen & Hnth & Hs0 & Hend & Hle).
    rewrite Hnth in Hstart.
    cbn [RawReadAt_loop]. rewrite Hen.
    unfold flat_offset in Hoff.
    assert (Hio : sub64 off start = off - start).
    { apply sub64_id. unfold in_int64. rewrite min_int64_value. lia. }
    rewrite Hio.
    destruct (off - start <? fe_length en) eqn:Hlt.
    2:{ apply Z.ltb_ge in Hlt.
        apply IH; [symmetry; exact Hrest' | exact Hoff | lia]. }
    apply Z.ltb_lt in Hlt.
    assert (Hsp : sub64 (fe_length en) (off - start) = fe_length en - (off - start)).
    { apply sub64_id. unfold in_int64. rewrite min_int64_value. lia. }
    rewrite Hsp.
    set (space := fe_length en - (off - start)).
    set (chunk := if space <? len (b :: p) then space else len (b :: p)).
    assert (Hchunk : 0 < chunk <= space /\ chunk <= len (b :: p) /\
                     (chunk = space \/ chunk = len (b :: p))).
    { unfold chunk, len. simpl length.
      destruct (space <? Z.of_nat (S (length p))) eqn:Hc;
        [apply Z.ltb_lt in Hc | apply Z.ltb_ge in Hc]; unfold space in *; lia. }
    destruct (chunk <? 0) eqn:Hneg; [apply Z.ltb_lt in Hneg; lia|].
    unfold bind at 1, call.
    pose proof (Hcount (fe_file en) (firstn (Z.to_nat chunk) (b :: p))
                  (off - start) (world st)) as Hk.
    pose proof (Hshort (fe_file en) (firstn (Z.to_nat chunk) (b :: p))
                  (off - start) (world st)) as Hfull.
    destruct (file_ReadAt (fe_file en) (firstn (Z.to_nat chunk) (b :: p))
                (off - start) (world st)) as [[[out k] oe] w1].
    simpl in Hk, Hfull.
    set (p1 := overwrite (firstn (Z.to_nat chunk) (b :: p)) out
               ++ skipn (Z.to_nat chunk) (b :: p)).
    assert (Hp1 : length p1 = length (b :: p)).
    { unfold p1. rewrite length_app, overwrite_length, <- length_app,
        firstn_skipn. reflexivity. }
    assert (Hfl : len (firstn (Z.to_nat chunk) (b :: p)) = chunk).
    { unfold len in *. rewrite length_firstn. lia. }
    assert (Hev : read_in_bounds fes
                    (EvFileReadAt (fe_file en) (Z.to_nat chunk) (off - start)
                     : event)).
    { exists en. split; [eapply nth_error_In; exact Hen|].
      split; [reflexivity|]. unfold space in *. lia. }
    destruct oe as [e|].
    { eexists [_]. split; [reflexivity|]. constructor; [exact Hev | constructor]. }
    specialize (Hfull eq_refl). rewrite Hfl in Hfull. subst k.
    assert (Hb : (chunk <? 0) || (len p1 <? chunk) = false).
    { apply orb_false_iff. unfold len. rewrite Hp1. fold (len (b :: p)).
      split; [apply Z.ltb_ge | apply Z.ltb_ge]; lia. }
    rewrite Hb.
    destruct Hchunk as (Hc1 & Hc2 & [Hcs | Hcl]).
    + match goal with
      | |- context [RawReadAt_loop fes rest ?i ?d ?q ?o ?m ?s] =>
          destruct (IH i d q o m s) as (evs & Ht & Hall)
      end.
      { symmetry; exact Hrest'. }
      { unfold flat_offset. rewrite add64_id;
          [|unfold in_int64; rewrite min_int64_value]; unfold space in *; lia. }
      { rewrite add64_id;
          [|unfold in_int64; rewrite min_int64_value]; unfold space in *; lia. }
      eexists (_ :: evs). rewrite Ht. cbn [trace].
      rewrite <- app_assoc. split; [reflexivity|].
      constructor; [exact Hev | exact Hall].
    + assert (Hnil : skipn (Z.to_nat chunk) p1 = []).
      { apply skipn_all2. rewrite Hp1. unfold len in Hcl. lia. }
      rewrite Hnil, RawReadAt_loop_buffer_done. cbn [snd trace].
      eexists [_]. split; [reflexivity|].
      constructor; [exact Hev | constructor].
Qed.

(** X6: on a well-formed store, for a flat offset that is not negative and
    handles that follow [io.ReaderAt] (count in [0 .. len(p)], short count
    only with an error), every call [RawReadAt] makes is a [ReadAt] on the
    handle of an entry, of at least one byte, at a local offset that is not
    negative, and it ends at or before the declared length of that entry. *)
Theorem RawReadAt_calls_stay_in_declared_files
    (f : store) (p : list byte) (off : Z) (st : state) :
  ReaderAt_count_ok ->
  ReaderAt_short_is_error ->
  store_ok f ->
  flat_offset off ->
  exists evs : list event,
    trace (snd (RawReadAt f p off st)) = trace st ++ evs /\
    Forall (read_in_bounds (files f)) evs.
Proof.
  intros Hcount Hshort Hok Hoff.
  destruct (find_start_at_or_before f off Hok ltac:(unfold flat_offset in Hoff; lia))
    as (_ & Hinv).
  destruct Hok as (Hne & Hnn & Hmax & Ho).
  unfold RawReadAt. rewrite Ho in *. unfold lengths_of in *.
  apply RawReadAt_loop_in_bounds; try assumption. reflexivity.
Qed.

(** *** Requests that touch one entry *)

(** An offset inside an entry: where the lookup and the walk start. *)
Lemma entry_located (f : store) (k : nat) (en : entry) (off : Z) :
  store_ok f ->
  nth_error (files f) k = Some en ->
  nth k (offsets f) 0 <= off < nth k (offsets f) 0 + fe_length en ->
  find (offsets f) off = k /\
  skipn k (offsets f) = nth k (offsets f) 0 :: skipn (S k) (offsets f) /\
  0 <= nth k (offsets f) 0 /\
  nth k (offsets f) 0 + fe_length en <= totalSize_of f /\
  totalSize_of f <= max_int64 /\
  (S k = length (files f) ->
   nth k (offsets f) 0 + fe_length en = totalSize_of f /\
   skipn (S k) (offsets f) = []).
Proof.
  intros (Hne & Hnn & Hmax & Ho) Hen Hin.
  assert (Hk : (k < length (files f))%nat)
    by (apply nth_error_Some; rewrite Hen; discriminate).
  destruct (entry_bounds (files f) k Hnn Hk)
    as (en' & Hen' & Hl & Hn & Hs & Hend & Hle).
  rewrite Hen in Hen'. injection Hen' as <-.
  fold (lengths_of f) in Hn, Hs, Hend, Hle.
  assert (Hll : length (lengths_of f) = length (files f))
    by (unfold lengths_of; apply length_map).
  rewrite Ho in *. rewrite Hn in *. unfold totalSize_of.
  split; [apply find_in_entry; try assumption; lia|].
  split.
  { rewrite (skipn_nth_cons _ k 0) by (rewrite running_offsets_length; lia).
    rewrite Hn. reflexivity. }
  split; [lia|]. split; [lia|]. split; [exact Hmax|].
  intros Hlast. split.
  - rewrite Hend, Hlast, <- Hll, firstn_all. reflexivity.
  - apply skipn_all2. rewrite running_offsets_length. lia.
Qed.

(** One turn of the read loop when the handle reports an error. *)
Lemma RawReadAt_loop_error_step (fes : list entry) (start : Z) (rest : list Z)
    (index : nat) (done p : list byte) (off n : Z) (st : state)
    (en : entry) (chunk k : Z) (out : list byte) (e : error) (w1 : World) :
  nth_error fes index = Some en ->
  p <> [] ->
  0 <= start <= off ->
  off <= max_int64 ->
  off - start < fe_length en ->
  fe_length en <= max_int64 ->
  chunk = Z.min (fe_length en - (off - start)) (len p) ->
  file_ReadAt (fe_file en) (firstn (Z.to_nat chunk) p) (off - start) (world st)
    = ((out, k, Some e), w1) ->
  RawReadAt_loop fes (start :: rest) index done p off n st =
  (Ok (done ++ overwrite (firstn (Z.to_nat chunk) p) out
            ++ skipn (Z.to_nat chunk) p,
       add64 n k, Some e),
   mkSt w1 (trace st ++
              [EvFileReadAt (fe_file en) (Z.to_nat chunk) (off - start)])).
Proof.
  intros Hen Hp Hso Hom Hlt Hlmax Hchunk Hcall.
  pose proof max_int64_value as Hmv.
  destruct p as [|x p]; [congruence|].
  assert (Hlp : 0 < len (x :: p)) by (unfold len; simpl length; lia).
  cbn [RawReadAt_loop]. rewrite Hen.
  rewrite (sub64_id off start)
    by (unfold in_int64; rewrite min_int64_value; lia).
  apply Z.ltb_lt in Hlt. rewrite Hlt. apply Z.ltb_lt in Hlt.
  rewrite sub64_id by (unfold in_int64; rewrite min_int64_value; lia).
  assert (Hc : (if fe_length en - (off - start) <? len (x :: p)
                then fe_length en - (off - start) else len (x :: p)) = chunk).
  { rewrite Hchunk.
    destruct (fe_length en - (off - start) <? len (x :: p)) eqn:E;
      [apply Z.ltb_lt in E | apply Z.ltb_ge in E]; lia. }
  rewrite Hc.
  destruct (chunk <? 0) eqn:Hneg; [apply Z.ltb_lt in Hneg; lia|].
  unfold bind, call. rewrite Hcall. reflexivity.
Qed.

(** The same turn of the write loop. *)
Lemma RawWriteAt_loop_error_step (fes : list entry) (start : Z) (rest : list Z)
    (index : nat) (p : list byte) (off n : Z) (st : state)
    (en : entry) (chunk k : Z) (e : error) (w1 : World) :
  nth_error fes index = Some en ->
  p <> [] ->
  0 <= start <= off ->
  off <= max_int64 ->
  off - start < fe_length en ->
  fe_length en <= max_int64 ->
  chunk = Z.min (fe_length en - (off - start)) (len p) ->
  file_WriteAt (fe_file en) (firstn (Z.to_nat chunk) p) (off - start) (world st)
    = ((k, Some e), w1) ->
  RawWriteAt_loop fes (start :: rest) index p off n st =
  (Ok (add64 n k, Some e),
   mkSt w1 (trace st ++
              [EvFileWriteAt (fe_file en) (firstn (Z.to_nat chunk) p)
                             (off - start)])).
Proof.
  intros Hen Hp Hso Hom Hlt Hlmax Hchunk Hcall.
  pose proof max_int64_value as Hmv.
  destruct p as [|x p]; [congruence|].
  assert (Hlp : 0 < len (x :: p)) by (unfold len; simpl length; lia).
  cbn [RawWriteAt_loop]. rewrite Hen.
  rewrite (sub64_id off start)
    by (unfold in_int64; rewrite min_int64_value; lia).
  apply Z.ltb_lt in Hlt. rewrite Hlt. apply Z.ltb_lt in Hlt.
  rewrite sub64_id by (unfold in_int64; rewrite min_int64_value; lia).
  assert (Hc : (if fe_length en - (off - start) <? len (x :: p)
                then fe_length en - (off - start) else len (x :: p)) = chunk).
  { rewrite Hchunk.
    destruct (fe_length en - (off - start) <? len (x :: p)) eqn:E;
      [apply Z.ltb_lt in E | apply Z.ltb_ge in E]; lia. }
  rewrite Hc.
  destruct (chunk <? 0) eqn:Hneg; [apply Z.ltb_lt in Hneg; lia|].
  unfold bind, call. rewrite Hcall. reflexivity.
Qed.

(** X7: when the handle of the entry that holds the offset reports an error,
    [RawReadAt] stops there: no other handle is called, the error is
    returned with the count the handle reported, and the bytes of the
    buffer past the clamped chunk are left as they were (not zeroed). *)
Theorem RawReadAt_handle_error_stops_the_read
    (f : store) (k : nat) (en : entry) (p : list byte) (off : Z) (st : state)
    (out : list byte) (n1 : Z) (e : error) (w1 : World) :
  store_ok f ->
  nth_error (files f) k = Some en ->
  p <> [] ->
  nth k (offsets f) 0 <= off < nth k (offsets f) 0 + fe_length en ->
  in_int64 n1 ->
  let a := nth k (offsets f) 0 in
  let c := Z.to_nat (Z.min (a + fe_length en - off) (len p)) in
  file_ReadAt (fe_file en) (firstn c p) (off - a) (world st)
    = ((out, n1, Some e), w1) ->
  RawReadAt f p off st =
  (Ok (overwrite (firstn c p) out ++ skipn c p, n1, Some e),
   mkSt w1 (trace st ++ [EvFileReadAt (fe_file en) c (off - a)])).
Proof.
  intros Hok Hen Hp Hin Hn1 a c Hcall.
  destruct (entry_located f k en off Hok Hen Hin)
    as (Hfind & Hskip & Ha & Hend & Hmax & _).
  fold a in Hin, Hskip, Ha, Hend.
  unfold RawReadAt. rewrite Hfind, Hskip.
  rewrite (RawReadAt_loop_error_step (files f) a _ k [] p off 0 st en
             (Z.min (a + fe_length en - off) (len p)) n1 out e w1);
    try assumption; try lia.
  fold c. rewrite add64_id by (simpl; exact Hn1). reflexivity.
Qed.

(** X8: when the handle of the entry that holds the offset reports an error,
    [RawWriteAt] stops there: no other handle is called and the bytes left
    over are not checked; the error is returned with the count the handle
    reported. *)
Theorem RawWriteAt_handle_error_stops_the_write
    (f : store) (k : nat) (en : entry) (p : list byte) (off : Z) (st : state)
    (n1 : Z) (e : error) (w1 : World) :
  store_ok f ->
  nth_error (files f) k = Some en ->
  p <> [] ->
  nth k (offsets f) 0 <= off < nth k (offsets f) 0 + fe_length en ->
  in_int64 n1 ->
  let a := nth k (offsets f) 0 in
  let c := Z.to_nat (Z.min (a + fe_length en - off) (len p)) in
  file_WriteAt (fe_file en) (firstn c p) (off - a) (world st)
    = ((n1, Some e), w1) ->
  RawWriteAt f p off st =
  (Ok (n1, Some e),
   mkSt w1 (trace st ++ [EvFileWriteAt (fe_file en) (firstn c p) (off - a)])).
Proof.
  intros Hok Hen Hp Hin Hn1 a c Hcall.
  destruct (entry_located f k en off Hok Hen Hin)
    as (Hfind & Hskip & Ha & Hend & Hmax & _).
  fold a in Hin, Hskip, Ha, Hend.
  unfold RawWriteAt. rewrite Hfind, Hskip.
  rewrite (RawWriteAt_loop_error_step (files f) a _ k p off 0 st en
             (Z.min (a + fe_length en - off) (len p)) n1 e w1);
    try assumption; try lia.
  fold c. rewrite add64_id by (simpl; exact Hn1). reflexivity.
Qed.

(** X9: a raw read or write that fits inside one entry calls the handle of
    that entry for the whole buffer at local offset [off - start].  When the
    reply of the handle is an error, or no error with the full count (what
    [io.ReaderAt] and [io.WriterAt] allow), this is the only call: the
    count and the error of the handle are returned as they are, and no byte
    is zero-filled or checked. *)
Theorem raw_access_within_one_file
    (f : store) (k : nat) (en : entry) (p : list byte) (off : Z) (st : state) :
  store_ok f ->
  nth_error (files f) k = Some en ->
  p <> [] ->
  nth k (offsets f) 0 <= off ->
  off + len p <= nth k (offsets f) 0 + fe_length en ->
  let a := nth k (offsets f) 0 in
  (forall (out : list byte) (n1 : Z) (err : option error) (w1 : World),
     file_ReadAt (fe_file en) p (off - a) (world st) = ((out, n1, err), w1) ->
     (err = None -> n1 = len p) ->
     in_int64 n1 ->
     RawReadAt f p off st =
     (Ok (overwrite p out, n1, err),
      mkSt w1 (trace st ++ [EvFileReadAt (fe_file en) (length p) (off - a)]))) /\
  (forall (n1 : Z) (err : option error) (w1 : World),
     file_WriteAt (fe_file en) p (off - a) (world st) = ((n1, err), w1) ->
     (err = None -> n1 = len p) ->
     in_int64 n1 ->
     RawWriteAt f p off st =
     (Ok (n1, err),
      mkSt w1 (trace st ++ [EvFileWriteAt (fe_file en) p (off - a)]))).
Proof.
  intros Hok Hen Hp Hlo Hhi a.
  pose proof max_int64_value as Hmv.
  assert (Hlp : 0 < len p).
  { destruct p; [congruence | unfold len; simpl length; lia]. }
  destruct (entry_located f k en off Hok Hen ltac:(lia))
    as (Hfind & Hskip & Ha & Hend & Hmax & _).
  fold a in Hlo, Hhi, Hskip, Ha, Hend.
  assert (Hc : Z.to_nat (len p) = length p) by (unfold len; lia).
  assert (Hfull : firstn (length p) p = p) by apply firstn_all.
  assert (Hnone : skipn (length p) p = []) by apply skipn_all.
  assert (Hcount : add64 0 (len p) = len p)
    by (apply add64_id; unfold in_int64; rewrite min_int64_value; lia).
  split.
  - intros out n1 [e|] w1 H1 Hcontract Hn1.
    + unfold RawReadAt. rewrite Hfind, Hskip.
      rewrite (RawReadAt_loop_error_step (files f) a _ k [] p off 0 st en
                 (len p) n1 out e w1); try assumption; try lia.
      * rewrite Hc, Hnone, Hfull, app_nil_r.
        rewrite add64_id by (simpl; exact Hn1). reflexivity.
      * rewrite Hc, Hfull. exact H1.
    + rewrite (Hcontract eq_refl) in *.
      unfold RawReadAt. rewrite Hfind, Hskip.
      rewrite (RawReadAt_loop_step (files f) a _ k [] p off 0 st en
                 (len p) out w1); try assumption; try lia.
      * rewrite Hc, Hnone, RawReadAt_loop_buffer_done, Hfull, Hcount.
        reflexivity.
      * rewrite Hc, Hfull. exact H1.
  - intros n1 [e|] w1 H1 Hcontract Hn1.
    + unfold RawWriteAt. rewrite Hfind, Hskip.
      rewrite (RawWriteAt_loop_error_step (files f) a _ k p off 0 st en
                 (len p) n1 e w1); try assumption; try lia.
      * rewrite Hc, Hfull.
        rewrite add64_id by (simpl; exact Hn1). reflexivity.
      * rewrite Hc, Hfull. exact H1.
    + rewrite (Hcontract eq_refl) in *.
      unfold RawWriteAt. rewrite Hfind, Hskip.
      rewrite (RawWriteAt_loop_step (files f) a _ k p off 0 st en
                 (len p) w1); try assumption; try lia.
      * rewrite Hc, Hnone, RawWriteAt_loop_buffer_done, Hfull, Hcount.
        rewrite add64_id
          by (unfold in_int64; rewrite min_int64_value; lia).
        rewrite Z.add_0_r. reflexivity.
      * rewrite Hc, Hfull. exact H1.
Qed.

(** *** Requests that run off the end of the store *)

(** X10: a raw read that starts inside the last entry and runs past the
    total size reads the rest of the last file in one call and fills the
    remainder of the buffer with zeros; the count is the number of bytes
    read from the file, and no error is reported. *)
Theorem RawReadAt_across_end_of_store
    (f : store) (en : entry) (p : list byte) (off : Z) (st : state)
    (out : list byte) (w1 : World) :
  store_ok f ->
  nth_error (files f) (length (files f) - 1) = Some en ->
  totalSize_of f - fe_length en <= off < totalSize_of f ->
  totalSize_of f < off + len p ->
  let c := Z.to_nat (totalSize_of f - off) in
  let local := off - (totalSize_of f - fe_length en) in
  file_ReadAt (fe_file en) (firstn c p) local (world st)
    = ((out, totalSize_of f - off, None), w1) ->
  RawReadAt f p off st =
  (Ok (overwrite (firstn c p) out ++ repeat x00 (length p - c),
       totalSize_of f - off, None),
   mkSt w1 (trace st ++ [EvFileReadAt (fe_file en) c local])).
Proof.
  intros Hok Hen Hin Hpast c local Hcall.
  pose proof max_int64_value as Hmv.
  assert (Hk : (length (files f) - 1 < length (files f))%nat)
    by (apply nth_error_Some; rewrite Hen; discriminate).
  destruct (entry_bounds (files f) _ (proj1 (proj2 Hok)) Hk)
    as (en' & Hen' & Hl & Hn & Hs & Hend & Hle).
  rewrite Hen in Hen'. injection Hen' as <-.
  assert (Hstart : nth (length (files f) - 1) (offsets f) 0
                   = totalSize_of f - fe_length en).
  { destruct Hok as (_ & _ & _ & Ho). rewrite Ho. unfold lengths_of.
    rewrite Hn. unfold totalSize_of, lengths_of.
    replace (S (length (files f) - 1)) with (length (map fe_length (files f)))
      in Hend by (rewrite length_map; lia).
    rewrite firstn_all in Hend. lia. }
  destruct (entry_located f _ en off Hok Hen ltac:(rewrite Hstart; lia))
    as (Hfind & Hskip & Ha & Hend' & Hmax & Hlast).
  destruct (Hlast ltac:(lia)) as (_ & Hnil).
  rewrite Hstart in Hskip, Ha. rewrite Hnil in Hskip.
  assert (Hpne : p <> []).
  { intro E. subst p. unfold len in Hpast. simpl in Hpast. lia. }
  assert (Hcl : (c < length p)%nat) by (unfold c, len in *; lia).
  unfold RawReadAt. rewrite Hfind, Hskip.
  rewrite (RawReadAt_loop_step (files f) _ [] _ [] p off 0 st en
             (totalSize_of f - off) out w1); try assumption; try lia.
  fold c local. cbn [RawReadAt_loop].
  assert (Hrest : exists y q, skipn c p = y :: q).
  { destruct (skipn c p) as [|y q] eqn:E; [|eauto].
    apply (f_equal (@length byte)) in E. rewrite length_skipn in E.
    simpl in E. lia. }
  destruct Hrest as (y & q & Hrest). rewrite Hrest. cbn [app].
  rewrite <- Hrest, length_skipn.
  rewrite add64_id by (unfold in_int64; rewrite min_int64_value; lia).
  reflexivity.
Qed.

(** X11: a raw write that starts inside the last entry and runs past the
    total size writes the rest of the last file in one call and then checks
    the bytes left over: all zero, it accepts the whole buffer; otherwise it
    fails with the "non-zero data" error and the count is the bytes written
    to the file plus the zero bytes before the first non-zero one. *)
Theorem RawWriteAt_across_end_of_store
    (f : store) (en : entry) (p : list byte) (off : Z) (st : state)
    (w1 : World) :
  store_ok f ->
  nth_error (files f) (length (files f) - 1) = Some en ->
  totalSize_of f - fe_length en <= off < totalSize_of f ->
  totalSize_of f < off + len p ->
  off + len p <= max_int64 ->
  let c := Z.to_nat (totalSize_of f - off) in
  let local := off - (totalSize_of f - fe_length en) in
  file_WriteAt (fe_file en) (firstn c p) local (world st)
    = ((totalSize_of f - off, None), w1) ->
  RawWriteAt f p off st =
  (Ok match first_nonzero (skipn c p) with
      | Some j => (totalSize_of f - off + Z.of_nat j, Some ErrNonZeroTrailing)
      | None => (len p, None)
      end,
   mkSt w1 (trace st ++ [EvFileWriteAt (fe_file en) (firstn c p) local])).
Proof.
  intros Hok Hen Hin Hpast Hfit c local Hcall.
  pose proof max_int64_value as Hmv.
  assert (Hk : (length (files f) - 1 < length (files f))%nat)
    by (apply nth_error_Some; rewrite Hen; discriminate).
  destruct (entry_bounds (files f) _ (proj1 (proj2 Hok)) Hk)
    as (en' & Hen' & Hl & Hn & Hs & Hend & Hle).
  rewrite Hen in Hen'. injection Hen' as <-.
  assert (Hstart : nth (length (files f) - 1) (offsets f) 0
                   = totalSize_of f - fe_length en).
  { destruct Hok as (_ & _ & _ & Ho). rewrite Ho. unfold lengths_of.
    rewrite Hn. unfold totalSize_of, lengths_of.
    replace (S (length (files f) - 1)) with (length (map fe_length (files f)))
      in Hend by (rewrite length_map; lia).
    rewrite firstn_all in Hend. lia. }
  destruct (entry_located f _ en off Hok Hen ltac:(rewrite Hstart; lia))
    as (Hfind & Hskip & Ha & Hend' & Hmax & Hlast).
  destruct (Hlast ltac:(lia)) as (_ & Hnil).
  rewrite Hstart in Hskip, Ha. rewrite Hnil in Hskip.
  assert (Hpne : p <> []).
  { intro E. subst p. unfold len in Hpast. simpl in Hpast. lia. }
  assert (Hcl : (c < length p)%nat) by (unfold c, len in *; lia).
  unfold RawWriteAt. rewrite Hfind, Hskip.
  rewrite (RawWriteAt_loop_step (files f) _ [] _ p off 0 st en
             (totalSize_of f - off) w1); try assumption; try lia.
  fold c local.
  assert (Hrun : forall (q : list byte) (i0 : nat) (o m : Z) (s : state),
             RawWriteAt_loop (files f) [] i0 q o m s =
             match first_nonzero q with
             | Some j => (Ok (add64 m (Z.of_nat j), Some ErrNonZeroTrailing), s)
             | None => (Ok (add64 m (len q), None), s)
             end).
  { intros q i0 o m s. destruct q; cbn [RawWriteAt_loop];
      match goal with |- context [first_nonzero ?r] =>
        destruct (first_nonzero r) end; reflexivity. }
  rewrite Hrun.
  assert (Hsl : len (skipn c p) = len p - (totalSize_of f - off)).
  { unfold len. rewrite length_skipn. unfold c, len in *. lia. }
  rewrite (add64_id 0) by (unfold in_int64; rewrite min_int64_value; lia).
  destruct (first_nonzero (skipn c p)) as [j|] eqn:Ej.
  - apply first_nonzero_lt in Ej. unfold len in Hsl.
    rewrite add64_id
      by (unfold in_int64, len in *; rewrite min_int64_value; lia).
    reflexivity.
  - rewrite Hsl.
    rewrite add64_id
      by (unfold in_int64, len in *; rewrite min_int64_value; lia).
    do 3 f_equal. lia.
Qed.

(** X12: without a cache, [ReadAt] at or past the total size touches no
    handle: it returns the buffer filled with zeros, no error, and the
    count 0 whatever the length of the buffer. *)
Theorem ReadAt_without_cache_past_end
    (f : store) (p : list byte) (off : Z) (st : state) :
  cache f = None ->
  store_ok f ->
  totalSize_of f <= off <= max_int64 ->
  ReadAt f p off st =
  (Ok (mkReadResult (repeat x00 (length p)) [] 0 None), st).
Proof.
  intros Hc Hok Hoff. unfold ReadAt. rewrite Hc. unfold bind.
  rewrite RawReadAt_past_end_run by assumption. reflexivity.
Qed.

(** *** Construction and teardown, continued *)

Lemma NewFileStore_loop_all_opened (fsys : FileSystem) (srcs : list FileDict) :
  forall (offs_acc : list Z) (files_acc : list entry) (total : Z) (st : state)
         (hs : list File) (w' : World),
    opens_succeed fsys srcs (world st) = Some (hs, w') ->
    exists (offs : list Z) (ts : Z),
      NewFileStore_loop fsys srcs offs_acc files_acc total st =
      (Ok (Some (mkFileStore fsys (offs_acc ++ offs)
                   (files_acc ++ entries_of (map fd_Length srcs) hs) None),
           ts, None),
       mkSt w' (trace st ++ map (open_event fsys) srcs)) /\
      length offs = length srcs.
Proof.
  induction srcs as [|src srcs IH];
    intros offs_acc files_acc total st hs w' Hop; simpl in Hop.
  - injection Hop as <- <-. exists [], total. simpl. unfold ret.
    rewrite !app_nil_r. destruct st; split; reflexivity.
  - destruct (fs_Open fsys (fd_Path src) (fd_Length src) (world st))
      as [[h [e|]] w1] eqn:Eopen; [discriminate|].
    destruct (opens_succeed fsys srcs w1) as [[hs1 w2]|] eqn:Erest;
      [|discriminate].
    injection Hop as <- <-.
    simpl. unfold bind at 1, call. rewrite Eopen.
    edestruct (IH (offs_acc ++ [total])
                 (files_acc ++ [mkFileEntry (fd_Length src) h])
                 (add64 total (fd_Length src))
                 (mkSt w1 (trace st ++ [EvOpen fsys (fd_Path src) (fd_Length src)])))
      as (offs & ts & Hrun & Hlen); [exact Erest|].
    exists (total :: offs), ts. rewrite Hrun. simpl.
    rewrite <- !app_assoc. split; [reflexivity|]. rewrite Hlen. reflexivity.
Qed.

(** X13: [NewFileStore] fails only through a failed open.  When every open
    succeeds it returns a store and no error: the files were opened in
    declaration order, each once with its declared path and length, and
    nothing else was called; the entries hold the handles in that order
    with the declared lengths, there are as many offsets as entries, and no
    cache is attached. *)
Theorem NewFileStore_succeeds_when_opens_succeed
    (info : InfoDict) (fsys : FileSystem) (st : state)
    (hs : list File) (w' : World) :
  opens_succeed fsys (declared_files info) (world st) = Some (hs, w') ->
  exists (f : store) (ts : Z),
    NewFileStore info fsys st =
    (Ok (Some f, ts, None),
     mkSt w' (trace st ++ map (open_event fsys) (declared_files info))) /\
    map fe_file (files f) = hs /\
    lengths_of f = map fd_Length (declared_files info) /\
    length (offsets f) = length (files f) /\
    cache f = None /\
    fileSystem f = fsys.
Proof.
  intros Hop. rewrite NewFileStore_unfold.
  destruct (NewFileStore_loop_all_opened fsys _ [] [] 0 st hs w' Hop)
    as (offs & ts & Hrun & Hlen).
  pose proof (opens_succeed_length _ _ _ _ _ Hop) as Hhs.
  assert (Hl : length hs = length (map fd_Length (declared_files info)))
    by (rewrite length_map; exact Hhs).
  eexists; exists ts. split; [exact Hrun|]. unfold lengths_of. simpl.
  split; [apply entries_of_files; exact Hl|].
  split; [apply entries_of_lengths; exact Hl|].
  split; [|split; reflexivity].
  rewrite Hlen, <- (length_map fe_file), entries_of_files by exact Hl.
  symmetry. exact Hhs.
Qed.

Lemma NewFileStore_loop_failure_total (fsys : FileSystem) (pre : list FileDict) :
  forall (d : FileDict) (post : list FileDict)
         (offs_acc : list Z) (files_acc : list entry) (total : Z) (st : state)
         (hs : list File) (w1 w2 : World) (h : File) (e : error),
    opens_succeed fsys pre (world st) = Some (hs, w1) ->
    fs_Open fsys (fd_Path d) (fd_Length d) w1 = ((h, Some e), w2) ->
    Forall (fun l => 0 <= l) (map fd_Length pre) ->
    0 <= total ->
    total + sumZ (map fd_Length pre) <= max_int64 ->
    fst (NewFileStore_loop fsys (pre ++ d :: post) offs_acc files_acc total st)
    = Ok (None, total + sumZ (map fd_Length pre), Some e).
Proof.
  pose proof max_int64_value as Hmv.
  induction pre as [|src pre IH];
    intros d post offs_acc files_acc total st hs w1 w2 h e Hop Hfail Hnn Ht Hmax.
  - simpl in Hop. injection Hop as <- <-.
    simpl. unfold bind at 1, call. rewrite Hfail.
    unfold bind. rewrite close_files_run. unfold ret. simpl.
    rewrite Z.add_0_r. reflexivity.
  - simpl in Hop. simpl map in Hnn, Hmax. rewrite sumZ_cons in Hmax.
    inversion Hnn as [|? ? Hl Hnn']; subst.
    pose proof (sumZ_nonneg _ Hnn') as Hs.
    destruct (fs_Open fsys (fd_Path src) (fd_Length src) (world st))
      as [[h0 [e0|]] w0] eqn:Eopen; [discriminate|].
    destruct (opens_succeed fsys pre w0) as [[hs0 w0']|] eqn:Erest;
      [|discriminate].
    injection Hop as <- <-.
    cbn [app NewFileStore_loop]. unfold bind at 1, call. rewrite Eopen.
    rewrite add64_id by (unfold in_int64; rewrite min_int64_value; lia).
    rewrite (IH d post _ _ _ _ hs0 w0' w2 h e); try assumption; try lia.
    simpl map. rewrite sumZ_cons. do 3 f_equal. lia.
Qed.

(** X14: when an open fails, the total size [NewFileStore] returns beside
    the error is the sum of the lengths of the files opened before the
    failure, not 0 and not the declared total. *)
Theorem NewFileStore_failure_returns_partial_total
    (info : InfoDict) (fsys : FileSystem) (st : state)
    (pre post : list FileDict) (d : FileDict)
    (hs : list File) (w1 w2 : World) (h : File) (e : error) :
  Files info = pre ++ d :: post ->
  opens_succeed fsys pre (world st) = Some (hs, w1) ->
  fs_Open fsys (fd_Path d) (fd_Length d) w1 = ((h, Some e), w2) ->
  Forall (fun l => 0 <= l) (map fd_Length pre) ->
  sumZ (map fd_Length pre) <= max_int64 ->
  fst (NewFileStore info fsys st)
  = Ok (None, sumZ (map fd_Length pre), Some e).
Proof.
  intros Hfiles Hop Hfail Hnn Hmax.
  rewrite NewFileStore_unfold.
  assert (Hd : declared_files info = pre ++ d :: post).
  { unfold declared_files. rewrite Hfiles. destruct pre; reflexivity. }
  rewrite Hd.
  rewrite (NewFileStore_loop_failure_total fsys pre d post [] [] 0 st
             hs w1 w2 h e); try assumption; try lia.
  reflexivity.
Qed.

(** X15: [Close] does not guard against a second call.  Closing a store
    twice closes every file handle twice, in order each time; the cache is
    closed by the first call only, the second finds the cache field
    cleared; both calls report no error. *)
Theorem Close_twice_closes_handles_twice (f : store) (st : state) :
  bind (Close f) (fun r => Close (fst r)) st =
  (Ok (SetCache f None, None),
   match cache f with
   | Some c =>
       mkSt (closes (map fe_file (files f))
               (snd (cache_Close c (closes (map fe_file (files f)) (world st)))))
            (trace st ++ map EvFileClose (map fe_file (files f))
                      ++ [EvCacheClose c]
                      ++ map EvFileClose (map fe_file (files f)))
   | None =>
       mkSt (closes (map fe_file (files f))
               (closes (map fe_file (files f)) (world st)))
            (trace st ++ map EvFileClose (map fe_file (files f))
                      ++ map EvFileClose (map fe_file (files f)))
   end).
Proof.
  unfold bind at 1. unfold Close at 1. unfold bind at 1.
  rewrite close_files_run.
  destruct f as [fsys offs fes [c|]]; cbn [cache files].
  - unfold bind at 1, call. cbn [world trace].
    destruct (cache_Close c (closes (map fe_file fes) (world st))) as [r w].
    unfold ret at 1. cbn [fst snd]. unfold Close, SetCache. cbn [cache files].
    unfold bind. rewrite close_files_run. unfold ret. cbn [world trace].
    rewrite <- !app_assoc. reflexivity.
  - unfold ret at 1. cbn [fst]. unfold Close. cbn [cache files].
    unfold bind. rewrite close_files_run. unfold ret. cbn [world trace].
    rewrite <- !app_assoc. reflexivity.
Qed.

(** *** What the cache-aware accessors call *)

Lemma forallb_file_reads_no_log (evs : list event) :
  forallb is_EvFileReadAt evs = true ->
  forallb is_read_or_log evs = true /\ filter is_EvLog evs = [].
Proof.
  induction evs as [|e evs IH]; intros H; [split; reflexivity|].
  simpl in H. apply andb_true_iff in H. destruct H as (He & Hrest).
  destruct (IH Hrest) as (A & B).
  destruct e; simpl in He; try discriminate. simpl. split; assumption.
Qed.

Lemma WriteAt_loop_trace (f : store) (chunks : list chunk) :
  forall st : state,
  exists evs : list event,
    trace (snd (WriteAt_loop f chunks st)) = trace st ++ evs /\
    forallb is_EvFileWriteAt evs = true.
Proof.
  induction chunks as [|nc chunks IH]; intros st.
  - exists []. rewrite app_nil_r. split; reflexivity.
  - cbn [WriteAt_loop]. unfold bind.
    destruct (RawWriteAt_trace f (data nc) (i nc) st) as (evs1 & Ht1 & Hall1).
    destruct (RawWriteAt f (data nc) (i nc) st) as [[r|v] st1]; simpl in Ht1.
    + destruct (IH st1) as (evs2 & Ht2 & Hall2).
      exists (evs1 ++ evs2). rewrite Ht2, Ht1, app_assoc.
      split; [reflexivity|]. rewrite forallb_app, Hall1, Hall2. reflexivity.
    + exists evs1. split; assumption.
Qed.

(** X16: with a cache attached, [WriteAt] calls the cache's [WriteAt] once,
    first, with the caller's buffer and offset; every call after it is a
    [WriteAt] on a file handle.  It never calls [MarkCommitted], never
    reads and never closes, whether it returns or panics. *)
Theorem WriteAt_with_cache_calls
    (f : store) (c : Cache) (p : list byte) (off : Z) (st : state) :
  cache f = Some c ->
  exists evs : list event,
    trace (snd (WriteAt f p off st))
      = trace st ++ EvCacheWriteAt c p off :: evs /\
    forallb is_EvFileWriteAt evs = true.
Proof.
  intros Hc. rewrite (WriteAt_with_cache f c p off st Hc).
  destruct (WriteAt_loop_trace f (fst (cache_WriteAt c p off (world st)))
              (mkSt (snd (cache_WriteAt c p off (world st)))
                    (trace st ++ [EvCacheWriteAt c p off])))
    as (evs & Ht & Hall).
  exists evs. split; [|exact Hall].
  destruct (WriteAt_loop f _ _) as [[u|v] s]; simpl in *;
    rewrite Ht, <- app_assoc; reflexivity.
Qed.

Lemma ReadAt_loop_trace (f : store) (unf : list chunk) :
  forall (retErr : option error) (st : state),
  exists evs : list event,
    trace (snd (ReadAt_loop f unf retErr st)) = trace st ++ evs /\
    forallb is_read_or_log evs = true.
Proof.
  induction unf as [|u unf IH]; intros retErr st.
  - exists []. rewrite app_nil_r. split; reflexivity.
  - rewrite ReadAt_loop_cons.
    destruct (RawReadAt_frame f (data u) (i u) (world st))
      as (r & w1 & evs1 & Hall1 & Hrun).
    specialize (Hrun (trace st)).
    replace (mkSt (world st) (trace st)) with st in Hrun by (destruct st; reflexivity).
    rewrite Hrun.
    apply forallb_file_reads_no_log in Hall1. destruct Hall1 as (Hall1 & _).
    destruct r as [[[buf n] [e|]]|v].
    + cbn [world trace].
      destruct (IH (Some e)
                  (mkSt w1 ((trace st ++ evs1)
                     ++ [EvLog (log_read_error (i u) (len (data u)) e)])))
        as (evs2 & Ht2 & Hall2).
      exists (evs1 ++ EvLog (log_read_error (i u) (len (data u)) e) :: evs2).
      split.
      * destruct (ReadAt_loop f unf (Some e) _) as [[[bufs r]|v] s];
          simpl in *; rewrite Ht2, <- !app_assoc; reflexivity.
      * rewrite forallb_app, Hall1. simpl. exact Hall2.
    + destruct (IH retErr (mkSt w1 (trace st ++ evs1)))
        as (evs2 & Ht2 & Hall2).
      exists (evs1 ++ evs2). split.
      * destruct (ReadAt_loop f unf retErr _) as [[[bufs r]|v] s];
          simpl in *; rewrite Ht2, <- !app_assoc; reflexivity.
      * rewrite forallb_app, Hall1, Hall2. reflexivity.
    + exists evs1. split; [reflexivity | exact Hall1].
Qed.

(** X17: with a cache attached, [ReadAt] calls the cache's [ReadAt] once,
    first, for the caller's buffer and offset; everything after it is a
    [ReadAt] on a file handle or a log line.  It never writes, never calls
    [MarkCommitted] and never closes, whether it returns or panics. *)
Theorem ReadAt_with_cache_calls
    (f : store) (c : Cache) (p : list byte) (off : Z) (st : state) :
  cache f = Some c ->
  exists evs : list event,
    trace (snd (ReadAt f p off st))
      = trace st ++ EvCacheReadAt c (length p) off :: evs /\
    forallb is_read_or_log evs = true.
Proof.
  intros Hc. unfold ReadAt. rewrite Hc. unfold bind at 1, call.
  destruct (cache_ReadAt c p off (world st)) as [[p' unf] w1].
  destruct (ReadAt_loop_trace f unf None
              (mkSt w1 (trace st ++ [EvCacheReadAt c (length p) off])))
    as (evs & Ht & Hall).
  exists evs. split; [|exact Hall].
  unfold bind, ret.
  destruct (ReadAt_loop f unf None _) as [[[bufs r]|v] s];
    simpl in *; rewrite Ht, <- app_assoc; reflexivity.
Qed.

(** The log lines of the loop of [ReadAt]. *)
Lemma ReadAt_loop_logs (f : store) :
  ReaderAt_count_ok -> store_ok f ->
  forall (unf : list chunk),
    Forall (fun u => flat_offset (i u)) unf ->
    forall (retErr : option error) (w : World) (t1 t2 : list event),
      exists (results : list (list byte * Z * option error)) (w' : World)
             (t1' : list event) (r : list (list byte) * option error)
             (evs : list event),
        raw_read_each f unf (mkSt w t1) = (Ok results, mkSt w' t1') /\
        ReadAt_loop f unf retErr (mkSt w t2) = (Ok r, mkSt w' (t2 ++ evs)) /\
        filter is_EvLog evs = read_error_logs unf results.
Proof.
  intros Hcount Hok unf Hflat.
  induction Hflat as [|u unf Hu _ IH]; intros retErr w t1 t2.
  - exists [], w, t1. eexists; exists []. simpl. unfold ret.
    rewrite app_nil_r. repeat split.
  - destruct (RawReadAt_frame f (data u) (i u) w)
      as (r & w1 & evs1 & Hall & Hrun).
    destruct (RawReadAt_returns f (data u) (i u) (mkSt w t1) Hcount Hok Hu)
      as (buf & n & err & st1 & Hret & _).
    rewrite Hrun in Hret. injection Hret as -> _.
    apply forallb_file_reads_no_log in Hall. destruct Hall as (_ & Hnolog).
    rewrite raw_read_each_cons, ReadAt_loop_cons, !Hrun. cbn [world trace].
    destruct err as [e|].
    + destruct (IH (Some e) w1 (t1 ++ evs1) ((t2 ++ evs1)
                  ++ [EvLog (log_read_error (i u) (len (data u)) e)]))
        as (results & w' & t1' & r & evs & Hraw & Hloop & Hlogs).
      exists ((buf, n, Some e) :: results), w', t1'.
      rewrite Hraw, Hloop. destruct r as [bufs r].
      eexists. exists (evs1 ++ EvLog (log_read_error (i u) (len (data u)) e) :: evs).
      split; [reflexivity|]. split.
      * rewrite <- !app_assoc. reflexivity.
      * rewrite filter_app, Hnolog. simpl. rewrite Hlogs. reflexivity.
    + destruct (IH retErr w1 (t1 ++ evs1) (t2 ++ evs1))
        as (results & w' & t1' & r & evs & Hraw & Hloop & Hlogs).
      exists ((buf, n, None) :: results), w', t1'.
      rewrite Hraw, Hloop. destruct r as [bufs r].
      eexists. exists (evs1 ++ evs).
      split; [reflexivity|]. split.
      * rewrite <- !app_assoc. reflexivity.
      * rewrite filter_app, Hnolog. simpl. exact Hlogs.
Qed.

(** X18: with a cache attached, [ReadAt] writes one log line for every
    unfulfilled range whose raw read returned an error, in the order of the
    ranges, each with the offset and length of the range and that error;
    it logs nothing else. *)
Theorem ReadAt_logs_each_failed_range
    (f : store) (c : Cache) (p : list byte) (off : Z) (st : state)
    (p' : list byte) (unf : list chunk) (w1 : World) :
  cache f = Some c ->
  ReaderAt_count_ok ->
  store_ok f ->
  cache_ReadAt c p off (world st) = ((p', unf), w1) ->
  Forall (fun u => flat_offset (i u)) unf ->
  exists (results : list (list byte * Z * option error)) (st2 : state)
         (r : ReadResult) (st' : state),
    raw_read_each f unf
      (mkSt w1 (trace st ++ [EvCacheReadAt c (length p) off]))
      = (Ok results, st2) /\
    ReadAt f p off st = (Ok r, st') /\
    exists evs : list event,
      trace st' = trace st ++ evs /\
      filter is_EvLog evs = read_error_logs unf results.
Proof.
  intros Hc Hcount Hok Hcache Hflat.
  destruct (ReadAt_loop_logs f Hcount Hok unf Hflat None w1
              (trace st ++ [EvCacheReadAt c (length p) off])
              (trace st ++ [EvCacheReadAt c (length p) off]))
    as (results & w' & t1' & r & evs & Hraw & Hloop & Hlogs).
  exists results, (mkSt w' t1').
  unfold ReadAt. rewrite Hc. unfold bind at 1, call. rewrite Hcache.
  unfold bind. rewrite Hloop. destruct r as [bufs r]. unfold ret.
  do 2 eexists. split; [exact Hraw|]. split; [reflexivity|].
  exists (EvCacheReadAt c (length p) off :: evs). cbn [trace].
  split; [rewrite <- app_assoc; reflexivity|]. simpl. exact Hlogs.
Qed.

(** *** Handles that break the count contract *)

(** X19: when the handle of the entry that holds the offset returns no
    error and a count that is negative or above the length of the buffer,
    [RawReadAt] panics on re-slicing the buffer ([p = p[nThisTime:]]); it
    does not return. *)
Theorem RawReadAt_panics_on_count_out_of_range
    (f : store) (k : nat) (en : entry) (p : list byte) (off : Z) (st : state)
    (out : list byte) (n1 : Z) (w1 : World) :
  store_ok f ->
  nth_error (files f) k = Some en ->
  p <> [] ->
  nth k (offsets f) 0 <= off < nth k (offsets f) 0 + fe_length en ->
  n1 < 0 \/ len p < n1 ->
  let a := nth k (offsets f) 0 in
  let c := Z.to_nat (Z.min (a + fe_length en - off) (len p)) in
  file_ReadAt (fe_file en) (firstn c p) (off - a) (world st)
    = ((out, n1, None), w1) ->
  RawReadAt f p off st =
  (Panic slice_bounds_out_of_range,
   mkSt w1 (trace st ++ [EvFileReadAt (fe_file en) c (off - a)])).
Proof.
  intros Hok Hen Hp Hin Hn1 a c Hcall.
  pose proof max_int64_value as Hmv.
  destruct (entry_located f k en off Hok Hen Hin)
    as (Hfind & Hskip & Ha & Hend & Hmax & _).
  fold a in Hin, Hskip, Ha, Hend.
  unfold RawReadAt. rewrite Hfind, Hskip.
  destruct p as [|x p]; [congruence|].
  assert (Hlp : 0 < len (x :: p)) by (unfold len; simpl length; lia).
  destruct (nth_error (files f) k) as [en'|] eqn:Hen'; [|discriminate].
  injection Hen as ->.
  cbn [RawReadAt_loop]. rewrite Hen'.
  rewrite (sub64_id off a)
    by (unfold in_int64; rewrite min_int64_value; lia).
  assert (Hlt : (off - a <? fe_length en) = true) by (apply Z.ltb_lt; lia).
  rewrite Hlt.
  rewrite sub64_id by (unfold in_int64; rewrite min_int64_value; lia).
  assert (Hc : (if fe_length en - (off - a) <? len (x :: p)
                then fe_length en - (off - a) else len (x :: p))
               = Z.min (a + fe_length en - off) (len (x :: p))).
  { destruct (fe_length en - (off - a) <? len (x :: p)) eqn:E;
      [apply Z.ltb_lt in E | apply Z.ltb_ge in E]; lia. }
  rewrite Hc. fold c.
  destruct (Z.min (a + fe_length en - off) (len (x :: p)) <? 0) eqn:Hneg;
    [apply Z.ltb_lt in Hneg; lia|].
  unfold bind, call. rewrite Hcall.
  assert (Hb : (n1 <? 0)
               || (len (overwrite (firstn c (x :: p)) out
                          ++ skipn c (x :: p)) <? n1) = true).
  { apply orb_true_iff. unfold len at 1.
    rewrite length_app, overwrite_length, <- length_app, firstn_skipn.
    fold (len (x :: p)).
    destruct Hn1; [left | right]; apply Z.ltb_lt; lia. }
  rewrite Hb. reflexivity.
Qed.

(** X20: when the handle of the entry that holds the offset returns no
    error and a count that is negative or above the length of the buffer,
    [RawWriteAt] panics on re-slicing the buffer; it does not return. *)
Theorem RawWriteAt_panics_on_count_out_of_range
    (f : store) (k : nat) (en : entry) (p : list byte) (off : Z) (st : state)
    (n1 : Z) (w1 : World) :
  store_ok f ->
  nth_error (files f) k = Some en ->
  p <> [] ->
  nth k (offsets f) 0 <= off < nth k (offsets f) 0 + fe_length en ->
  n1 < 0 \/ len p < n1 ->
  let a := nth k (offsets f) 0 in
  let c := Z.to_nat (Z.min (a + fe_length en - off) (len p)) in
  file_WriteAt (fe_file en) (firstn c p) (off - a) (world st)
    = ((n1, None), w1) ->
  RawWriteAt f p off st =
  (Panic slice_bounds_out_of_range,
   mkSt w1 (trace st ++ [EvFileWriteAt (fe_file en) (firstn c p) (off - a)])).
Proof.
  intros Hok Hen Hp Hin Hn1 a c Hcall.
  pose proof max_int64_value as Hmv.
  destruct (entry_located f k en off Hok Hen Hin)
    as (Hfind & Hskip & Ha & Hend & Hmax & _).
  fold a in Hin, Hskip, Ha, Hend.
  unfold RawWriteAt. rewrite Hfind, Hskip.
  destruct p as [|x p]; [congruence|].
  assert (Hlp : 0 < len (x :: p)) by (unfold len; simpl length; lia).
  destruct (nth_error (files f) k) as [en'|] eqn:Hen'; [|discriminate].
  injection Hen as ->.
  cbn [RawWriteAt_loop]. rewrite Hen'.
  rewrite (sub64_id off a)
    by (unfold in_int64; rewrite min_int64_value; lia).
  assert (Hlt : (off - a <? fe_length en) = true) by (apply Z.ltb_lt; lia).
  rewrite Hlt.
  rewrite sub64_id by (unfold in_int64; rewrite min_int64_value; lia).
  assert (Hc : (if fe_length en - (off - a) <? len (x :: p)
                then fe_length en - (off - a) else len (x :: p))
               = Z.min (a + fe_length en - off) (len (x :: p))).
  { destruct (fe_length en - (off - a) <? len (x :: p)) eqn:E;
      [apply Z.ltb_lt in E | apply Z.ltb_ge in E]; lia. }
  rewrite Hc. fold c.
  destruct (Z.min (a + fe_length en - off) (len (x :: p)) <? 0) eqn:Hneg;
    [apply Z.ltb_lt in Hneg; lia|].
  unfold bind, call. rewrite Hcall.
  assert (Hb : (n1 <? 0) || (len (x :: p) <? n1) = true).
  { apply orb_true_iff. destruct Hn1; [left | right]; apply Z.ltb_lt; lia. }
  rewrite Hb. reflexivity.
Qed.

End MoreProperties.

(** ** Further properties over the in-memory collaborators *)

Lemma mem_ReaderAt_short_is_error :
  @ReaderAt_short_is_error MemWorld nat mem_FileOps.
Proof.
  intros h buf off w. simpl. unfold mem_ReadAt.
  destruct (nth_error (disk w) h) as [content|]; simpl; [|discriminate].
  destruct (off <? 0); simpl; [discriminate|].
  destruct (Nat.ltb _ _) eqn:E; [discriminate|].
  intros _. apply Nat.ltb_ge in E. unfold len.
  rewrite length_firstn in *. lia.
Qed.

Lemma mem_WriterAt_short_is_error :
  @WriterAt_short_is_error MemWorld nat mem_FileOps.
Proof.
  intros h buf off w. simpl. unfold mem_WriteAt.
  destruct (nth_error (disk w) h) as [content|]; simpl; [|discriminate].
  destruct (off <? 0); simpl; [discriminate|].
  destruct (Nat.ltb _ _) eqn:E; [discriminate|].
  intros _. apply Nat.ltb_ge in E. unfold len. lia.
Qed.

Lemma flat_offset_3 : flat_offset 3.
Proof. unfold flat_offset. rewrite max_int64_value. lia. Qed.

Lemma in_int64_1 : in_int64 1.
Proof. unfold in_int64. rewrite max_int64_value, min_int64_value. lia. Qed.

Lemma find_below_first_start_witness : find [0; 4; 9] (-3) = 0%nat.
Proof.
  apply (find_below_first_start [0; 4; 9] (-3) sorted_0_4_9).
  simpl. lia.
Defined.

Lemma RawWriteAt_count_is_length_unless_error_witness :
  exists (n : Z) (err : option error) (st' : MemSt),
    RawWriteAt store46 [x01; x02; x03] 3 st_short = (Ok (n, err), st') /\
    0 <= n <= 3 /\
    (err = None -> n = 3).
Proof.
  apply (RawWriteAt_count_is_length_unless_error store46 [x01; x02; x03] 3
           st_short mem_WriterAt_count_ok store46_ok flat_offset_3).
  rewrite max_int64_value. cbn. lia.
Defined.

Lemma RawReadAt_count_and_zero_tail_witness :
  exists (buf : list byte) (n : Z) (err : option error) (st' : MemSt),
    RawReadAt store46 [x01; x01; x01] 8 st46 = (Ok (buf, n, err), st') /\
    length buf = 3%nat /\
    0 <= n <= 3 /\
    (err = None -> skipn (Z.to_nat n) buf = repeat x00 (3 - Z.to_nat n)).
Proof.
  apply (RawReadAt_count_and_zero_tail store46 [x01; x01; x01] 8 st46
           mem_ReaderAt_count_ok store46_ok).
  - unfold flat_offset. rewrite max_int64_value. lia.
  - rewrite max_int64_value. cbn. lia.
Defined.

Lemma RawWriteAt_calls_stay_in_declared_files_witness :
  exists evs : list (@Event nat unit unit),
    trace (snd (RawWriteAt store46 [x01; x02; x03] 3 st46))
      = trace st46 ++ evs /\
    Forall (write_in_bounds (files store46)) evs.
Proof.
  exact (RawWriteAt_calls_stay_in_declared_files store46 [x01; x02; x03] 3
           st46 mem_WriterAt_count_ok mem_WriterAt_short_is_error store46_ok
           flat_offset_3).
Defined.

Lemma RawReadAt_calls_stay_in_declared_files_witness :
  exists evs : list (@Event nat unit unit),
    trace (snd (RawReadAt store46 [x01; x01; x01] 3 st46))
      = trace st46 ++ evs /\
    Forall (read_in_bounds (files store46)) evs.
Proof.
  exact (RawReadAt_calls_stay_in_declared_files store46 [x01; x01; x01] 3
           st46 mem_ReaderAt_count_ok mem_ReaderAt_short_is_error store46_ok
           flat_offset_3).
Defined.

Lemma RawReadAt_handle_error_stops_the_read_witness :
  RawReadAt store46 [x01; x01; x01] 4 st_short
    = (Ok ([xb0; x01; x01], 1, Some ErrEOF),
       mkSt world_short [EvFileReadAt 1%nat 3 0]).
Proof.
  apply (RawReadAt_handle_error_stops_the_read store46 1
           (mkFileEntry 6 1%nat) [x01; x01; x01] 4 st_short
           [xb0] 1 ErrEOF world_short store46_ok).
  - reflexivity.
  - discriminate.
  - cbn. lia.
  - exact in_int64_1.
  - reflexivity.
Defined.

Lemma RawWriteAt_handle_error_stops_the_write_witness :
  RawWriteAt store46 [x01; x01; x01] 4 st_short
    = (Ok (1, Some ErrShortWrite),
       mkSt (mkMemWorld [fileA; [x01]] [])
            [EvFileWriteAt 1%nat [x01; x01; x01] 0]).
Proof.
  apply (RawWriteAt_handle_error_stops_the_write store46 1
           (mkFileEntry 6 1%nat) [x01; x01; x01] 4 st_short
           1 ErrShortWrite (mkMemWorld [fileA; [x01]] []) store46_ok).
  - reflexivity.
  - discriminate.
  - cbn. lia.
  - exact in_int64_1.
  - reflexivity.
Defined.

Lemma raw_access_within_one_file_witness :
  RawReadAt store46 [x01; x02] 5 st46
    = (Ok ([xb1; xb2], 2, None),
       mkSt world46 [EvFileReadAt 1%nat 2 1]) /\
  RawWriteAt store46 [x01; x02] 5 st46
    = (Ok (2, None),
       mkSt (mkMemWorld [fileA; [xb0; x01; x02; xb3; xb4; xb5]] [])
            [EvFileWriteAt 1%nat [x01; x02] 1]) /\
  RawReadAt store46 [x01; x02] 5 st_short
    = (Ok ([x01; x02], 0, Some ErrEOF),
       mkSt world_short [EvFileReadAt 1%nat 2 1]).
Proof.
  assert (Hint : forall z : Z, 0 <= z <= 2 -> in_int64 z).
  { intros z Hz. unfold in_int64.
    rewrite max_int64_value, min_int64_value. lia. }
  destruct (raw_access_within_one_file store46 1 (mkFileEntry 6 1%nat)
              [x01; x02] 5 st46 store46_ok eq_refl) as (R & W).
  - discriminate.
  - cbn. lia.
  - cbn. lia.
  - split; [|split].
    + apply (R [xb1; xb2] 2 None world46);
        [reflexivity | reflexivity | apply Hint; lia].
    + apply (W 2 None (mkMemWorld [fileA; [xb0; x01; x02; xb3; xb4; xb5]] []));
        [reflexivity | reflexivity | apply Hint; lia].
    + destruct (raw_access_within_one_file store46 1 (mkFileEntry 6 1%nat)
                  [x01; x02] 5 st_short store46_ok eq_refl) as (R' & _).
      * discriminate.
      * cbn. lia.
      * cbn. lia.
      * apply (R' [] 0 (Some ErrEOF) world_short);
          [reflexivity | discriminate | apply Hint; lia].
Defined.

Lemma RawReadAt_across_end_of_store_witness :
  RawReadAt store46 [x01; x01; x01] 8 st46
    = (Ok ([xb4; xb5; x00], 2, None),
       mkSt world46 [EvFileReadAt 1%nat 2 4]).
Proof.
  apply (RawReadAt_across_end_of_store store46 (mkFileEntry 6 1%nat)
           [x01; x01; x01] 8 st46 [xb4; xb5] world46 store46_ok).
  - reflexivity.
  - cbn. lia.
  - cbn. lia.
  - reflexivity.
Defined.

Lemma RawWriteAt_across_end_of_store_witness :
  RawWriteAt store46 [x01; x02; x00; x03] 8 st46
    = (Ok (3, Some ErrNonZeroTrailing),
       mkSt (mkMemWorld [fileA; [xb0; xb1; xb2; xb3; x01; x02]] [])
            [EvFileWriteAt 1%nat [x01; x02] 4]).
Proof.
  apply (RawWriteAt_across_end_of_store store46 (mkFileEntry 6 1%nat)
           [x01; x02; x00; x03] 8 st46
           (mkMemWorld [fileA; [xb0; xb1; xb2; xb3; x01; x02]] [])
           store46_ok).
  - reflexivity.
  - cbn. lia.
  - cbn. lia.
  - rewrite max_int64_value. cbn. lia.
  - reflexivity.
Defined.

Lemma ReadAt_without_cache_past_end_witness :
  ReadAt store46 [x01; x01; x01] 10 st46
    = (Ok (mkReadResult [x00; x00; x00] [] 0 None), st46).
Proof.
  apply (ReadAt_without_cache_past_end store46 [x01; x01; x01] 10 st46
           eq_refl store46_ok).
  rewrite max_int64_value. cbn. lia.
Defined.

Lemma NewFileStore_succeeds_when_opens_succeed_witness :
  exists (f : MemStore) (ts : Z),
    NewFileStore info46 tt empty_st =
    (Ok (Some f, ts, None),
     mkSt (mkMemWorld [repeat x00 4; repeat x00 6] [])
          [EvOpen tt ["a"] 4; EvOpen tt ["b"] 6]) /\
    map fe_file (files f) = [0%nat; 1%nat] /\
    lengths_of f = [4; 6] /\
    length (offsets f) = length (files f) /\
    cache f = None /\
    fileSystem f = tt.
Proof.
  apply (NewFileStore_succeeds_when_opens_succeed info46 tt empty_st
           [0%nat; 1%nat] (mkMemWorld [repeat x00 4; repeat x00 6] [])).
  reflexivity.
Defined.

Lemma NewFileStore_failure_returns_partial_total_witness :
  fst (NewFileStore info_bad tt empty_st)
    = Ok (None, 10, Some ErrNotExist).
Proof.
  apply (NewFileStore_failure_returns_partial_total info_bad tt empty_st
           [mkFileDict 4 ["a"] ""; mkFileDict 6 ["b"] ""]
           [mkFileDict 1 ["c"] ""] (mkFileDict 3 [] "")
           [0%nat; 1%nat]
           (mkMemWorld [repeat x00 4; repeat x00 6] [])
           (mkMemWorld [repeat x00 4; repeat x00 6] [])
           0%nat ErrNotExist).
  - reflexivity.
  - reflexivity.
  - reflexivity.
  - cbn. repeat constructor; lia.
  - rewrite max_int64_value. cbn. lia.
Defined.

Lemma WriteAt_with_cache_calls_witness :
  exists evs : list (@Event nat unit unit),
    trace (snd (WriteAt store46c [x01; x01; x01; x01; x01] 2 st_short))
      = trace st_short
        ++ EvCacheWriteAt tt [x01; x01; x01; x01; x01] 2 :: evs /\
    forallb is_EvFileWriteAt evs = true.
Proof.
  exact (WriteAt_with_cache_calls store46c tt [x01; x01; x01; x01; x01] 2
           st_short eq_refl).
Defined.

Lemma ReadAt_with_cache_calls_witness :
  exists evs : list (@Event nat unit unit),
    trace (snd (ReadAt store46c [x01; x01; x01; x01; x01] 2 st_short))
      = trace st_short ++ EvCacheReadAt tt 5 2 :: evs /\
    forallb is_read_or_log evs = true.
Proof.
  exact (ReadAt_with_cache_calls store46c tt [x01; x01; x01; x01; x01] 2
           st_short eq_refl).
Defined.

Lemma ReadAt_logs_each_failed_range_witness :
  exists (r : ReadResult) (st' : MemSt) (evs : list (@Event nat unit unit)),
    ReadAt store46c [x01; x01; x01; x01; x01] 2 st_short = (Ok r, st') /\
    trace st' = trace st_short ++ evs /\
    filter is_EvLog evs
      = [EvLog (log_read_error 4 2 ErrEOF); EvLog (log_read_error 6 1 ErrEOF)].
Proof.
  destruct (ReadAt_logs_each_failed_range store46c tt
              [x01; x01; x01; x01; x01] 2 st_short
              [x01; x01; x01; x01; x01]
              [mkChunk 2 [x01; x01]; mkChunk 4 [x01; x01]; mkChunk 6 [x01]]
              world_short)
    as (results & st2 & r & st' & Hraw & Hread & evs & Ht & Hlogs).
  - reflexivity.
  - exact mem_ReaderAt_count_ok.
  - exact store46c_ok.
  - reflexivity.
  - flat_offsets.
  - vm_compute in Hraw. injection Hraw as <- _.
    exists r, st', evs. split; [exact Hread|]. split; [exact Ht|]. exact Hlogs.
Defined.

Import LyingFS.

Lemma store4_ok : store_ok store4.
Proof.
  unfold store_ok, totalSize_of, lengths_of. simpl.
  rewrite max_int64_value.
  repeat split; try discriminate; try lia; try reflexivity.
  repeat constructor; lia.
Qed.

Lemma RawReadAt_panics_on_count_out_of_range_witness :
  RawReadAt store4 [x01; x01] 1 st4
    = (Panic slice_bounds_out_of_range,
       mkSt tt [EvFileReadAt tt 2 1]).
Proof.
  apply (RawReadAt_panics_on_count_out_of_range store4 0
           (mkFileEntry 4 tt) [x01; x01] 1 st4 [] 3 tt store4_ok).
  - reflexivity.
  - discriminate.
  - cbn. lia.
  - right. cbn. lia.
  - reflexivity.
Defined.

Lemma RawWriteAt_panics_on_count_out_of_range_witness :
  RawWriteAt store4 [x01; x01] 1 st4
    = (Panic slice_bounds_out_of_range,
       mkSt tt [EvFileWriteAt tt [x01; x01] 1]).
Proof.
  apply (RawWriteAt_panics_on_count_out_of_range store4 0
           (mkFileEntry 4 tt) [x01; x01] 1 st4 (-1) tt store4_ok).
  - reflexivity.
  - discriminate.
  - cbn. lia.
  - left. lia.
  - reflexivity.
Defined.

(** C6, as stated without a bound on the sum: on the declared lengths
    [2^63 - 1] and 1, both non-negative, construction succeeds and the
    entries have the declared lengths, but [totalSize += src.Length] wraps
    around: the total returned is [-2^63], not the sum [2^63] of the entry
    lengths, and the entries do not cover [[0, totalSize)]. *)
Lemma NewFileStore_total_wraps_counterexample :
  NewFileStore info_overflow tt st4
    = (Ok (Some store_overflow, -9223372036854775808, None),
       mkSt tt [EvOpen tt ["a"] 9223372036854775807; EvOpen tt ["b"] 1]) /\
  Forall (fun l => 0 <= l) (lengths_of store_overflow) /\
  totalSize_of store_overflow = 9223372036854775808 /\
  -9223372036854775808 <> totalSize_of store_overflow /\
  ~ tiles (offsets store_overflow) (lengths_of store_overflow)
      (-9223372036854775808).
Proof.
  split; [reflexivity|].
  split; [cbn; repeat constructor; lia|].
  split; [reflexivity|].
  split; [cbn; lia|].
  intros (_ & _ & Hk). specialize (Hk 1%nat ltac:(simpl; lia)).
  cbn in Hk. lia.
Qed.
